(** * fluctus: a shallow embedding of [fluctus/interfaces.py]

    Python floats are IEEE doubles.  A finite double is modelled by the
    rational number it denotes, and [round64] rounds a rational to the nearest
    double, ties to even.  The scalar bookkeeping whose rounding decides an
    index, a count or a comparison is rounded the way the code rounds it: the
    time grid and the sampling rate of the object, the baseline window of
    [psc], and the helpers [get_offset] and [get_ntrials] of [Module Double].
    The array arithmetic of NumPy, SciPy and scikit-learn is either written
    with exact rational arithmetic (no rounding, no NaN), which the
    statements about it say, or, in [Module NumPy], runs on numbers given as
    a parameter, of which the doubles are one instance.  Signed zeros are
    not distinguished.

    Python exceptions are values of [exn]; a call that may raise returns a
    [result]; a loop that may run forever is run on fuel and returns an
    [outcome]. *)

From Stdlib Require Import String ZArith QArith Qround Qpower Qabs Qreduction List Bool Lia Lqa.
From Stdlib Require Floats.
Import ListNotations.
Open Scope Q_scope.

(** ** Exceptions, results, outcomes *)

Inductive exn : Type :=
| ZeroDivisionError
| OverflowError
| IndexError
| TypeError
| ValueError
| LibraryError (msg : string).

Inductive result (A : Type) : Type :=
| Ok (a : A)
| Raise (e : exn).
Arguments Ok {A} a.
Arguments Raise {A} e.

Definition rbind {A B} (r : result A) (k : A -> result B) : result B :=
  match r with
  | Ok a => k a
  | Raise e => Raise e
  end.

Notation "'let?' x := r 'in' k" := (rbind r (fun x => k))
  (at level 10, x pattern, r at level 100, k at level 200).

(** What a run on [fuel] iterations of a loop observes. *)
Inductive outcome (A : Type) : Type :=
| Returns (a : A)
| Raises (e : exn)
| OutOfFuel.
Arguments Returns {A} a.
Arguments Raises {A} e.
Arguments OutOfFuel {A}.

(** ** Numbers *)

Definition Qlt_bool (a b : Q) : bool := negb (Qle_bool b a).

Lemma Qlt_bool_iff a b : Qlt_bool a b = true <-> a < b.
Proof.
  unfold Qlt_bool. rewrite negb_true_iff.
  destruct (Qle_bool b a) eqn:E.
  - apply Qle_bool_iff in E. split; [discriminate | intros H; lra].
  - split; [intros _ | reflexivity].
    destruct (Qlt_le_dec a b) as [H | H]; [exact H |].
    apply Qle_bool_iff in H. congruence.
Qed.

Lemma Qle_bool_false a b : Qle_bool a b = false <-> b < a.
Proof.
  rewrite <- Qlt_bool_iff. unfold Qlt_bool.
  destruct (Qle_bool a b); simpl; split; congruence.
Qed.

(** Python's [int(x)] on a finite number: truncation toward zero. *)
Definition Qtrunc (q : Q) : Z := Z.quot (Qnum q) (Zpos (Qden q)).

(** Python's [range(n)]: empty when [n <= 0]. *)
Definition range (n : Z) : list Z := map Z.of_nat (seq 0 (Z.to_nat n)).

(** Python's [range(a, b)]. *)
Definition range2 (a b : Z) : list Z := map (fun i => (a + i)%Z) (range (b - a)).

(** Python's [l[-1]]: the last element, [IndexError] on an empty list. *)
Definition last_item {A} (l : list A) : result A :=
  match rev l with
  | x :: _ => Ok x
  | [] => Raise IndexError
  end.

(** Python's [divmod(a, b)[0]]: the floor of the quotient; [b = None] is a
    [TypeError], [b = 0] a [ZeroDivisionError]. *)
Definition divmod_quot (a : Q) (b : option Q) : result Z :=
  match b with
  | None => Raise TypeError
  | Some b => if Qeq_bool b 0 then Raise ZeroDivisionError else Ok (Qfloor (a / b))
  end.

(** ** Doubles *)

(** [floor (log2 x)] for [x > 0]. *)
Definition ilog2 (x : Q) : Z :=
  let k := (Z.log2 (Qnum x) - Z.log2 (Zpos (Qden x)))%Z in
  if Qle_bool (2 ^ k) x then k else (k - 1)%Z.

(** Rounding to the nearest integer, ties to the even one. *)
Definition rne (x : Q) : Z :=
  let f := Qfloor x in
  match Qcompare (x - inject_Z f) (1 # 2) with
  | Lt => f
  | Gt => (f + 1)%Z
  | Eq => if Z.even f then f else (f + 1)%Z
  end.

(** The exponent of the last place of the doubles around [x > 0]: 53
    significant bits, subnormal numbers from [2^-1074] on. *)
Definition ulp_exponent (x : Q) : Z := Z.max (ilog2 x - 52) (- 1074).

Definition round_pos (x : Q) : Q :=
  inject_Z (rne (x / 2 ^ ulp_exponent x)) * 2 ^ ulp_exponent x.

(** The double nearest to [x], ties to even, as a reduced fraction.  The
    exponent is not bounded above: overflow is decided by [binary64]. *)
Definition round64 (x : Q) : Q :=
  match Qcompare x 0 with
  | Eq => 0
  | Gt => Qred (round_pos x)
  | Lt => Qred (- round_pos (- x))
  end.

(** The doubles: the rationals that rounding leaves as they are. *)
Definition is_double (x : Q) : Prop := round64 x == x.

(** A Python float: a finite double, an infinity or NaN. *)
Inductive pyfloat : Type :=
| Fin (q : Q)
| PInf
| NInf
| NaN.

(** The largest finite double, [(2^53 - 1) * 2^971]. *)
Definition max_double : Q := inject_Z ((2 ^ 53 - 1) * 2 ^ 971).

(** The result of an operation whose exact value is [x]: the nearest double,
    an infinity when that is beyond the largest finite one. *)
Definition binary64 (x : Q) : pyfloat :=
  let r := round64 x in
  if Qlt_bool max_double r then PInf
  else if Qlt_bool r (- max_double) then NInf
  else Fin r.

(** A finite double in reduced form. *)
Definition finite_double (x : Q) : Prop := binary64 x = Fin x.

(** [x + y], [- x], [x - y] and [x * y] on floats. *)
Definition fadd (x y : pyfloat) : pyfloat :=
  match x, y with
  | NaN, _ | _, NaN => NaN
  | Fin a, Fin b => binary64 (a + b)
  | PInf, NInf | NInf, PInf => NaN
  | PInf, _ | _, PInf => PInf
  | NInf, _ | _, NInf => NInf
  end.

Definition fopp (x : pyfloat) : pyfloat :=
  match x with
  | Fin a => Fin (- a)
  | PInf => NInf
  | NInf => PInf
  | NaN => NaN
  end.

Definition fsub (x y : pyfloat) : pyfloat := fadd x (fopp y).

Definition fmul (x y : pyfloat) : pyfloat :=
  match x, y with
  | NaN, _ | _, NaN => NaN
  | Fin a, Fin b => binary64 (a * b)
  | Fin a, PInf | PInf, Fin a =>
      if Qeq_bool a 0 then NaN else if Qlt_bool 0 a then PInf else NInf
  | Fin a, NInf | NInf, Fin a =>
      if Qeq_bool a 0 then NaN else if Qlt_bool 0 a then NInf else PInf
  | PInf, PInf | NInf, NInf => PInf
  | PInf, NInf | NInf, PInf => NInf
  end.

(** [x <= y] and [x < y] on floats: false as soon as one of them is NaN. *)
Definition fle (x y : pyfloat) : bool :=
  match x, y with
  | NaN, _ | _, NaN => false
  | Fin a, Fin b => Qle_bool a b
  | NInf, _ | _, PInf => true
  | _, _ => false
  end.

Definition flt (x y : pyfloat) : bool :=
  match x, y with
  | NaN, _ | _, NaN => false
  | Fin a, Fin b => Qlt_bool a b
  | PInf, _ | _, NInf => false
  | _, _ => true
  end.

(** Division and square root of [np.float64]: a zero divisor gives an
    infinity or NaN, the root of a negative number NaN.  The root is rounded
    from an integer root taken at sixty bits or more, with one more bit to
    tell an inexact root from the double below it. *)
Definition fdiv (x y : pyfloat) : pyfloat :=
  match x, y with
  | NaN, _ | _, NaN => NaN
  | Fin a, Fin b =>
      if Qeq_bool b 0
      then (if Qeq_bool a 0 then NaN else if Qlt_bool 0 a then PInf else NInf)
      else binary64 (a / b)
  | Fin _, _ => Fin 0
  | PInf, Fin b => if Qle_bool 0 b then PInf else NInf
  | NInf, Fin b => if Qle_bool 0 b then NInf else PInf
  | _, _ => NaN
  end.

Definition fsqrt (x : pyfloat) : pyfloat :=
  match x with
  | Fin q =>
      match Qcompare q 0 with
      | Lt => NaN
      | Eq => Fin 0
      | Gt =>
          let k := Z.max 0 (60 - ilog2 q / 2) in
          let scaled := q * 2 ^ (2 * k) in
          let n := Qfloor scaled in
          let s := Z.sqrt n in
          if ((s * s =? n)%Z && Qeq_bool (inject_Z n) scaled)%bool
          then binary64 (inject_Z s / 2 ^ k)
          else binary64 (inject_Z (2 * s + 1) / 2 ^ (k + 1))
      end
  | PInf => PInf
  | NInf | NaN => NaN
  end.

(** [x / y] for a float [x] and a finite Python float [y]: a zero divisor
    raises.  (A NumPy scalar divisor gives an infinity or NaN instead, which
    [int] then refuses.) *)
Definition float_div (x : pyfloat) (y : Q) : result pyfloat :=
  if Qeq_bool y 0 then Raise ZeroDivisionError
  else match x with
       | Fin q => Ok (binary64 (q / y))
       | PInf => Ok (if Qlt_bool 0 y then PInf else NInf)
       | NInf => Ok (if Qlt_bool 0 y then NInf else PInf)
       | NaN => Ok NaN
       end.

(** [int(x)]: truncation toward zero; an infinity is an [OverflowError], NaN
    a [ValueError]. *)
Definition to_int (x : pyfloat) : result Z :=
  match x with
  | Fin q => Ok (Qtrunc q)
  | PInf | NInf => Raise OverflowError
  | NaN => Raise ValueError
  end.

(** ** Grid alignment helpers

    First as they compute when nothing is rounded (the object below keeps
    [offset] and [n_trials] from these), then, in [Module Double], on
    floats. *)

(** [get_ntrials(start_offset, period, tr, nvols)]. *)
Definition get_ntrials (start_offset : Q) (period : option Q) (tr : Q) (nvols : Z)
  : result Z :=
  let source_grid_ := map (fun x => inject_Z x * tr) (range nvols) in
  let? total_time := last_item source_grid_ in
  let? trials := divmod_quot (total_time - start_offset) period in
  Ok trials.

(** The [while offset <= stimulus_offset + 39.999: offset += period] loop. *)
Fixpoint get_offset_loop (fuel : nat) (bound period offset : Q) : outcome Q :=
  match fuel with
  | O => OutOfFuel
  | S fuel' =>
      if Qle_bool offset bound
      then get_offset_loop fuel' bound period (offset + period)
      else Returns offset
  end.

(** [get_offset(stimulus_offset, period, discard_transients)]. *)
Definition get_offset (fuel : nat) (stimulus_offset : Q) (period : option Q)
    (discard_transients : bool) : outcome Q :=
  let offset := stimulus_offset in
  match period with
  | Some p =>
      if Qlt_bool stimulus_offset 40 && discard_transients
      then get_offset_loop fuel (stimulus_offset + (39999 # 1000)) p offset
      else Returns offset
  | None => Returns offset
  end.

Example get_offset_default :
  get_offset 10 14 (Some 10) true = Returns 54.
Proof. reflexivity. Qed.

Example get_ntrials_scenario :
  get_ntrials 54 (Some 10) (1 # 10) 600 = Ok 0%Z.
Proof. reflexivity. Qed.

(** *** The helpers on floats *)

Module Double.

(** The literal [39.999]: the double nearest to it. *)
Definition transient_margin : pyfloat := binary64 (39999 # 1000).

(** The [while offset <= stimulus_offset + 39.999: offset += period] loop. *)
Fixpoint get_offset_loop (fuel : nat) (bound period offset : pyfloat) : outcome pyfloat :=
  match fuel with
  | O => OutOfFuel
  | S fuel' =>
      if fle offset bound
      then get_offset_loop fuel' bound period (fadd offset period)
      else Returns offset
  end.

(** [get_offset(stimulus_offset, period, discard_transients)] on floats. *)
Definition get_offset (fuel : nat) (stimulus_offset : pyfloat) (period : option pyfloat)
    (discard_transients : bool) : outcome pyfloat :=
  let offset := stimulus_offset in
  match period with
  | Some p =>
      if flt stimulus_offset (Fin 40) && discard_transients
      then get_offset_loop fuel (fadd stimulus_offset transient_margin) p offset
      else Returns offset
  | None => Returns offset
  end.

(** The value of [offset] after [k] rounds of [offset += period]. *)
Fixpoint running_sum (offset period : pyfloat) (k : nat) : pyfloat :=
  match k with
  | O => offset
  | S k' => fadd (running_sum offset period k') period
  end.

(** Python's [divmod(a, b)[0]] on floats: the floor of the exact quotient of
    the two doubles, as a float (CPython and NumPy compute it from the exact
    remainder [fmod(a, b)] and snap it to the nearest whole number).  An
    infinite or NaN dividend gives NaN.  A zero divisor raises, unless an
    operand is a NumPy scalar: then the quotient is [a / 0], an infinity or
    NaN. *)
Definition divmod_quot (numpy_scalars : bool) (a : pyfloat) (b : option pyfloat)
  : result pyfloat :=
  match b with
  | None => Raise TypeError
  | Some NaN => Ok NaN
  | Some (Fin b) =>
      if Qeq_bool b 0 then
        if numpy_scalars
        then Ok (match a with
                 | Fin a => if Qlt_bool 0 a then PInf
                            else if Qlt_bool a 0 then NInf else NaN
                 | x => x
                 end)
        else Raise ZeroDivisionError
      else
        match a with
        | Fin a => Ok (binary64 (inject_Z (Qfloor (a / b))))
        | _ => Ok NaN
        end
  | Some PInf =>
      match a with
      | Fin a => Ok (Fin (if Qlt_bool a 0 then - (1) else 0))
      | _ => Ok NaN
      end
  | Some NInf =>
      match a with
      | Fin a => Ok (Fin (if Qlt_bool 0 a then - (1) else 0))
      | _ => Ok NaN
      end
  end.

(** [get_ntrials(start_offset, period, tr, nvols)] on floats; [x * tr] turns
    the index [x] into a float first.  [numpy_scalars] says whether one of
    the arguments is a NumPy scalar. *)
Definition get_ntrials (numpy_scalars : bool) (start_offset : pyfloat)
    (period : option pyfloat) (tr : pyfloat) (nvols : Z) : result pyfloat :=
  let source_grid_ := map (fun x => fmul (binary64 (inject_Z x)) tr) (range nvols) in
  let? total_time := last_item source_grid_ in
  let? trials := divmod_quot numpy_scalars (fsub total_time start_offset) period in
  Ok trials.

End Double.

(** ** Arrays *)

(** A 2-D array, rows = samples, columns = channels. *)
Definition matrix : Type := list (list Q).

(** [m.shape[0]]. *)
Definition shape0 (m : matrix) : nat := length m.

(** [m.shape[1]], read off the first row. *)
Definition shape1 (m : matrix) : nat :=
  match m with
  | [] => O
  | r :: _ => length r
  end.

(** A Python slice bound, clipped the way [l[i:j]] clips it. *)
Definition slice_index (i : Z) (len : nat) : nat :=
  if (i <? 0)%Z
  then Z.to_nat (Z.max (i + Z.of_nat len) 0)
  else Z.to_nat (Z.min i (Z.of_nat len)).

(** [l[start:stop]]. *)
Definition slice {A} (start stop : Z) (l : list A) : list A :=
  let a := slice_index start (length l) in
  let b := slice_index stop (length l) in
  firstn (b - a) (skipn a l).

(** [l[start:]] and [l[:stop]]. *)
Definition slice_from {A} (start : Z) (l : list A) : list A :=
  skipn (slice_index start (length l)) l.
Definition slice_to {A} (stop : Z) (l : list A) : list A :=
  firstn (slice_index stop (length l)) l.

(** [l[i]] for [i >= 0]. *)
Definition getitem (l : list Q) (i : nat) : result Q :=
  match nth_error l i with
  | Some x => Ok x
  | None => Raise IndexError
  end.

Definition Qsum (l : list Q) : Q := fold_right Qplus 0 l.

(** [np.arange(n) * step]: each product is rounded.  (A grid is a list of
    finite numbers: overflow to infinity is not modelled in it.) *)
Definition arange_times (n : nat) (step : Q) : list Q :=
  map (fun i => round64 (inject_Z (Z.of_nat i) * step)) (seq 0 n).

(** Column [j] of a matrix. *)
Definition column (j : nat) (m : matrix) : list Q := map (fun r => nth j r 0) m.

(** What [m.squeeze()] can be: an array of no, one or two axes. *)
Inductive ndarray : Type :=
| Array0 (x : Q)
| Array1 (v : list Q)
| Array2 (m : matrix).

(** [m.squeeze()] drops the axes of length one: a single entry is left as an
    array without axes, a single row or a single column as a vector.  (A
    matrix without rows is kept as it is, its number of columns not being
    recorded.) *)
Definition squeeze (m : matrix) : ndarray :=
  match m with
  | [] => Array2 []
  | [[x]] => Array0 x
  | [r] => Array1 r
  | _ => if Nat.eqb (shape1 m) 1 then Array1 (column 0 m) else Array2 m
  end.

(** [m.mean(0)]: one mean per channel. *)
Definition mean0 (m : matrix) : list Q :=
  map (fun j => Qsum (column j m) / inject_Z (Z.of_nat (shape0 m))) (seq 0 (shape1 m)).

(** [a + b] on two rows of equal length. *)
Definition row_add (a b : list Q) : list Q := map (fun p => fst p + snd p) (combine a b).

(** [m + v] with [v] broadcast over the rows. *)
Definition add_rowwise (m : matrix) (v : list Q) : matrix := map (fun r => row_add r v) m.

(** ** The transformers of [fluctus.preprocessing]

    The module [fluctus/preprocessing.py] is imported by [interfaces.py]; the
    orchestrator only calls [fit] and [transform] on its transformers and
    reads a few fitted attributes, so they are taken as parameters. *)

(** An estimator with fitted state [S]: [fit(X)] and [transform(X)], each of
    which may raise.  [transform] returns a newly allocated array. *)
Record estimator (S : Type) : Type := Estimator {
  fit : matrix -> result S;
  transform : S -> matrix -> result matrix
}.
Arguments Estimator {S} fit transform.
Arguments fit {S} e X.
Arguments transform {S} e s X.

(** A transformer object: an estimator and what [fit] has stored in it so far
    ([None]: [check_is_fitted] raises [NotFittedError]). *)
Record transformer (S : Type) : Type := Transformer {
  est : estimator S;
  fitted_ : option S
}.
Arguments Transformer {S} est fitted_.
Arguments est {S} t.
Arguments fitted_ {S} t.

(** A freshly constructed transformer. *)
Definition new {S} (e : estimator S) : transformer S := Transformer e None.

(** [transformer.fit(X)]: stores the fitted state in the object. *)
Definition fit_on {S} (t : transformer S) (X : matrix) : result (transformer S) :=
  let? s := fit (est t) X in Ok (Transformer (est t) (Some s)).

Record Preprocessing : Type := {
  averager_state : Type;
  FeatureAverager : estimator averager_state;
  psc_state : Type;
  PSCScaler : estimator psc_state;
  detrender_state : Type;
  Detrender : Z -> estimator detrender_state;
  trial_state : Type;
  TrialAveragingTransformer : Z -> bool -> estimator trial_state;
  ci_low_ : trial_state -> matrix;
  ci_high_ : trial_state -> matrix;
  grid_state : Type;
  PeriodicGridTransformer : option Q -> Q -> Q -> Q -> estimator grid_state;
  target_grid_ : grid_state -> list Q;
  fft_state : Type;
  FFTTransformer : Q -> estimator fft_state;
  freqs_ : fft_state -> list Q;
  (* scikit-learn's ColumnTransformer over (name, transformer, columns) *)
  column_state : Type;
  ColumnTransformer :
    list (string * estimator averager_state * list nat) -> estimator column_state
}.

(** ** The Oscillation object *)

(** The array object [self.tdata] is bound to: [self.data] itself (after
    construction and [reset]) or an array of its own. *)
Inductive array_ref : Type :=
| DataArray
| Owned (m : matrix).

Record Oscillation : Type := mkOscillation {
  tr : Q;
  period : option Q;
  data : matrix;
  stimulus_offset : Q;
  labels : option (list string);
  discard_transients : bool;
  tdata : array_ref;
  transformation_chain : list string;
  sampling_rate : Q;
  grid : list Q;
  offset : Q;
  n_trials : Z;
  emin : option matrix;
  emax : option matrix;
  ids : list string
}.

(** The contents of [self.tdata]. *)
Definition tdata_of (o : Oscillation) : matrix :=
  match tdata o with
  | DataArray => data o
  | Owned m => m
  end.

Definition set_data (v : matrix) (o : Oscillation) : Oscillation :=
  mkOscillation (tr o) (period o) v (stimulus_offset o) (labels o)
    (discard_transients o) (tdata o) (transformation_chain o) (sampling_rate o)
    (grid o) (offset o) (n_trials o) (emin o) (emax o) (ids o).
Definition set_labels (v : option (list string)) (o : Oscillation) : Oscillation :=
  mkOscillation (tr o) (period o) (data o) (stimulus_offset o) v
    (discard_transients o) (tdata o) (transformation_chain o) (sampling_rate o)
    (grid o) (offset o) (n_trials o) (emin o) (emax o) (ids o).
Definition set_tdata (v : array_ref) (o : Oscillation) : Oscillation :=
  mkOscillation (tr o) (period o) (data o) (stimulus_offset o) (labels o)
    (discard_transients o) v (transformation_chain o) (sampling_rate o)
    (grid o) (offset o) (n_trials o) (emin o) (emax o) (ids o).
Definition set_transformation_chain (v : list string) (o : Oscillation) : Oscillation :=
  mkOscillation (tr o) (period o) (data o) (stimulus_offset o) (labels o)
    (discard_transients o) (tdata o) v (sampling_rate o)
    (grid o) (offset o) (n_trials o) (emin o) (emax o) (ids o).
Definition set_sampling_rate (v : Q) (o : Oscillation) : Oscillation :=
  mkOscillation (tr o) (period o) (data o) (stimulus_offset o) (labels o)
    (discard_transients o) (tdata o) (transformation_chain o) v
    (grid o) (offset o) (n_trials o) (emin o) (emax o) (ids o).
Definition set_grid (v : list Q) (o : Oscillation) : Oscillation :=
  mkOscillation (tr o) (period o) (data o) (stimulus_offset o) (labels o)
    (discard_transients o) (tdata o) (transformation_chain o) (sampling_rate o)
    v (offset o) (n_trials o) (emin o) (emax o) (ids o).
Definition set_emin_emax (lo hi : option matrix) (o : Oscillation) : Oscillation :=
  mkOscillation (tr o) (period o) (data o) (stimulus_offset o) (labels o)
    (discard_transients o) (tdata o) (transformation_chain o) (sampling_rate o)
    (grid o) (offset o) (n_trials o) lo hi (ids o).
Definition set_ids (v : list string) (o : Oscillation) : Oscillation :=
  mkOscillation (tr o) (period o) (data o) (stimulus_offset o) (labels o)
    (discard_transients o) (tdata o) (transformation_chain o) (sampling_rate o)
    (grid o) (offset o) (n_trials o) (emin o) (emax o) v.

(** A method body: it may mutate [self] and then return or raise; what it
    mutated before raising stays mutated. *)
Definition M (A : Type) : Type := Oscillation -> result A * Oscillation.

Definition ret {A} (a : A) : M A := fun o => (Ok a, o).
Definition bind {A B} (c : M A) (k : A -> M B) : M B :=
  fun o => match c o with
           | (Ok a, o') => k a o'
           | (Raise e, o') => (Raise e, o')
           end.
Definition self : M Oscillation := fun o => (Ok o, o).
Definition assign (f : Oscillation -> Oscillation) : M unit := fun o => (Ok tt, f o).
Definition lift {A} (r : result A) : M A := fun o => (r, o).

Notation "x <- c ;; k" := (bind c (fun x => k))
  (at level 61, c at next level, right associativity).
Notation "c ;; k" := (bind c (fun _ => k))
  (at level 61, right associativity).

(** [id in self.transformation_chain]. *)
Definition in_chain (id : string) (o : Oscillation) : bool :=
  existsb (String.eqb id) (transformation_chain o).

(** [self.tdata += v]: in place, on whichever array [self.tdata] is bound to. *)
Definition iadd_tdata (v : list Q) (o : Oscillation) : Oscillation :=
  match tdata o with
  | DataArray => set_data (add_rowwise (data o) v) o
  | Owned m => set_tdata (Owned (add_rowwise m v)) o
  end.

(** [Oscillation._transform(transformer, id)]; returns the fitted state, which
    Python leaves in the transformer object. *)
Definition _transform {S} (t : transformer S) (id : string) : M S :=
  o <- self ;;
  s <- match fitted_ t with
       | Some s => ret s
       | None => lift (fit (est t) (tdata_of o))
       end ;;
  X <- lift (transform (est t) s (tdata_of o)) ;;
  assign (set_tdata (Owned X)) ;;
  assign (fun o => set_transformation_chain (transformation_chain o ++ [id]) o) ;;
  ret s.

(** [try: body except (ZeroDivisionError, OverflowError): handler]. *)
Definition numeric_error (e : exn) : bool :=
  match e with
  | ZeroDivisionError | OverflowError => true
  | _ => false
  end.

Definition try_except {A} (body : result A) (caught : exn -> bool) (handler : result A)
  : result A :=
  match body with
  | Ok a => Ok a
  | Raise e => if caught e then handler else Raise e
  end.

(** [np.where(np.array(labels) == id)[0]]. *)
Definition where_eq (ls : list string) (id : string) : list nat :=
  map fst (filter (fun p => String.eqb (snd p) id) (combine (seq 0 (length ls)) ls)).

Section Methods.
Variable P : Preprocessing.

(** [__post_init__], after the dataclass fields are stored. *)
Definition post_init (fuel : nat) (tr : Q) (period : option Q) (data : matrix)
    (stimulus_offset : Q) (labels : option (list string)) (discard_transients : bool)
  : outcome Oscillation :=
  let sampling_rate := tr in
  match get_offset fuel stimulus_offset period discard_transients with
  | Returns offset =>
      match get_ntrials offset period tr (Z.of_nat (shape0 data)) with
      | Ok n_trials =>
          Returns (mkOscillation tr period data stimulus_offset labels
                     discard_transients DataArray [] sampling_rate
                     (arange_times (shape0 data) sampling_rate)
                     offset n_trials None None [EmptyString])
      | Raise e => Raises e
      end
  | Raises e => Raises e
  | OutOfFuel => OutOfFuel
  end.

Definition reset : M unit :=
  assign (set_tdata DataArray) ;;
  assign (set_transformation_chain []) ;;
  assign (fun o => set_sampling_rate (tr o) o) ;;
  assign (fun o => set_grid (arange_times (shape0 (data o)) (sampling_rate o)) o) ;;
  assign (set_emin_emax None None).

Definition clear_labels : M unit := assign (set_labels None).

(** [average()]; a Python [set] has no specified order, [nodup] fixes one. *)
Definition average : M unit :=
  o <- self ;;
  match labels o with
  | None =>
      let transformer := new (FeatureAverager P) in
      assign (set_ids [EmptyString]) ;;
      _transform transformer "Label Average" ;;
      ret tt
  | Some ls =>
      let label_ids := nodup string_dec ls in
      let transforms :=
        map (fun id => (id, FeatureAverager P, where_eq ls id)) label_ids in
      let transformer := new (ColumnTransformer P transforms) in
      assign (set_ids label_ids) ;;
      _transform transformer "Label Average" ;;
      ret tt
  end.

(** [begin_vol = int(baseline_begin / self.sampling_rate)]. *)
Definition psc_begin_vol (baseline_begin : pyfloat) (o : Oscillation) : result Z :=
  let? b := float_div baseline_begin (sampling_rate o) in
  to_int b.

(** The [try ... except] that computes [end_vol]. *)
Definition psc_end_vol (baseline_end : pyfloat) (o : Oscillation) : result Z :=
  try_except
    (let? e := float_div baseline_end (sampling_rate o) in
     let? end_vol := to_int e in
     Ok (Z.min end_vol (Z.of_nat (shape0 (tdata_of o)))))
    numeric_error
    (Ok (Z.of_nat (shape0 (tdata_of o)))).

(** [self.tdata[begin_vol: end_vol, :]], the array [psc] fits the scaler on. *)
Definition psc_baseline (baseline_begin baseline_end : pyfloat) (o : Oscillation)
  : result matrix :=
  let? begin_vol := psc_begin_vol baseline_begin o in
  let? end_vol := psc_end_vol baseline_end o in
  Ok (slice begin_vol end_vol (tdata_of o)).

Definition psc (baseline_begin baseline_end : pyfloat) : M unit :=
  o <- self ;;
  if in_chain "PSC" o then ret tt
  else
    let transformer := new (PSCScaler P) in
    baseline <- lift (psc_baseline baseline_begin baseline_end o) ;;
    transformer <- lift (fit_on transformer baseline) ;;
    _transform transformer "PSC" ;;
    ret tt.

Definition detrend (order : Z) (keep_mean : bool) : M unit :=
  o <- self ;;
  if in_chain "Detrend" o then ret tt
  else
    let transformer := new (Detrender P order) in
    let mean := mean0 (tdata_of o) in
    _transform transformer "Detrend" ;;
    if keep_mean then assign (iadd_tdata mean) else ret tt.

(** [self.sampling_rate = self.grid[1] - self.grid[0]], a subtraction of
    doubles. *)
Definition update_sampling_rate : M unit :=
  o <- self ;;
  g1 <- lift (getitem (grid o) 1) ;;
  g0 <- lift (getitem (grid o) 0) ;;
  assign (set_sampling_rate (round64 (g1 - g0))).

Definition trial_average (bootstrap : bool) : M unit :=
  o <- self ;;
  let transformer := new (TrialAveragingTransformer P (n_trials o) bootstrap) in
  s <- _transform transformer "Trial Average" ;;
  (if bootstrap
   then assign (set_emin_emax (Some (ci_low_ P s)) (Some (ci_high_ P s)))
   else ret tt) ;;
  assign (fun o => set_grid (slice_to (Z.of_nat (shape0 (tdata_of o))) (grid o)) o) ;;
  update_sampling_rate.

Definition interp (target_sampling_out : Q) : M unit :=
  o <- self ;;
  let transformer :=
    new (PeriodicGridTransformer P (period o) (tr o) target_sampling_out (offset o)) in
  s <- _transform transformer "Crop and Interpolate" ;;
  assign (fun o => set_grid (map (fun x => round64 (x - offset o)) (target_grid_ P s)) o) ;;
  update_sampling_rate.

Definition fft : M unit :=
  o <- self ;;
  let transformer := new (FFTTransformer P (sampling_rate o)) in
  s <- _transform transformer "FFT" ;;
  assign (set_grid (freqs_ P s)) ;;
  update_sampling_rate.

(** [preprocess()]. *)
Definition preprocess : M ndarray :=
  reset ;;
  interp (1 # 10) ;;
  psc (Fin 0) PInf ;;
  average ;;
  trial_average true ;;
  o <- self ;;
  ret (squeeze (tdata_of o)).

(** The public operations, as calls. *)
Inductive call : Type :=
| Reset
| ClearLabels
| Average
| Psc (baseline_begin baseline_end : pyfloat)
| Detrend (order : Z) (keep_mean : bool)
| TrialAverage (bootstrap : bool)
| Interp (target_sampling_out : Q)
| Fft
| Preprocess.

Definition perform (c : call) : M unit :=
  match c with
  | Reset => reset
  | ClearLabels => clear_labels
  | Average => average
  | Psc b e => psc b e
  | Detrend order keep_mean => detrend order keep_mean
  | TrialAverage bootstrap => trial_average bootstrap
  | Interp t => interp t
  | Fft => fft
  | Preprocess => preprocess ;; ret tt
  end.

(** The object after one call, whether it returned or raised. *)
Definition after (c : call) (o : Oscillation) : Oscillation := snd (perform c o).

(** The object after a sequence of calls, each made whatever the one before
    did (a caller may catch an exception and go on). *)
Definition after_all (cs : list call) (o : Oscillation) : Oscillation :=
  fold_left (fun o c => after c o) cs o.

(** The objects seen after each call of a sequence. *)
Fixpoint history (cs : list call) (o : Oscillation) : list Oscillation :=
  match cs with
  | [] => []
  | c :: cs' => after c o :: history cs' (after c o)
  end.
End Methods.

(** ** Delay estimation

    First with exact rational arithmetic, for the statements about shapes
    and ranges of shifts; which shift wins depends on rounding and on NaN,
    and is stated on the numbers of [Module NumPy] below. *)

Definition mean (l : list Q) : Q := Qsum l / inject_Z (Z.of_nat (length l)).

(** [m.T]. *)
Definition transpose (m : matrix) : matrix := map (fun j => column j m) (seq 0 (shape1 m)).

(** [np.dot] of two vectors; a [ValueError] when the shapes differ. *)
Definition dot (a b : list Q) : result Q :=
  if Nat.eqb (length a) (length b)
  then Ok (Qsum (map (fun p => fst p * snd p) (combine a b)))
  else Raise ValueError.

(** [np.roll(b, k)]: entry [i] moves to [(i + k) mod n]. *)
Definition roll (b : list Q) (k : Z) : list Q :=
  map (fun i => nth (Z.to_nat ((Z.of_nat i - k) mod Z.of_nat (length b))) b 0)
      (seq 0 (length b)).

(** [np.argmax] of a vector: the first index of the maximum. *)
Fixpoint argmax_from (best_i : nat) (best : Q) (i : nat) (l : list Q) : nat :=
  match l with
  | [] => best_i
  | x :: l' =>
      if Qlt_bool best x
      then argmax_from i x (S i) l'
      else argmax_from best_i best (S i) l'
  end.

Definition argmax (l : list Q) : result nat :=
  match l with
  | [] => Raise ValueError
  | x :: l' => Ok (argmax_from 0 x 1 l')
  end.

(** Results of a list comprehension whose body may raise. *)
Fixpoint collect {A} (l : list (result A)) : result (list A) :=
  match l with
  | [] => Ok []
  | r :: l' => let? x := r in let? xs := collect l' in Ok (x :: xs)
  end.

(** [np.argmax(corrs, 0)]: per column. *)
Definition argmax0 (corrs : matrix) : result (list nat) :=
  match corrs with
  | [] => Raise ValueError
  | _ => collect (map (fun j => argmax (column j corrs)) (seq 0 (shape1 corrs)))
  end.

Section Delay.
(** [np.sqrt]. *)
Variable sqrt : Q -> Q.

(** scikit-learn's [StandardScaler] on one column: zero mean, unit
    population variance, a zero scale replaced by one. *)
Definition standardize (c : list Q) : list Q :=
  let mu := mean c in
  let var := mean (map (fun x => (x - mu) * (x - mu)) c) in
  let s := sqrt var in
  let s := if Qeq_bool s 0 then 1 else s in
  map (fun x => (x - mu) / s) c.

(** [StandardScaler().fit_transform(arr)]; it refuses an array with no
    sample or no feature. *)
Definition StandardScaler_fit_transform (arr : matrix) : result matrix :=
  match shape0 arr, shape1 arr with
  | O, _ | _, O => Raise ValueError
  | _, _ => Ok (transpose (map standardize (transpose arr)))
  end.

(** [scale(x)]. *)
Definition scale (x : list Q) : result (list Q) :=
  match x with
  | [] => Raise ValueError
  | _ => Ok (standardize x)
  end.

(** [correlate(a, b)] for a 2-D [a] and a 1-D [b]: one coefficient per row
    of [a] (for a single row NumPy squeezes the result to a scalar). *)
Definition correlate (a : matrix) (b : list Q) : result (list Q) :=
  let a_centered := map (fun r => map (fun x => x - mean r) r) a in
  let b_centered := map (fun x => x - mean b) b in
  let a_sos := map (fun r => Qsum (map (fun x => x * x) r)) a_centered in
  let b_sos := Qsum (map (fun x => x * x) b_centered) in
  let norm_factors := map (fun s => sqrt (s * b_sos)) a_sos in
  let? dots := collect (map (fun r => dot r b_centered) a_centered) in
  Ok (map (fun p => fst p / snd p) (combine dots norm_factors)).

(** [a_scaled * (a_scaled > 0)]. *)
Definition rectify (m : matrix) : matrix :=
  map (map (fun x => x * (if Qlt_bool 0 x then 1 else 0))) m.

Definition find_delay (arr : matrix) (reference : list Q) (maxshift : Z) (tr : Q)
    (scaleref rect_data : bool) : result (list Q) :=
  let? a_scaled := StandardScaler_fit_transform arr in
  let a_scaled := if rect_data then rectify a_scaled else a_scaled in
  let? b_scaled := if negb scaleref then Ok reference else scale reference in
  let? corrs :=
    collect (map (fun x => correlate (transpose a_scaled) (roll b_scaled (- x)))
                 (range2 (- maxshift) maxshift)) in
  let? best := argmax0 corrs in
  let delay := map (fun i => nth i (range2 (- maxshift) maxshift) 0%Z) best in
  Ok (map (fun d => - (inject_Z d * tr)) delay).
End Delay.

(** ** Delay estimation on NumPy's numbers

    [correlate] and [find_delay] once more, now over the arithmetic they run
    on: [np.float64] with its operations, comparisons that are false as soon
    as an operand is NaN, and the reductions [np.sum] and [np.dot], whose
    order of summation NumPy leaves to its kernels.  The scaler of
    scikit-learn is a parameter next to them. *)
Module NumPy.

Record Kernel : Type := {
  num : Type;
  zero : num;
  one : num;
  sub : num -> num -> num;
  mul : num -> num -> num;
  div : num -> num -> num;
  neg : num -> num;
  sqrt : num -> num;
  of_int : Z -> num;
  sum : list num -> num;
  dot : list num -> list num -> num;
  le : num -> num -> bool;
  lt : num -> num -> bool
}.

Section Kernel.
Variable K : Kernel.
(** [StandardScaler().fit_transform] of scikit-learn. *)
Variable StandardScaler_fit_transform : list (list (num K)) -> result (list (list (num K))).

(** [x != x]: NaN is the one value that is not [<=] itself. *)
Definition isnan (x : num K) : bool := negb (le K x x).

Definition width (m : list (list (num K))) : nat :=
  match m with
  | [] => O
  | r :: _ => length r
  end.

Definition column (j : nat) (m : list (list (num K))) : list (num K) :=
  map (fun r => nth j r (zero K)) m.

(** [m.T]. *)
Definition transpose (m : list (list (num K))) : list (list (num K)) :=
  map (fun j => column j m) (seq 0 (width m)).

(** [r.mean()]. *)
Definition mean (r : list (num K)) : num K :=
  div K (sum K r) (of_int K (Z.of_nat (length r))).

(** [r - r.mean()] and [(c ** 2).sum()]. *)
Definition centered (r : list (num K)) : list (num K) :=
  map (fun x => sub K x (mean r)) r.

Definition sum_of_squares (c : list (num K)) : num K :=
  sum K (map (fun x => mul K x x) c).

(** [correlate(a, b)] for a 2-D [a] and a 1-D [b]: one coefficient per row
    of [a] (for a single row NumPy squeezes the result to a scalar).  The
    norm factors are the product of the column [a_sos] with the one-entry
    row [b_sos]; the other [np.dot] raises when a row of [a] and [b] differ
    in length. *)
Definition correlate (a : list (list (num K))) (b : list (num K)) : result (list (num K)) :=
  let a_centered := map centered a in
  let b_centered := centered b in
  let a_sos := map sum_of_squares a_centered in
  let b_sos := sum_of_squares b_centered in
  let norm_factors := map (fun s => sqrt K (dot K [s] [b_sos])) a_sos in
  let? dots :=
    collect (map (fun r => if Nat.eqb (length r) (length b_centered)
                           then Ok (dot K r b_centered) else Raise ValueError)
                 a_centered) in
  Ok (map (fun p => div K (fst p) (snd p)) (combine dots norm_factors)).

(** [scale(x)]: the scaler on [x] as one column, flattened again. *)
Definition scale (x : list (num K)) : result (list (num K)) :=
  let? m := StandardScaler_fit_transform (map (fun v => [v]) x) in
  Ok (concat m).

(** [np.roll(b, k)]: entry [i] moves to [(i + k) mod n]. *)
Definition roll (b : list (num K)) (k : Z) : list (num K) :=
  map (fun i => nth (Z.to_nat ((Z.of_nat i - k) mod Z.of_nat (length b))) b (zero K))
      (seq 0 (length b)).

(** [np.argmax] of a vector: the scan keeps an entry until a later one is
    not [<=] it, and stops at the first NaN. *)
Fixpoint argmax_from (best_i : nat) (best : num K) (i : nat) (l : list (num K)) : nat :=
  match l with
  | [] => best_i
  | x :: l' =>
      if isnan best then best_i
      else if le K x best
           then argmax_from best_i best (S i) l'
           else argmax_from i x (S i) l'
  end.

Definition argmax (l : list (num K)) : result nat :=
  match l with
  | [] => Raise ValueError
  | x :: l' => Ok (argmax_from 0 x 1 l')
  end.

(** [np.argmax(corrs, 0)]: per column. *)
Definition argmax0 (corrs : list (list (num K))) : result (list nat) :=
  match corrs with
  | [] => Raise ValueError
  | _ => collect (map (fun j => argmax (column j corrs)) (seq 0 (width corrs)))
  end.

(** [a_scaled * (a_scaled > 0)]. *)
Definition rectify (m : list (list (num K))) : list (list (num K)) :=
  map (map (fun x => mul K x (if lt K (zero K) x then one K else zero K))) m.

Definition find_delay (arr : list (list (num K))) (reference : list (num K))
    (maxshift : Z) (tr : num K) (scaleref rect_data : bool) : result (list (num K)) :=
  let? a_scaled := StandardScaler_fit_transform arr in
  let a_scaled := if rect_data then rectify a_scaled else a_scaled in
  let? b_scaled := if negb scaleref then Ok reference else scale reference in
  let? corrs :=
    collect (map (fun x => correlate (transpose a_scaled) (roll b_scaled (- x)))
                 (range2 (- maxshift) maxshift)) in
  let? best := argmax0 corrs in
  let delay := map (fun i => nth i (range2 (- maxshift) maxshift) 0%Z) best in
  Ok (map (fun d => neg K (mul K (of_int K d) tr)) delay).

(** What the description of [find_delay] speaks of: channel [j] of a signal;
    the reference circularly shifted by [- s], which holds
    [reference[(i + s) mod n]] at place [i]; and the Pearson correlation of
    two vectors, the product of their deviations from the mean over the root
    of the product of the sums of the squared deviations. *)
Definition channel (j : nat) (signal : list (list (num K))) : list (num K) :=
  map (fun row => nth j row (zero K)) signal.

Definition shifted (b : list (num K)) (s : Z) : list (num K) :=
  map (fun i => nth (Z.to_nat ((Z.of_nat i + s) mod Z.of_nat (length b))) b (zero K))
      (seq 0 (length b)).

Definition deviations (x : list (num K)) : list (num K) :=
  let m := div K (sum K x) (of_int K (Z.of_nat (length x))) in
  map (fun v => sub K v m) x.

Definition pearson (x y : list (num K)) : num K :=
  let dx := deviations x in
  let dy := deviations y in
  div K (dot K dx dy)
        (sqrt K (mul K (sum K (map (fun v => mul K v v) dx))
                       (sum K (map (fun v => mul K v v) dy)))).

(** An array of [rows] rows and [cols] columns. *)
Definition rectangular (m : list (list (num K))) (rows cols : nat) : Prop :=
  length m = rows /\ forall r, In r m -> length r = cols.

(** What the proofs below use of the numbers: [<=] is a total preorder on
    the values that are not NaN and false on NaN, and the product of two
    one-entry vectors is the product of the entries; of the scaler: it keeps
    the shape of its argument. *)
Record lawful : Prop := {
  le_nan : forall x y, le K x y = true -> isnan x = false /\ isnan y = false;
  le_total : forall x y, isnan x = false -> isnan y = false ->
                         le K x y = true \/ le K y x = true;
  le_trans : forall x y z, le K x y = true -> le K y z = true -> le K x z = true;
  dot_single : forall x y, dot K [x] [y] = mul K x y
}.

Definition keeps_shape : Prop :=
  forall X Y rows cols,
    rectangular X rows cols -> StandardScaler_fit_transform X = Ok Y ->
    rectangular Y rows cols.
End Kernel.

(** [np.float64] itself: the operations on doubles defined above, with
    [np.sum] and [np.dot] adding in the order of the entries. *)
Definition float_sum (l : list pyfloat) : pyfloat :=
  match l with
  | [] => Fin 0
  | x :: l' => fold_left fadd l' x
  end.

Definition float_dot (a b : list pyfloat) : pyfloat :=
  float_sum (map (fun p => fmul (fst p) (snd p)) (combine a b)).

Definition float64 : Kernel :=
  {| num := pyfloat; zero := Fin 0; one := Fin 1;
     sub := fsub; mul := fmul; div := fdiv; neg := fopp; sqrt := fsqrt;
     of_int := fun z => binary64 (inject_Z z);
     sum := float_sum; dot := float_dot; le := fle; lt := flt |}.
End NumPy.

(** ** Quadrature demodulation *)

(** [np.cumsum]. *)
Fixpoint cumsum_from (acc : Q) (l : list Q) : list Q :=
  match l with
  | [] => []
  | x :: l' => (acc + x) :: cumsum_from (acc + x) l'
  end.
Definition cumsum (l : list Q) : list Q := cumsum_from 0 l.

Definition vsub (a b : list Q) : list Q := map (fun p => fst p - snd p) (combine a b).
Definition vmul (a b : list Q) : list Q := map (fun p => fst p * snd p) (combine a b).

(** [moving_average(a, n)].  The assignment [ret[n:] = ret[n:] - ret[:-n]]
    raises when the two slices differ in length ([n = 0] on a non-empty [a]). *)
Definition moving_average (a : list Q) (n : Z) : result (list Q) :=
  let ret := cumsum a in
  let hi := slice_from n ret in
  let lo := slice_to (- n) ret in
  if Nat.eqb (length hi) (length lo)
  then
    let ret := firstn (slice_index n (length ret)) ret ++ vsub hi lo in
    Ok (map (fun x => x / inject_Z n) (slice_from (n - 1) ret))
  else Raise ValueError.

Section Quadrature.
(** [np.sin], [np.cos], [np.pi], and SciPy's [butter(N, Wn, output="sos", fs)]
    and [sosfiltfilt(sos, x)]. *)
Variables sin cos : Q -> Q.
Variable pi : Q.
Variable sos : Type.
Variable butter : Z -> Q -> Q -> result sos.
Variable sosfiltfilt : sos -> list Q -> result (list Q).

(** [1 / tr]. *)
Definition reciprocal (tr : Q) : result Q :=
  if Qeq_bool tr 0 then Raise ZeroDivisionError else Ok (1 / tr).

(** The reference waveforms [s] and [c] of [make_traces]. *)
Definition reference_wave (f : Q -> Q) (n : nat) (frequency tr offset : Q) : list Q :=
  let t := map (fun x => inject_Z x * tr) (range (Z.of_nat n)) in
  map (fun t => f (2 * pi * frequency * (t - offset + tr / 2))) t.

Definition make_traces (signals : list Q) (frequency tr offset : Q) (window : Z)
  : result (list Q * list Q) :=
  let? fs := reciprocal tr in
  let? sos := butter 4 (frequency / 2) fs in
  let s := reference_wave sin (length signals) frequency tr offset in
  let c := reference_wave cos (length signals) frequency tr offset in
  let multiplier_s := vmul signals s in
  let multiplier_c := vmul signals c in
  let? filtered_s := sosfiltfilt sos multiplier_s in
  let? average_s := moving_average filtered_s window in
  let trace_s := slice window (- window) average_s in
  let? filtered_c := sosfiltfilt sos multiplier_c in
  let? average_c := moving_average filtered_c window in
  let trace_c := slice window (- window) average_c in
  Ok (trace_s, trace_c).

(** The order of steps as the specification words it: filter the signal,
    then multiply by the references, then average and trim. *)
Definition make_traces_filter_first (signals : list Q) (frequency tr offset : Q)
    (window : Z) : result (list Q * list Q) :=
  let? fs := reciprocal tr in
  let? sos := butter 4 (frequency / 2) fs in
  let s := reference_wave sin (length signals) frequency tr offset in
  let c := reference_wave cos (length signals) frequency tr offset in
  let? filtered := sosfiltfilt sos signals in
  let? average_s := moving_average (vmul filtered s) window in
  let trace_s := slice window (- window) average_s in
  let? average_c := moving_average (vmul filtered c) window in
  let trace_c := slice window (- window) average_c in
  Ok (trace_s, trace_c).
End Quadrature.
Arguments make_traces sin cos pi {sos} butter sosfiltfilt signals frequency tr offset window.
Arguments make_traces_filter_first sin cos pi {sos} butter sosfiltfilt
  signals frequency tr offset window.

(** ** Models of the absent transformers and of library routines

    Used to instantiate the theorems below at concrete inputs. *)

Module Model.

(** Stand-ins for [np.sqrt] (to six decimal places), for [np.sin] and
    [np.cos] (their Taylor polynomials of degree 7 and 6, as reduced
    fractions) and for [np.pi] (355/113). *)
Definition sqrt (q : Q) : Q :=
  Z.sqrt (Qnum q * 1000000000000 / Zpos (Qden q)) # 1000000.
Definition sin (x : Q) : Q :=
  let x := Qred x in
  Qred (x - x * x * x / 6 + x * x * x * x * x / 120 - x * x * x * x * x * x * x / 5040).
Definition cos (x : Q) : Q :=
  let x := Qred x in
  Qred (1 - x * x / 2 + x * x * x * x / 24 - x * x * x * x * x * x / 720).
Definition pi : Q := 355 # 113.

(** Modelled from the spec: [preprocessing.FeatureAverager] (absent from the
    sources), "reduces channels to one value per row by arithmetic mean". *)
Definition FeatureAverager : estimator unit :=
  Estimator (fun _ => Ok tt) (fun _ X => Ok (map (fun r => [mean r]) X)).

(** Modelled from the spec: [preprocessing.PSCScaler] (absent), "fit
    computes, per channel, the mean over a baseline window; apply transforms
    each value to 100*(x - baseline_mean)/baseline_mean". *)
Definition PSCScaler : estimator (list Q) :=
  Estimator
    (fun X => Ok (mean0 X))
    (fun mu X =>
       Ok (map (fun r => map (fun p => 100 * (fst p - snd p) / snd p) (combine r mu)) X)).

(** Modelled from the spec: [preprocessing.Detrender] (absent), "removes a
    polynomial trend of configurable order via least-squares fit,
    subtracting the fitted trend".  Only order 0, whose fitted trend is the
    channel mean, is modelled; other orders are refused. *)
Definition Detrender (order : Z) : estimator (list Q) :=
  Estimator
    (fun X => if (order =? 0)%Z then Ok (mean0 X)
              else Raise (LibraryError "order not modelled"))
    (fun mu X => Ok (map (fun r => vsub r mu) X)).

(** Modelled from the spec: [preprocessing.TrialAveragingTransformer]
    (absent), "reshapes the signal into n_trials equal-length cycles and
    reduces across cycles by the mean at each within-cycle phase", failing
    with an error for fewer than one trial.  Bootstrap resampling is random
    and not modelled: both bounds read as the point estimate. *)
Definition fold_trials (n_trials : Z) (X : matrix) : matrix :=
  let n := Z.to_nat n_trials in
  let len := (length X / n)%nat in
  map (fun k => mean0 (map (fun t => nth (t * len + k) X []) (seq 0 n))) (seq 0 len).

Definition TrialAveragingTransformer (n_trials : Z) (bootstrap : bool)
  : estimator matrix :=
  Estimator
    (fun X => if (n_trials <? 1)%Z then Raise (LibraryError "insufficient trials")
              else Ok (fold_trials n_trials X))
    (fun _ X => if (n_trials <? 1)%Z then Raise (LibraryError "insufficient trials")
                else Ok (fold_trials n_trials X)).

(** Linear interpolation of the rows [ys] given at [xs], read at [x]. *)
Fixpoint interpolate (xs : list Q) (ys : matrix) (x : Q) : list Q :=
  match xs, ys with
  | x0 :: ((x1 :: _) as xs'), y0 :: ((y1 :: _) as ys') =>
      if Qle_bool x x1
      then map (fun p => fst p + (snd p - fst p) * (x - x0) / (x1 - x0)) (combine y0 y1)
      else interpolate xs' ys' x
  | _, y0 :: _ => y0
  | _, [] => []
  end.

(** Modelled from the spec: [preprocessing.PeriodicGridTransformer]
    (absent), "constructs a new grid spanning from offset to the largest
    multiple of period not exceeding the recording duration, sampled at the
    target interval; interpolates the input signal onto this grid".  The
    fitted state is the source grid and the target grid. *)
Definition PeriodicGridTransformer (period : option Q)
    (sampling_in target_sampling_out start_offset : Q)
  : estimator (list Q * list Q) :=
  Estimator
    (fun X =>
       let source_grid_ := arange_times (length X) sampling_in in
       let? trials := get_ntrials start_offset period sampling_in (Z.of_nat (length X)) in
       match period with
       | Some p =>
           if Qle_bool target_sampling_out 0 then Raise ValueError
           else
             let n := Z.to_nat (Qceiling (inject_Z trials * p / target_sampling_out)) in
             Ok (source_grid_,
                 map (fun i => start_offset + inject_Z (Z.of_nat i) * target_sampling_out)
                     (seq 0 n))
       | None => Raise TypeError
       end)
    (fun s X => Ok (map (interpolate (fst s) X) (snd s))).

(** The amplitude of the discrete Fourier transform of [x] at bin [k], with
    the angle [2 pi k n / N] brought into [(-pi, pi]] before the stand-ins
    for [np.cos] and [np.sin] are applied. *)
Definition dft_amplitude (x : list Q) (k : nat) : Q :=
  let N := Z.of_nat (length x) in
  let turn n :=
    let r := ((Z.of_nat k * Z.of_nat n) mod N)%Z in
    if (N <? 2 * r)%Z then (r - N)%Z else r in
  let angle n := 2 * pi * inject_Z (turn n) / inject_Z N in
  let terms := combine (seq 0 (length x)) x in
  let re := Qsum (map (fun p => snd p * cos (angle (fst p))) terms) in
  let im := Qsum (map (fun p => snd p * sin (angle (fst p))) terms) in
  sqrt (re * re + im * im).

(** Modelled from the spec: [preprocessing.FFTTransformer] (absent),
    "computes a real-valued frequency decomposition of the current
    grid-resampled/folded signal; the output grid becomes frequency bins (Hz)
    spaced at 1/(N*sampling_rate); row count at minimum halves (only
    non-negative frequencies retained)".  The fitted state is the frequency
    grid; row [k] of the output holds the amplitude of each channel at bin
    [k]. *)
Definition FFTTransformer (sampling_rate : Q) : estimator (list Q) :=
  Estimator
    (fun X =>
       if Qeq_bool sampling_rate 0 || Nat.eqb (length X) 0 then Raise ValueError
       else Ok (map (fun k => inject_Z (Z.of_nat k)
                              / (inject_Z (Z.of_nat (length X)) * sampling_rate))
                    (seq 0 (length X / 2 + 1))))
    (fun freqs X =>
       Ok (map (fun k => map (fun j => dft_amplitude (column j X) k) (seq 0 (shape1 X)))
               (seq 0 (length X / 2 + 1)))).

(** scikit-learn's [ColumnTransformer]: each transformer is fitted on and
    applied to its columns, the outputs are stacked side by side. *)
Definition select_columns (cols : list nat) (X : matrix) : matrix :=
  map (fun r => map (fun j => nth j r 0) cols) X.

Definition ColumnTransformer (ts : list (string * estimator unit * list nat))
  : estimator unit :=
  Estimator
    (fun _ => Ok tt)
    (fun _ X =>
       let? outs :=
         collect (map (fun t => let sub := select_columns (snd t) X in
                                let? s := fit (snd (fst t)) sub in
                                transform (snd (fst t)) s sub) ts) in
       Ok (map (fun i => concat (map (fun o => nth i o []) outs)) (seq 0 (length X)))).

Definition preprocessing : Preprocessing :=
  Build_Preprocessing
    unit FeatureAverager
    (list Q) PSCScaler
    (list Q) Detrender
    matrix TrialAveragingTransformer (fun s => s) (fun s => s)
    (list Q * list Q)%type PeriodicGridTransformer snd
    (list Q) FFTTransformer (fun s => s)
    unit ColumnTransformer.

(** A zero-phase low-pass filter standing in for SciPy's Butterworth
    [sosfiltfilt]: the symmetric kernel (1/4, 1/2, 1/4), the signal extended
    at both ends by its boundary value.  Its "sos" is the cutoff.  Like
    SciPy's with the two sections of an order-4 filter (a padding of 15
    samples), it refuses a signal of 15 samples or fewer. *)
Definition butter (order : Z) (Wn fs : Q) : result Q :=
  if Qlt_bool 0 Wn && Qlt_bool Wn (fs / 2) then Ok Wn else Raise ValueError.

Fixpoint smooth (prev : Q) (l : list Q) : list Q :=
  match l with
  | [] => []
  | x :: l' =>
      let next := match l' with [] => x | y :: _ => y end in
      Qred (prev / 4 + x / 2 + next / 4) :: smooth x l'
  end.

Definition sosfiltfilt (sos : Q) (x : list Q) : result (list Q) :=
  if (length x <=? 15)%nat then Raise ValueError else Ok (smooth (hd 0 x) x).

(** A small recording: four samples of two channels at [tr = 1], period 2,
    no transients discarded; the object [Oscillation(1, 2, data, 0,
    discard_transients=False)] after construction. *)
Definition sample_data : matrix := [[1; 2]; [3; 4]; [5; 6]; [7; 8]].

Definition sample : Oscillation :=
  mkOscillation 1 (Some 2) sample_data 0 None false DataArray [] 1
                (arange_times 4 1) 0 1 None None [EmptyString].

(** A reference trace and two channels: the reference itself and the
    reference one sample late. *)
Definition reference : list Q := [1; 3; 2; 0].
Definition two_channels : matrix := [[1; 0]; [3; 1]; [2; 3]; [0; 2]].

(** A signal of sixteen samples demodulated at a frequency for which
    [2 * pi * frequency] is 1/10, and its products with a reference wave
    after the stand-in filter. *)
Definition signal : list Q := [1; 0; 1; 0; 1; 0; 1; 0; 1; 0; 1; 0; 1; 0; 1; 0].
Definition frequency : Q := 113 # 7100.
Definition filtered (wave : Q -> Q) : list Q :=
  let product := vmul signal (reference_wave pi wave (length signal) frequency 1 0) in
  smooth (hd 0 product) product.

(** A stand-in for scikit-learn's scaler on doubles: every column less its
    mean, over its population standard deviation, a zero deviation replaced
    by one; an array with no sample or no feature is refused. *)
Definition float64_standardize (c : list pyfloat) : list pyfloat :=
  let mu := NumPy.mean NumPy.float64 c in
  let deviations := map (fun x => fsub x mu) c in
  let var := NumPy.mean NumPy.float64 (map (fun x => fmul x x) deviations) in
  let s := fsqrt var in
  let s := if (fle s (Fin 0) && fle (Fin 0) s)%bool then Fin 1 else s in
  map (fun x => fdiv x s) deviations.

Definition float64_scaler (X : list (list pyfloat)) : result (list (list pyfloat)) :=
  match length X, NumPy.width NumPy.float64 X with
  | O, _ | _, O => Raise ValueError
  | _, _ =>
      Ok (NumPy.transpose NumPy.float64
            (map float64_standardize (NumPy.transpose NumPy.float64 X)))
  end.

(** Six samples of three channels: a trace, the same trace one sample late,
    and a constant channel; the reference is the trace. *)
Definition reference_trace : list pyfloat :=
  map binary64 [1 # 10; 7 # 10; 3 # 10; 2 # 10; 9 # 10; 4 # 10].

Definition three_channels : list (list pyfloat) :=
  map (map binary64)
      [[1 # 10; 4 # 10; 5]; [7 # 10; 1 # 10; 5]; [3 # 10; 7 # 10; 5];
       [2 # 10; 3 # 10; 5]; [9 # 10; 2 # 10; 5]; [4 # 10; 9 # 10; 5]].

Definition scaled_channels : list (list pyfloat) :=
  match float64_scaler three_channels with
  | Ok A => A
  | Raise _ => []
  end.

Definition scaled_reference_trace : list pyfloat :=
  match NumPy.scale NumPy.float64 float64_scaler reference_trace with
  | Ok b => b
  | Raise _ => []
  end.
End Model.

(** * Properties *)

(** ** Doubles *)

Lemma pow2_pos (e : Z) : 0 < 2 ^ e.
Proof. apply Qpower_0_lt. reflexivity. Qed.

Lemma pow2_add (a b : Z) : 2 ^ (a + b) == 2 ^ a * 2 ^ b.
Proof. apply Qpower_plus. discriminate. Qed.

Lemma pow2_le (a b : Z) : (a <= b)%Z -> 2 ^ a <= 2 ^ b.
Proof. intros H. apply Qpower_le_compat_l; [exact H | discriminate]. Qed.

Lemma pow2_lt (a b : Z) : (a < b)%Z -> 2 ^ a < 2 ^ b.
Proof. intros H. apply Qpower_lt_compat_l; [exact H | reflexivity]. Qed.

Lemma pow2_lt_inv (a b : Z) : 2 ^ a < 2 ^ b -> (a < b)%Z.
Proof. intros H. apply (Qpower_lt_compat_l_inv 2); [exact H | reflexivity]. Qed.

Lemma pow2_nonneg_exp (a : Z) : (0 <= a)%Z -> 2 ^ a == inject_Z (2 ^ a).
Proof. intros H. symmetry. apply (Zpower_Qpower 2 a H). Qed.

Lemma pow2_sub (a b : Z) : 2 ^ (a - b) == 2 ^ a / 2 ^ b.
Proof. apply Qpower_minus. discriminate. Qed.

Lemma ilog2_spec (x : Q) : 0 < x -> 2 ^ ilog2 x <= x /\ x < 2 ^ (ilog2 x + 1).
Proof.
  intros Hx. unfold ilog2.
  destruct x as [n d]. simpl Qnum. simpl Qden.
  assert (Hn : (0 < n)%Z) by (unfold Qlt in Hx; simpl in Hx; lia).
  pose proof (Z.log2_spec n Hn) as [Ha1 Ha2].
  pose proof (Z.log2_spec (Zpos d) ltac:(lia)) as [Hb1 Hb2].
  pose proof (Z.log2_nonneg n) as Ha0.
  pose proof (Z.log2_nonneg (Zpos d)) as Hb0.
  set (a := Z.log2 n) in *. set (b := Z.log2 (Zpos d)) in *.
  assert (Ex : n # d == inject_Z n / inject_Z (Zpos d)) by apply Qmake_Qdiv.
  assert (Hd : 0 < inject_Z (Zpos d)) by reflexivity.
  assert (Qa1 : 2 ^ a <= inject_Z n).
  { rewrite pow2_nonneg_exp by exact Ha0. rewrite <- Zle_Qle. exact Ha1. }
  assert (Qa2 : inject_Z n < 2 ^ (a + 1)).
  { rewrite pow2_nonneg_exp by lia. rewrite <- Zlt_Qlt. unfold Z.succ in Ha2. exact Ha2. }
  assert (Qb1 : 2 ^ b <= inject_Z (Zpos d)).
  { rewrite pow2_nonneg_exp by exact Hb0. rewrite <- Zle_Qle. exact Hb1. }
  assert (Qb2 : inject_Z (Zpos d) < 2 ^ (b + 1)).
  { rewrite pow2_nonneg_exp by lia. rewrite <- Zlt_Qlt. unfold Z.succ in Hb2. exact Hb2. }
  pose proof (pow2_pos a) as Pa. pose proof (pow2_pos b) as Pb.
  pose proof (pow2_pos (a - b)) as Pk.
  assert (Hup : n # d < 2 ^ (a - b + 1)).
  { rewrite Ex. apply Qlt_shift_div_r; [exact Hd |].
    replace (a - b + 1)%Z with ((a + 1) - b)%Z by lia.
    rewrite pow2_sub.
    apply Qlt_le_trans with (2 ^ (a + 1)); [exact Qa2 |].
    setoid_replace (2 ^ (a + 1)) with (2 ^ (a + 1) / 2 ^ b * 2 ^ b) at 1
      by (field; lra).
    apply Qmult_le_l.
    - apply Qlt_shift_div_l; [exact Pb |]. pose proof (pow2_pos (a + 1)). lra.
    - exact Qb1. }
  assert (Hlo : 2 ^ (a - b - 1) <= n # d).
  { rewrite Ex. apply Qle_shift_div_l; [exact Hd |].
    replace (a - b - 1)%Z with (a - (b + 1))%Z by lia.
    rewrite pow2_sub.
    apply Qle_trans with (2 ^ a); [| exact Qa1].
    pose proof (pow2_pos (b + 1)) as Pb1.
    setoid_replace (2 ^ a) with (2 ^ a / 2 ^ (b + 1) * 2 ^ (b + 1)) at 2
      by (field; lra).
    apply Qmult_le_l.
    - apply Qlt_shift_div_l; [exact Pb1 | lra].
    - lra. }
  destruct (Qle_bool (2 ^ (a - b)) (n # d)) eqn:E.
  - apply Qle_bool_iff in E. split; [exact E | exact Hup].
  - split; [exact Hlo |].
    replace (a - b - 1 + 1)%Z with (a - b)%Z by lia.
    destruct (Qlt_le_dec (n # d) (2 ^ (a - b))) as [H | H]; [exact H |].
    apply Qle_bool_iff in H. congruence.
Qed.

Lemma ilog2_unique (x : Q) (k : Z) : 2 ^ k <= x -> x < 2 ^ (k + 1) -> ilog2 x = k.
Proof.
  intros H1 H2.
  assert (Hx : 0 < x) by (pose proof (pow2_pos k); lra).
  destruct (ilog2_spec x Hx) as [H3 H4].
  assert (A : (k < ilog2 x + 1)%Z) by (apply pow2_lt_inv; lra).
  assert (B : (ilog2 x < k + 1)%Z) by (apply pow2_lt_inv; lra).
  lia.
Qed.

Lemma ilog2_le (x y : Q) : 0 < x -> x <= y -> (ilog2 x <= ilog2 y)%Z.
Proof.
  intros Hx Hxy.
  destruct (ilog2_spec x Hx) as [H1 _].
  destruct (ilog2_spec y ltac:(lra)) as [_ H2].
  assert (A : (ilog2 x < ilog2 y + 1)%Z) by (apply pow2_lt_inv; lra).
  lia.
Qed.

Lemma ilog2_comp (x y : Q) : 0 < x -> x == y -> ilog2 x = ilog2 y.
Proof.
  intros Hx E. destruct (ilog2_spec x Hx) as [H1 H2].
  symmetry. apply ilog2_unique; rewrite <- E; assumption.
Qed.

Lemma rne_comp (x y : Q) : x == y -> rne x = rne y.
Proof.
  intros E. unfold rne.
  assert (F : Qfloor x = Qfloor y) by (now rewrite E).
  rewrite F.
  assert (C : Qcompare (x - inject_Z (Qfloor y)) (1 # 2)
              = Qcompare (y - inject_Z (Qfloor y)) (1 # 2)) by (now rewrite E).
  now rewrite C.
Qed.

Lemma rne_Z (n : Z) : rne (inject_Z n) = n.
Proof.
  unfold rne. rewrite Qfloor_Z.
  assert (C : Qcompare (inject_Z n - inject_Z n) (1 # 2) = Lt).
  { apply Qlt_alt. setoid_replace (inject_Z n - inject_Z n) with 0 by ring. reflexivity. }
  now rewrite C.
Qed.

(** [rne x] is the floor of [x] or the integer after it, and lies within one
    half of [x]. *)
Lemma rne_cases (x : Q) :
  (rne x = Qfloor x /\ x - inject_Z (Qfloor x) <= 1 # 2) \/
  (rne x = (Qfloor x + 1)%Z /\ 1 # 2 <= x - inject_Z (Qfloor x)).
Proof.
  unfold rne.
  destruct (Qcompare (x - inject_Z (Qfloor x)) (1 # 2)) eqn:C.
  - apply Qeq_alt in C. destruct (Z.even (Qfloor x)); [left | right]; split; auto; lra.
  - apply Qlt_alt in C. left. split; [reflexivity | lra].
  - apply Qgt_alt in C. right. split; [reflexivity | lra].
Qed.

Lemma rne_near (x : Q) :
  inject_Z (rne x) - (1 # 2) <= x /\ x <= inject_Z (rne x) + (1 # 2).
Proof.
  pose proof (Qfloor_le x) as H1. pose proof (Qlt_floor x) as H2.
  rewrite inject_Z_plus in H2. change (inject_Z 1) with 1 in H2.
  destruct (rne_cases x) as [[-> H] | [-> H]].
  - lra.
  - rewrite inject_Z_plus. change (inject_Z 1) with 1. lra.
Qed.

Lemma rne_le (x y : Q) : x <= y -> (rne x <= rne y)%Z.
Proof.
  intros Hxy.
  pose proof (Qfloor_resp_le x y Hxy) as Hf.
  destruct (Z.eq_dec (Qfloor x) (Qfloor y)) as [E | NE].
  - unfold rne. rewrite E.
    destruct (Qcompare_spec (x - inject_Z (Qfloor y)) (1 # 2)) as [Cx | Cx | Cx];
      destruct (Qcompare_spec (y - inject_Z (Qfloor y)) (1 # 2)) as [Cy | Cy | Cy];
      try (destruct (Z.even (Qfloor y))); try lia; exfalso; lra.
  - destruct (rne_cases x) as [[-> _] | [-> _]];
      destruct (rne_cases y) as [[-> _] | [-> _]]; lia.
Qed.

Lemma rne_nonneg (x : Q) : 0 <= x -> (0 <= rne x)%Z.
Proof. intros H. rewrite <- (rne_Z 0). apply rne_le. exact H. Qed.

(** The scaled value of [x > 0] lies below [2^53], and from [2^52] on for a
    normal number. *)
Lemma scaled_lt (x : Q) : 0 < x -> x / 2 ^ ulp_exponent x < 2 ^ 53.
Proof.
  intros Hx. destruct (ilog2_spec x Hx) as [_ H].
  pose proof (pow2_pos (ulp_exponent x)) as P.
  apply Qlt_shift_div_r; [exact P |].
  rewrite <- pow2_add.
  apply Qlt_le_trans with (2 ^ (ilog2 x + 1)); [exact H |].
  apply pow2_le. unfold ulp_exponent. lia.
Qed.

Lemma scaled_ge (x : Q) :
  0 < x -> ulp_exponent x = (ilog2 x - 52)%Z -> 2 ^ 52 <= x / 2 ^ ulp_exponent x.
Proof.
  intros Hx He. destruct (ilog2_spec x Hx) as [H _].
  pose proof (pow2_pos (ulp_exponent x)) as P.
  apply Qle_shift_div_l; [exact P |].
  rewrite <- pow2_add. rewrite He.
  replace (52 + (ilog2 x - 52))%Z with (ilog2 x) by lia. exact H.
Qed.

Lemma round_pos_comp (x y : Q) : 0 < x -> x == y -> round_pos x == round_pos y.
Proof.
  intros Hx E. unfold round_pos, ulp_exponent.
  rewrite (ilog2_comp x y Hx E).
  rewrite (rne_comp (x / 2 ^ Z.max (ilog2 y - 52) (-1074))
                    (y / 2 ^ Z.max (ilog2 y - 52) (-1074))) by (now rewrite E).
  reflexivity.
Qed.

Lemma round_pos_nonneg (x : Q) : 0 < x -> 0 <= round_pos x.
Proof.
  intros Hx. unfold round_pos.
  pose proof (pow2_pos (ulp_exponent x)) as P.
  apply Qmult_le_0_compat; [| lra].
  change 0 with (inject_Z 0). rewrite <- Zle_Qle. apply rne_nonneg.
  apply Qle_shift_div_l; [exact P | lra].
Qed.

(** A number [m * 2^E] with [0 < m < 2^53] and [E >= -1074] is a double. *)
Lemma round_pos_exact (x : Q) (m E : Z) :
  (0 < m < 2 ^ 53)%Z -> (- 1074 <= E)%Z -> x == inject_Z m * 2 ^ E ->
  round_pos x == x.
Proof.
  intros Hm HE Ex.
  assert (Hx : 0 < x).
  { rewrite Ex. apply Qmult_lt_0_compat; [| apply pow2_pos].
    change 0 with (inject_Z 0). rewrite <- Zlt_Qlt. lia. }
  pose proof (Z.log2_spec m ltac:(lia)) as [L1 L2].
  pose proof (Z.log2_nonneg m) as L0.
  assert (L53 : (Z.log2 m < 53)%Z) by (apply Z.log2_lt_pow2; lia).
  assert (Hlog : ilog2 x = (Z.log2 m + E)%Z).
  { apply ilog2_unique; rewrite Ex.
    - rewrite pow2_add. apply Qmult_le_compat_r; [| pose proof (pow2_pos E); lra].
      rewrite pow2_nonneg_exp by exact L0. rewrite <- Zle_Qle. exact L1.
    - replace (Z.log2 m + E + 1)%Z with ((Z.log2 m + 1) + E)%Z by lia.
      rewrite pow2_add. apply Qmult_lt_compat_r; [apply pow2_pos |].
      rewrite pow2_nonneg_exp by lia. rewrite <- Zlt_Qlt. unfold Z.succ in L2. exact L2. }
  unfold round_pos. set (e := ulp_exponent x).
  assert (He : (e <= E)%Z) by (unfold e, ulp_exponent; rewrite Hlog; lia).
  pose proof (pow2_pos e) as Pe.
  assert (Hs : x / 2 ^ e == inject_Z (m * 2 ^ (E - e))).
  { rewrite inject_Z_mult, <- pow2_nonneg_exp by lia.
    rewrite Ex, pow2_sub. field. lra. }
  rewrite (rne_comp _ _ Hs), rne_Z.
  rewrite inject_Z_mult, <- pow2_nonneg_exp by lia.
  rewrite Ex, pow2_sub. field. lra.
Qed.

Lemma round_pos_le (x y : Q) : 0 < x -> x <= y -> round_pos x <= round_pos y.
Proof.
  intros Hx Hxy. assert (Hy : 0 < y) by lra.
  pose proof (ilog2_le x y Hx Hxy) as Hl.
  assert (He : (ulp_exponent x <= ulp_exponent y)%Z) by (unfold ulp_exponent; lia).
  pose proof (pow2_pos (ulp_exponent x)) as Px.
  pose proof (pow2_pos (ulp_exponent y)) as Py.
  destruct (Z.eq_dec (ulp_exponent x) (ulp_exponent y)) as [E | NE].
  - unfold round_pos. rewrite E.
    apply Qmult_le_compat_r; [| lra].
    rewrite <- Zle_Qle. apply rne_le.
    apply Qmult_le_compat_r; [exact Hxy |].
    apply Qlt_le_weak, Qinv_lt_0_compat. exact Py.
  - assert (Hn : ulp_exponent y = (ilog2 y - 52)%Z) by (unfold ulp_exponent in *; lia).
    pose proof (scaled_lt x Hx) as Sx.
    pose proof (scaled_ge y Hy Hn) as Sy.
    assert (Rx : (rne (x / 2 ^ ulp_exponent x) <= 2 ^ 53)%Z).
    { rewrite <- (rne_Z (2 ^ 53)). apply rne_le.
      rewrite <- pow2_nonneg_exp by lia. lra. }
    assert (Ry : (2 ^ 52 <= rne (y / 2 ^ ulp_exponent y))%Z).
    { rewrite <- (rne_Z (2 ^ 52)). apply rne_le.
      rewrite <- pow2_nonneg_exp by lia. exact Sy. }
    unfold round_pos.
    apply Qle_trans with (inject_Z (2 ^ 53) * 2 ^ ulp_exponent x).
    { apply Qmult_le_compat_r; [| lra]. rewrite <- Zle_Qle. exact Rx. }
    apply Qle_trans with (inject_Z (2 ^ 52) * 2 ^ ulp_exponent y).
    2:{ apply Qmult_le_compat_r; [| lra]. rewrite <- Zle_Qle. exact Ry. }
    rewrite <- !pow2_nonneg_exp by lia. rewrite <- !pow2_add.
    apply pow2_le. lia.
Qed.

Lemma round64_pos (x : Q) : 0 < x -> round64 x == round_pos x.
Proof.
  intros H. unfold round64.
  destruct (Qcompare_spec x 0) as [C | C | C]; try lra. apply Qred_correct.
Qed.

Lemma round64_neg (x : Q) : x < 0 -> round64 x == - round_pos (- x).
Proof.
  intros H. unfold round64.
  destruct (Qcompare_spec x 0) as [C | C | C]; try lra. apply Qred_correct.
Qed.

Lemma round64_zero (x : Q) : x == 0 -> round64 x = 0.
Proof.
  intros H. unfold round64.
  destruct (Qcompare_spec x 0) as [C | C | C]; try lra. reflexivity.
Qed.

(** Equal rationals round to the same (reduced) fraction. *)
Lemma round64_comp (x y : Q) : x == y -> round64 x = round64 y.
Proof.
  intros E. unfold round64. rewrite <- E.
  destruct (Qcompare_spec x 0) as [C | C | C]; [reflexivity | |].
  - apply Qred_complete. apply Qopp_comp. apply round_pos_comp; [lra | now rewrite E].
  - apply Qred_complete. apply round_pos_comp; [lra | exact E].
Qed.

Lemma round64_opp (x : Q) : round64 (- x) == - round64 x.
Proof.
  destruct (Qcompare_spec x 0) as [C | C | C].
  - rewrite (round64_zero x C), (round64_zero (- x)) by lra. reflexivity.
  - rewrite (round64_neg x C), (round64_pos (- x)) by lra. ring.
  - rewrite (round64_pos x C), (round64_neg (- x)) by lra.
    rewrite (round_pos_comp (- - x) x) by (lra || ring). reflexivity.
Qed.

Lemma round64_le (x y : Q) : x <= y -> round64 x <= round64 y.
Proof.
  intros Hxy.
  destruct (Qcompare_spec x 0) as [Cx | Cx | Cx];
    destruct (Qcompare_spec y 0) as [Cy | Cy | Cy]; try lra.
  - rewrite (round64_zero x Cx), (round64_zero y Cy). lra.
  - rewrite (round64_zero x Cx), (round64_pos y Cy).
    now apply round_pos_nonneg.
  - rewrite (round64_neg x Cx), (round64_zero y Cy).
    pose proof (round_pos_nonneg (- x)). lra.
  - rewrite (round64_neg x Cx), (round64_neg y Cy).
    pose proof (round_pos_le (- y) (- x)). lra.
  - rewrite (round64_neg x Cx), (round64_pos y Cy).
    pose proof (round_pos_nonneg (- x)). pose proof (round_pos_nonneg y). lra.
  - rewrite (round64_pos x Cx), (round64_pos y Cy). now apply round_pos_le.
Qed.

Lemma dyadic_is_double (x : Q) (m E : Z) :
  (Z.abs m < 2 ^ 53)%Z -> (- 1074 <= E)%Z -> x == inject_Z m * 2 ^ E -> is_double x.
Proof.
  intros Hm HE Ex. unfold is_double.
  pose proof (pow2_pos E) as P.
  destruct (Z.lt_trichotomy m 0) as [Hneg | [-> | Hpos]].
  - assert (Hx : x < 0).
    { rewrite Ex. setoid_replace (inject_Z m * 2 ^ E) with (- (inject_Z (- m) * 2 ^ E))
        by (rewrite inject_Z_opp; ring).
      assert (0 < inject_Z (- m) * 2 ^ E).
      { apply Qmult_lt_0_compat; [| exact P].
        change 0 with (inject_Z 0). rewrite <- Zlt_Qlt. lia. }
      lra. }
    rewrite (round64_neg x Hx).
    rewrite (round_pos_exact (- x) (- m) E); [ring | lia | exact HE |].
    rewrite Ex, inject_Z_opp. ring.
  - rewrite round64_zero; [| rewrite Ex; ring]. rewrite Ex. ring.
  - assert (Hx : 0 < x).
    { rewrite Ex. apply Qmult_lt_0_compat; [| exact P].
      change 0 with (inject_Z 0). rewrite <- Zlt_Qlt. lia. }
    rewrite (round64_pos x Hx). apply (round_pos_exact x m E); [lia | exact HE | exact Ex].
Qed.

Lemma integer_is_double (n : Z) : (Z.abs n < 2 ^ 53)%Z -> is_double (inject_Z n).
Proof.
  intros H. apply (dyadic_is_double _ n 0); [exact H | lia |].
  change (2 ^ 0) with 1. ring.
Qed.

Lemma round64_integer (n : Z) : (Z.abs n < 2 ^ 53)%Z -> round64 (inject_Z n) == inject_Z n.
Proof. apply integer_is_double. Qed.

(** Rounding lands on a double. *)
Lemma round_pos_idem (x : Q) : 0 < x -> round_pos x == 0 \/ is_double (round_pos x).
Proof.
  intros Hx. unfold round_pos at 1 2.
  set (e := ulp_exponent x). set (m := rne (x / 2 ^ e)).
  pose proof (pow2_pos e) as P.
  assert (Hm0 : (0 <= m)%Z).
  { apply rne_nonneg. apply Qle_shift_div_l; [exact P | lra]. }
  assert (Hm1 : (m <= 2 ^ 53)%Z).
  { unfold m. rewrite <- (rne_Z (2 ^ 53)). apply rne_le.
    rewrite <- pow2_nonneg_exp by lia. pose proof (scaled_lt x Hx). fold e in H. lra. }
  assert (He : (- 1074 <= e)%Z) by (unfold e, ulp_exponent; lia).
  destruct (Z.eq_dec m 0) as [-> | Hne]; [left; ring | right].
  destruct (Z.eq_dec m (2 ^ 53)) as [-> | Hne'].
  - apply (dyadic_is_double _ 1 (53 + e)); [lia | lia |].
    rewrite pow2_add, <- pow2_nonneg_exp by lia. ring.
  - apply (dyadic_is_double _ m e); [lia | exact He | reflexivity].
Qed.

Lemma round64_is_double (x : Q) : is_double (round64 x).
Proof.
  unfold is_double.
  destruct (Qcompare_spec x 0) as [C | C | C].
  - rewrite (round64_zero x C). reflexivity.
  - assert (E : round64 x == - round_pos (- x)) by (apply round64_neg; exact C).
    rewrite (round64_comp _ _ E), E, round64_opp.
    destruct (round_pos_idem (- x)) as [H | H]; [lra | |].
    + rewrite (round64_zero _ H). lra.
    + unfold is_double in H. lra.
  - assert (E : round64 x == round_pos x) by (apply round64_pos; exact C).
    rewrite (round64_comp _ _ E), E.
    destruct (round_pos_idem x C) as [H | H].
    + rewrite (round64_zero _ H). lra.
    + exact H.
Qed.

(** Rounding moves a number by at most half a unit in the last place. *)
Lemma round_pos_near (x : Q) :
  0 < x ->
  Qabs (round_pos x - x) <= (1 # 2) * 2 ^ ulp_exponent x.
Proof.
  intros Hx. unfold round_pos. set (e := ulp_exponent x).
  pose proof (pow2_pos e) as P.
  destruct (rne_near (x / 2 ^ e)) as [H1 H2].
  set (m := inject_Z (rne (x / 2 ^ e))) in *.
  assert (Ex : x == x / 2 ^ e * 2 ^ e) by (field; lra).
  apply Qabs_Qle_condition. split.
  - assert (H : (m - (1 # 2)) * 2 ^ e <= x / 2 ^ e * 2 ^ e + (1#2) * 2 ^ e - (1 # 2) * 2 ^ e).
    { setoid_replace (x / 2 ^ e * 2 ^ e + (1 # 2) * 2 ^ e - (1 # 2) * 2 ^ e)
        with (x / 2 ^ e * 2 ^ e) by ring.
      apply Qmult_le_compat_r; lra. }
    rewrite <- Ex in H. nra.
  - assert (H : x / 2 ^ e * 2 ^ e <= (m + (1 # 2)) * 2 ^ e)
      by (apply Qmult_le_compat_r; lra).
    rewrite <- Ex in H. nra.
Qed.

Lemma round64_reduced (x : Q) : Qred (round64 x) = round64 x.
Proof.
  unfold round64.
  destruct (Qcompare x 0); [reflexivity | |]; apply Qred_complete, Qred_correct.
Qed.

Lemma round64_eq (x q : Q) : round64 x == q -> round64 x = Qred q.
Proof. intros H. rewrite <- round64_reduced. apply Qred_complete. exact H. Qed.

Lemma Qred_inject_Z (n : Z) : Qred (inject_Z n) = inject_Z n.
Proof.
  unfold Qred, inject_Z.
  pose proof (Z.ggcd_gcd n 1) as G. pose proof (Z.ggcd_correct_divisors n 1) as D.
  destruct (Z.ggcd n 1) as (g, (a, b)). cbn [fst snd] in *.
  rewrite Z.gcd_1_r in G. subst g. destruct D as [Da Db].
  rewrite Z.mul_1_l in Da, Db. subst a b. reflexivity.
Qed.

Lemma round64_integer_eq (n : Z) :
  (Z.abs n < 2 ^ 53)%Z -> round64 (inject_Z n) = inject_Z n.
Proof.
  intros H. rewrite (round64_eq _ (inject_Z n)); [apply Qred_inject_Z |].
  apply round64_integer. exact H.
Qed.

Lemma binary64_comp (x y : Q) : x == y -> binary64 x = binary64 y.
Proof. intros E. unfold binary64. now rewrite (round64_comp x y E). Qed.

Lemma max_double_large : inject_Z (2 ^ 53) <= max_double.
Proof. unfold max_double. rewrite <- Zle_Qle. vm_compute. discriminate. Qed.

(** A value within the range of the finite doubles rounds to a finite one. *)
Lemma binary64_finite (x : Q) :
  - max_double <= round64 x -> round64 x <= max_double -> binary64 x = Fin (round64 x).
Proof.
  intros H1 H2. unfold binary64.
  destruct (Qlt_bool max_double (round64 x)) eqn:E1.
  - apply Qlt_bool_iff in E1. lra.
  - destruct (Qlt_bool (round64 x) (- max_double)) eqn:E2; [| reflexivity].
    apply Qlt_bool_iff in E2. lra.
Qed.

Lemma binary64_integer (n : Z) :
  (Z.abs n < 2 ^ 53)%Z -> binary64 (inject_Z n) = Fin (inject_Z n).
Proof.
  intros H. pose proof max_double_large as M.
  assert (B : - inject_Z (2 ^ 53) <= inject_Z n /\ inject_Z n <= inject_Z (2 ^ 53)).
  { rewrite <- inject_Z_opp, <- !Zle_Qle. lia. }
  rewrite binary64_finite; rewrite (round64_integer_eq n H); try reflexivity; lra.
Qed.

Lemma finite_double_bounds (x : Q) :
  finite_double x -> round64 x = x /\ - max_double <= x /\ x <= max_double.
Proof.
  unfold finite_double, binary64. intros H.
  destruct (Qlt_bool max_double (round64 x)) eqn:E1; [discriminate |].
  destruct (Qlt_bool (round64 x) (- max_double)) eqn:E2; [discriminate |].
  injection H as H. rewrite H in E1, E2.
  split; [exact H |]. split.
  - destruct (Qlt_le_dec x (- max_double)) as [L | L]; [| exact L].
    apply Qlt_bool_iff in L. congruence.
  - destruct (Qlt_le_dec max_double x) as [L | L]; [| exact L].
    apply Qlt_bool_iff in L. congruence.
Qed.

(** *** Agreement with the binary64 numbers of the kernel

    [Floats] gives the arithmetic of IEEE doubles as primitive operations;
    the operations on [pyfloat] compute the same numbers. *)
Module KernelFloats.

(** The value of a primitive float. *)
Definition of_float (f : PrimFloat.float) : pyfloat :=
  match FloatOps.Prim2SF f with
  | SpecFloat.S754_zero _ => Fin 0
  | SpecFloat.S754_finite s m e =>
      Fin (Qred ((if s then - (1) else 1) * inject_Z (Zpos m) * 2 ^ e))
  | SpecFloat.S754_infinity false => PInf
  | SpecFloat.S754_infinity true => NInf
  | SpecFloat.S754_nan => NaN
  end.

Definition one_tenth : pyfloat := binary64 (1 # 10).

Import PrimFloat.
Arguments of_float f%_float.

Example rounding_agrees :
  binary64 (1 # 10) = of_float (1 / 10) /\
  binary64 (1 # 3) = of_float (1 / 3) /\
  binary64 (39999 # 1000) = of_float (39999 / 1000) /\
  binary64 (2 ^ (- 1075)) = of_float (FloatOps.Z.ldexp 1 (- 1075)) /\
  binary64 (3 * 2 ^ (- 1075)) = of_float (FloatOps.Z.ldexp 3 (- 1075)) /\
  binary64 (2 ^ 54 + 2) = of_float (FloatOps.Z.ldexp 1 54 + 2) /\
  binary64 (2 ^ 54 + 6) = of_float (FloatOps.Z.ldexp 1 54 + 6) /\
  binary64 (2 ^ 1024) = of_float (FloatOps.Z.ldexp 1 1023 * 2).
Proof. vm_compute. repeat split. Qed.

Example arithmetic_agrees :
  fmul (Fin 70) one_tenth = of_float (70 * (1 / 10)) /\
  fsub (fmul (Fin 3) one_tenth) (fmul (Fin 2) one_tenth)
  = of_float (3 * (1 / 10) - 2 * (1 / 10)) /\
  fadd (Fin 14) (binary64 (1 # 10000000000000000))
  = of_float (14 + 1 / 10000000000000000) /\
  fdiv (binary64 (3 # 10)) one_tenth = of_float (3 / 10 / (1 / 10)) /\
  fdiv (Fin 7) one_tenth = of_float (7 / (1 / 10)) /\
  fdiv (Fin 0) (Fin 0) = of_float (0 / 0) /\
  fdiv (Fin (- (1))) (Fin 0) = of_float (- (1) / 0) /\
  fsqrt (Fin 2) = of_float (PrimFloat.sqrt 2) /\
  fsqrt (Fin 4) = of_float (PrimFloat.sqrt 4) /\
  fsqrt one_tenth = of_float (PrimFloat.sqrt (1 / 10)) /\
  fsqrt (binary64 (2 ^ (- 1074)))
  = of_float (PrimFloat.sqrt (FloatOps.Z.ldexp 1 (- 1074))) /\
  fsqrt (binary64 (1 - 2 ^ (- 53)))
  = of_float (PrimFloat.sqrt (1 - FloatOps.Z.ldexp 1 (- 53))) /\
  fsqrt (Fin (- (1))) = of_float (PrimFloat.sqrt (- (1))).
Proof. vm_compute. repeat split. Qed.
End KernelFloats.

(** ** Grid alignment *)

Lemma last_item_map_range {A} (f : Z -> A) (n : Z) :
  (1 <= n)%Z -> last_item (map f (range n)) = Ok (f (n - 1)%Z).
Proof.
  intros Hn. unfold last_item, range.
  replace (Z.to_nat n) with (S (Z.to_nat (n - 1))) by lia.
  rewrite seq_S, !map_app, rev_app_distr. simpl.
  f_equal. f_equal. lia.
Qed.

Lemma Qtrunc_nonneg (q : Q) : 0 <= q -> Qtrunc q = Qfloor q.
Proof.
  destruct q as [n d]. unfold Qle, Qtrunc, Qfloor. simpl. intros H.
  apply Z.quot_div_nonneg; lia.
Qed.

Lemma floor_bounds (x p : Q) :
  0 < p ->
  inject_Z (Qfloor (x / p)) * p <= x /\ x < inject_Z (Qfloor (x / p) + 1) * p.
Proof.
  intros Hp.
  assert (E : x == x / p * p) by (field; lra).
  split.
  - rewrite E at 2. apply Qmult_le_compat_r; [apply Qfloor_le | lra].
  - rewrite E at 1. apply Qmult_lt_compat_r; [exact Hp | apply Qlt_floor].
Qed.

(** With a period that is not positive the loop never leaves. *)
Lemma get_offset_loop_stays (bound p : Q) (fuel : nat) :
  p <= 0 -> forall offset, offset <= bound ->
  get_offset_loop fuel bound p offset = OutOfFuel.
Proof.
  intros Hp. induction fuel as [| fuel IH]; intros offset Ho; [reflexivity |].
  simpl. assert (E : Qle_bool offset bound = true) by (apply Qle_bool_iff; exact Ho).
  rewrite E. apply IH. lra.
Qed.

(** *** The transient loop in double precision *)

Lemma running_sum_shift offset p k :
  Double.running_sum (fadd offset p) p k = Double.running_sum offset p (S k).
Proof. induction k as [| k IH]; simpl; [reflexivity | now rewrite IH]. Qed.

(** The loop leaves at the first running sum that is not [<= bound]. *)
Lemma running_loop_exit bound p (k : nat) :
  forall offset,
    (forall j, (j < k)%nat -> fle (Double.running_sum offset p j) bound = true) ->
    fle (Double.running_sum offset p k) bound = false ->
    forall fuel, (k < fuel)%nat ->
      Double.get_offset_loop fuel bound p offset = Returns (Double.running_sum offset p k).
Proof.
  induction k as [| k IH]; intros offset Hin Hout [| fuel] Hf; try lia.
  - simpl in *. now rewrite Hout.
  - cbn [Double.get_offset_loop].
    pose proof (Hin O ltac:(lia)) as H0. cbn [Double.running_sum] in H0. rewrite H0.
    rewrite <- running_sum_shift. apply IH.
    + intros j Hj. rewrite running_sum_shift. apply Hin. lia.
    + rewrite running_sum_shift. exact Hout.
    + lia.
Qed.

Lemma running_loop_returns bound p (fuel : nat) :
  forall offset o,
    Double.get_offset_loop fuel bound p offset = Returns o ->
    exists k, (k < fuel)%nat /\ o = Double.running_sum offset p k /\
              fle o bound = false /\
              forall j, (j < k)%nat -> fle (Double.running_sum offset p j) bound = true.
Proof.
  induction fuel as [| fuel IH]; intros offset o H; [discriminate |].
  cbn [Double.get_offset_loop] in H.
  destruct (fle offset bound) eqn:E.
  - destruct (IH _ _ H) as (k & Hk & Ho & Hout & Hin).
    exists (S k). split; [lia |]. split; [now rewrite <- running_sum_shift |].
    split; [exact Hout |].
    intros [| j] Hj; [exact E |]. rewrite <- running_sum_shift. apply Hin. lia.
  - injection H as <-. exists O. split; [lia |]. split; [reflexivity |].
    split; [exact E |]. intros j Hj. lia.
Qed.

(** An addition that changes nothing keeps the loop running. *)
Lemma running_loop_absorbed bound p offset (fuel : nat) :
  fadd offset p = offset -> fle offset bound = true ->
  Double.get_offset_loop fuel bound p offset = OutOfFuel.
Proof.
  intros Ha Hb. induction fuel as [| fuel IH]; [reflexivity |].
  cbn [Double.get_offset_loop]. now rewrite Hb, Ha.
Qed.

Lemma transient_margin_value :
  exists c, Double.transient_margin = Fin c /\ 39 <= c /\ c <= 40 - (1 # 1024).
Proof.
  eexists. split; [vm_compute; reflexivity |].
  split; apply Qle_bool_iff; vm_compute; reflexivity.
Qed.

(** The bound of the loop is a finite double at or above [stimulus_offset]. *)
Lemma transient_bound (so : Q) :
  finite_double so -> so < 40 ->
  exists t, fadd (Fin so) Double.transient_margin = Fin t /\ so <= t.
Proof.
  intros Hso H40.
  destruct (finite_double_bounds so Hso) as (Hr & Hlo & Hhi).
  destruct transient_margin_value as (c & Ec & Hc1 & Hc2).
  rewrite Ec. cbn [fadd].
  assert (L : so <= round64 (so + c)).
  { rewrite <- Hr at 1. apply round64_le. lra. }
  assert (U : round64 (so + c) <= 80).
  { rewrite <- (round64_integer 80) by (vm_compute; reflexivity).
    apply round64_le. change (inject_Z 80) with 80. lra. }
  assert (M : 80 <= max_double).
  { apply Qle_trans with (inject_Z (2 ^ 53)); [| apply max_double_large].
    apply Qle_bool_iff. vm_compute. reflexivity. }
  exists (round64 (so + c)). split; [| exact L].
  apply binary64_finite; lra.
Qed.

Lemma whole_transient_bound (so : Z) :
  (- 2 ^ 40 <= so < 40)%Z ->
  exists t, fadd (Fin (inject_Z so)) Double.transient_margin = Fin t /\
            inject_Z (so + 39) <= t /\ t < inject_Z (so + 40).
Proof.
  intros Hso.
  destruct transient_margin_value as (c & Ec & Hc1 & Hc2).
  rewrite Ec. cbn [fadd].
  assert (I39 : inject_Z (so + 39) == inject_Z so + 39)
    by (rewrite inject_Z_plus; reflexivity).
  assert (I40 : inject_Z (so + 40) == inject_Z so + 40)
    by (rewrite inject_Z_plus; reflexivity).
  assert (L : inject_Z (so + 39) <= round64 (inject_Z so + c)).
  { rewrite <- (round64_integer (so + 39)) by lia. apply round64_le. lra. }
  assert (D : is_double (inject_Z (so + 40) - (1 # 1024))).
  { apply (dyadic_is_double _ ((so + 40) * 1024 - 1) (- 10)); [lia | lia |].
    replace ((so + 40) * 1024 - 1)%Z with ((so + 40) * 1024 + - 1)%Z by lia.
    rewrite !inject_Z_plus, inject_Z_mult, !inject_Z_plus.
    change (2 ^ (- 10)) with (/ 1024). change (inject_Z 1024) with 1024.
    change (inject_Z 40) with 40. change (inject_Z (- 1)) with (- (1)). field. }
  assert (U : round64 (inject_Z so + c) <= inject_Z (so + 40) - (1 # 1024)).
  { unfold is_double in D. rewrite <- D. apply round64_le. lra. }
  assert (B : - inject_Z (2 ^ 53) <= inject_Z (so + 39) /\
              inject_Z (so + 40) <= inject_Z (2 ^ 53)).
  { rewrite <- inject_Z_opp, <- !Zle_Qle. lia. }
  pose proof max_double_large as M.
  exists (round64 (inject_Z so + c)). split; [| split; [exact L | lra]].
  apply binary64_finite; lra.
Qed.

Lemma whole_running_sum (so p : Z) (k : nat) :
  (- 2 ^ 40 <= so < 40)%Z -> (1 <= p <= 2 ^ 40)%Z -> (k <= 41)%nat ->
  Double.running_sum (Fin (inject_Z so)) (Fin (inject_Z p)) k
  = Fin (inject_Z (so + Z.of_nat k * p)).
Proof.
  intros Hso Hp. induction k as [| k IH]; intros Hk.
  - cbn [Double.running_sum]. do 2 f_equal. lia.
  - cbn [Double.running_sum]. rewrite IH by lia. cbn [fadd].
    rewrite (binary64_comp _ (inject_Z (so + Z.of_nat (S k) * p))).
    + apply binary64_integer. nia.
    + rewrite <- inject_Z_plus. apply inject_Z_injective. lia.
Qed.

(** C2 (as amended): for whole numbers [stimulus_offset < 40] and
    [period >= 1] (up to [2^40] in size) [get_offset] returns
    [stimulus_offset + k * period] for a whole number [k >= 1], the first such
    value greater than [stimulus_offset + 39.999]: it lies between
    [stimulus_offset + 40] and [stimulus_offset + 39 + period], and is
    [stimulus_offset + 40] when the period divides 40.  For any doubles, the
    loop returns, when it does, the first of the running sums
    [stimulus_offset + period + ... + period] (each addition rounded) that is
    not [<=] the double [stimulus_offset + 39.999], after at least one
    addition, and it does return when there is such a sum; a period that
    leaves [stimulus_offset] unchanged when added keeps the loop running
    forever. *)
Theorem get_offset_first_period_past_transients :
  (forall so p : Z,
      (- 2 ^ 40 <= so < 40)%Z -> (1 <= p <= 2 ^ 40)%Z ->
      exists k : nat,
        (1 <= k <= 40)%nat /\
        (forall fuel, (k < fuel)%nat ->
           Double.get_offset fuel (Fin (inject_Z so)) (Some (Fin (inject_Z p))) true
           = Returns (Fin (inject_Z (so + Z.of_nat k * p)))) /\
        (so + 40 <= so + Z.of_nat k * p <= so + 39 + p)%Z /\
        ((p | 40)%Z -> (so + Z.of_nat k * p = so + 40)%Z)) /\
  (forall (so : Q) (p : pyfloat),
      finite_double so -> so < 40 ->
      exists bound,
        fadd (Fin so) Double.transient_margin = Fin bound /\ so <= bound /\
        (forall fuel o,
            Double.get_offset fuel (Fin so) (Some p) true = Returns o ->
            exists k, (1 <= k < fuel)%nat /\
                      o = Double.running_sum (Fin so) p k /\
                      fle o (Fin bound) = false /\
                      forall j, (j < k)%nat ->
                                fle (Double.running_sum (Fin so) p j) (Fin bound) = true) /\
        (forall k,
            fle (Double.running_sum (Fin so) p k) (Fin bound) = false ->
            (forall j, (j < k)%nat ->
                       fle (Double.running_sum (Fin so) p j) (Fin bound) = true) ->
            forall fuel, (k < fuel)%nat ->
              Double.get_offset fuel (Fin so) (Some p) true
              = Returns (Double.running_sum (Fin so) p k)) /\
        (fadd (Fin so) p = Fin so ->
         forall fuel, Double.get_offset fuel (Fin so) (Some p) true = OutOfFuel)).
Proof.
  split.
  - intros so p Hso Hp.
    destruct (whole_transient_bound so Hso) as (t & Et & Ht1 & Ht2).
    set (k := S (Z.to_nat (39 / p))).
    assert (Hq : (0 <= 39 / p <= 39)%Z).
    { split; [apply Z.div_pos; lia |]. apply Z.div_le_upper_bound; nia. }
    assert (Hlow : (39 / p * p <= 39)%Z) by (rewrite Z.mul_comm; apply Z.mul_div_le; lia).
    assert (Hup : (39 < (39 / p + 1) * p)%Z).
    { pose proof (Z.mul_succ_div_gt 39 p ltac:(lia)) as H. unfold Z.succ in H. nia. }
    assert (Ek : Z.of_nat k = (39 / p + 1)%Z) by (unfold k; lia).
    exists k. split; [unfold k; lia |]. split; [| split].
    + intros fuel Hf. unfold Double.get_offset.
      assert (E40 : flt (Fin (inject_Z so)) (Fin 40) = true).
      { cbn [flt]. apply Qlt_bool_iff. change 40 with (inject_Z 40).
        rewrite <- Zlt_Qlt. lia. }
      rewrite E40, Et. cbn [andb].
      rewrite <- (whole_running_sum so p k Hso Hp) by (unfold k; lia).
      apply running_loop_exit; [| | exact Hf].
      * intros j Hj. rewrite (whole_running_sum so p j Hso Hp) by (unfold k in Hj; lia).
        cbn [fle]. apply Qle_bool_iff.
        apply Qle_trans with (inject_Z (so + 39)); [| exact Ht1].
        rewrite <- Zle_Qle. unfold k in Hj. nia.
      * rewrite (whole_running_sum so p k Hso Hp) by (unfold k; lia).
        cbn [fle]. apply Qle_bool_false.
        apply Qlt_le_trans with (inject_Z (so + 40)); [exact Ht2 |].
        rewrite <- Zle_Qle. nia.
    + nia.
    + intros (m & Hm). rewrite Ek.
      assert (Hlt : (39 / p < m)%Z) by nia.
      assert (Hle : ((39 / p + 1) * p <= m * p)%Z) by (apply Z.mul_le_mono_nonneg_r; lia).
      lia.
  - intros so p Hso H40.
    destruct (transient_bound so Hso H40) as (t & Et & Ht).
    assert (E40 : flt (Fin so) (Fin 40) = true) by (apply Qlt_bool_iff; exact H40).
    assert (E0 : fle (Fin so) (Fin t) = true) by (apply Qle_bool_iff; exact Ht).
    exists t. split; [exact Et |]. split; [exact Ht |]. split; [| split].
    + intros fuel o H. unfold Double.get_offset in H. rewrite E40, Et in H. cbn [andb] in H.
      destruct (running_loop_returns _ _ _ _ _ H) as (k & Hk & Ho & Hout & Hin).
      exists k. split; [| auto].
      destruct k as [| k]; [| lia].
      cbn [Double.running_sum] in Ho. subst o. congruence.
    + intros k Hout Hin fuel Hf. unfold Double.get_offset. rewrite E40, Et. cbn [andb].
      apply running_loop_exit; assumption.
    + intros Ha fuel. unfold Double.get_offset. rewrite E40, Et. cbn [andb].
      apply running_loop_absorbed; assumption.
Qed.

Lemma get_offset_first_period_past_transients_witness :
  (exists k : nat,
      (1 <= k <= 40)%nat /\
      (forall fuel, (k < fuel)%nat ->
         Double.get_offset fuel (Fin (inject_Z 14)) (Some (Fin (inject_Z 10))) true
         = Returns (Fin (inject_Z (14 + Z.of_nat k * 10)))) /\
      (14 + 40 <= 14 + Z.of_nat k * 10 <= 14 + 39 + 10)%Z /\
      ((10 | 40)%Z -> (14 + Z.of_nat k * 10 = 14 + 40)%Z)) /\
  (forall fuel,
      Double.get_offset fuel (Fin 14) (Some (binary64 (1 # 10000000000000000))) true
      = OutOfFuel).
Proof.
  destruct get_offset_first_period_past_transients as [H1 H2].
  split.
  - apply (H1 14%Z 10%Z); lia.
  - destruct (H2 14 (binary64 (1 # 10000000000000000)))
      as (bound & _ & _ & _ & _ & H); [reflexivity | reflexivity |].
    apply H. vm_compute. reflexivity.
Defined.

(** C2, counterexample: with [stimulus_offset = 14] and [period = 7] the loop
    returns 56 = 14 + 6*7, which is past [stimulus_offset + 40 = 54]. *)
Lemma get_offset_exceeds_40 :
  Double.get_offset 10 (Fin 14) (Some (Fin 7)) true = Returns (Fin 56) /\
  Qle_bool 56 (14 + 40) = false.
Proof. split; vm_compute; reflexivity. Qed.

(** *** The trial count in double precision *)

Lemma get_ntrials_last (numpy : bool) (start_offset : pyfloat) (period : option pyfloat)
    (tr : pyfloat) (nvols : Z) :
  (1 <= nvols)%Z ->
  Double.get_ntrials numpy start_offset period tr nvols
  = Double.divmod_quot numpy
      (fsub (fmul (binary64 (inject_Z (nvols - 1))) tr) start_offset) period.
Proof.
  intros Hn. unfold Double.get_ntrials.
  rewrite (last_item_map_range (fun x => fmul (binary64 (inject_Z x)) tr)) by exact Hn.
  cbn [rbind]. destruct (Double.divmod_quot _ _ _); reflexivity.
Qed.




(** The trial count of the scenario of the specification (600 samples every
    0.1 s, offset 54, period 10) and a count that rounding lowers: with
    [tr = 0.1], offset 0.7 and period 2.1, 70 * 0.1 is the double 7 and
    7 - 0.7 the double 6.3, just below three periods of 2.1. *)
Example get_ntrials_in_doubles :
  Double.get_ntrials false (Fin 54) (Some (Fin 10)) (Fin (round64 (1 # 10))) 600
  = Ok (Fin 0) /\
  Double.get_ntrials false (Fin (round64 (7 # 10))) (Some (Fin (round64 (21 # 10))))
                     (Fin (round64 (1 # 10))) 71
  = Ok (Fin 2) /\
  Qfloor ((70 * (1 # 10) - (7 # 10)) / (21 # 10)) = 3%Z.
Proof. repeat split; vm_compute; reflexivity. Qed.

(** C9 (as amended): with [discard_transients] set, [stimulus_offset < 40]
    and a zero or negative period, [get_offset] neither returns nor raises:
    the loop is still running after any number of iterations.  With the
    period absent it returns [stimulus_offset] unchanged. *)
Theorem get_offset_nonpositive_period (stimulus_offset p : Q) (fuel : nat)
    (discard_transients : bool) :
  p <= 0 -> stimulus_offset < 40 ->
  get_offset fuel stimulus_offset (Some p) true = OutOfFuel /\
  get_offset fuel stimulus_offset None discard_transients = Returns stimulus_offset.
Proof.
  intros Hp Hso. split; [| reflexivity].
  unfold get_offset.
  assert (E : Qlt_bool stimulus_offset 40 = true) by (apply Qlt_bool_iff; exact Hso).
  rewrite E. simpl. apply get_offset_loop_stays; [exact Hp | lra].
Qed.

Lemma get_offset_nonpositive_period_witness :
  get_offset 1000 14 (Some 0) true = OutOfFuel /\
  get_offset 1000 14 None true = Returns 14.
Proof.
  apply (get_offset_nonpositive_period 14 0 1000 true); [discriminate | reflexivity].
Defined.

(** C9, counterexample: with [period = 0] no run of [get_offset] ends, so
    none ends with an error. *)
Lemma get_offset_zero_period_no_error :
  (forall fuel, get_offset fuel 14 (Some 0) true = OutOfFuel) /\
  (forall fuel e, get_offset fuel 14 (Some 0) true <> Raises e).
Proof.
  assert (H : forall fuel, get_offset fuel 14 (Some 0) true = OutOfFuel).
  { intros fuel. unfold get_offset. simpl.
    apply get_offset_loop_stays; discriminate. }
  split; [exact H |]. intros fuel e. rewrite H. discriminate.
Qed.

(** ** The orchestrator *)

(** What a call of [_transform] does to the object. *)
Lemma _transform_cases {S} (t : transformer S) (id : string) (o : Oscillation) :
  (exists s X,
      _transform t id o
      = (Ok s, set_transformation_chain (transformation_chain o ++ [id])
                 (set_tdata (Owned X) o)) /\
      transform (est t) s (tdata_of o) = Ok X /\
      (fitted_ t = Some s \/ fitted_ t = None /\ fit (est t) (tdata_of o) = Ok s)) \/
  (exists e, _transform t id o = (Raise e, o)).
Proof.
  unfold _transform, bind, self, lift, assign, ret.
  destruct (fitted_ t) as [s |] eqn:Ef.
  - destruct (transform (est t) s (tdata_of o)) as [X | e] eqn:Et.
    + left. exists s, X. auto.
    + right. exists e. reflexivity.
  - destruct (fit (est t) (tdata_of o)) as [s | e] eqn:Efit.
    + destruct (transform (est t) s (tdata_of o)) as [X | e] eqn:Et.
      * left. exists s, X. auto.
      * right. exists e. reflexivity.
    + right. exists e. reflexivity.
Qed.

Lemma bind_Ok {A B} (c : M A) (k : A -> M B) o a o' :
  c o = (Ok a, o') -> bind c k o = k a o'.
Proof. intros H. unfold bind. now rewrite H. Qed.

Lemma bind_Raise {A B} (c : M A) (k : A -> M B) o e o' :
  c o = (Raise e, o') -> bind c k o = (Raise e, o').
Proof. intros H. unfold bind. now rewrite H. Qed.

(** A relation between the object before and after that every step of a
    method keeps is kept by the method. *)
Definition preserves {A} (R : Oscillation -> Oscillation -> Prop) (c : M A) : Prop :=
  forall o, R o (snd (c o)).

Lemma preserves_bind {A B} (R : Oscillation -> Oscillation -> Prop)
    (c : M A) (k : A -> M B) :
  (forall x y z, R x y -> R y z -> R x z) ->
  preserves R c -> (forall a, preserves R (k a)) -> preserves R (bind c k).
Proof.
  intros Htrans Hc Hk o. unfold bind.
  specialize (Hc o). destruct (c o) as [[a | e] o']; simpl in *.
  - eapply Htrans; [exact Hc | apply Hk].
  - exact Hc.
Qed.

(** The fields no method assigns. *)
Definition same_inputs (o o' : Oscillation) : Prop :=
  tr o' = tr o /\ period o' = period o /\ data o' = data o /\
  stimulus_offset o' = stimulus_offset o /\
  discard_transients o' = discard_transients o /\
  offset o' = offset o /\ n_trials o' = n_trials o.

Lemma same_inputs_refl o : same_inputs o o.
Proof. repeat split. Qed.

Lemma same_inputs_trans x y z : same_inputs x y -> same_inputs y z -> same_inputs x z.
Proof.
  unfold same_inputs. intros H1 H2.
  destruct H1 as (?&?&?&?&?&?&?), H2 as (?&?&?&?&?&?&?).
  repeat split; congruence.
Qed.

Local Ltac frame_step :=
  unfold same_inputs; simpl; repeat split; reflexivity.

Lemma _transform_same_inputs {S} (t : transformer S) id : preserves same_inputs (_transform t id).
Proof.
  intros o. destruct (_transform_cases t id o) as [(s & X & E & _) | (e & E)];
    rewrite E; simpl; [frame_step | apply same_inputs_refl].
Qed.

Lemma assign_same_inputs (f : Oscillation -> Oscillation) :
  (forall o, same_inputs o (f o)) -> preserves same_inputs (assign f).
Proof. intros H o. apply H. Qed.

Lemma ret_same_inputs {A} (a : A) : preserves same_inputs (ret a).
Proof. intros o. apply same_inputs_refl. Qed.

Lemma lift_same_inputs {A} (r : result A) : preserves same_inputs (lift r).
Proof. intros o. apply same_inputs_refl. Qed.

Lemma self_same_inputs : preserves same_inputs self.
Proof. intros o. apply same_inputs_refl. Qed.

Local Ltac frame_bind :=
  repeat first
    [ apply _transform_same_inputs
    | apply ret_same_inputs
    | apply lift_same_inputs
    | apply self_same_inputs
    | apply assign_same_inputs; intros ?; frame_step
    | apply preserves_bind; [exact same_inputs_trans | | intros ?] ].

Section Frame.
Variable P : Preprocessing.

Lemma reset_same_inputs : preserves same_inputs reset.
Proof. unfold reset. frame_bind. Qed.

Lemma average_same_inputs : preserves same_inputs (average P).
Proof.
  unfold average. apply preserves_bind; [exact same_inputs_trans | frame_bind |].
  intros o. destruct (labels o); frame_bind.
Qed.

Lemma psc_same_inputs b e : preserves same_inputs (psc P b e).
Proof.
  unfold psc. apply preserves_bind; [exact same_inputs_trans | frame_bind |].
  intros o. destruct (in_chain "PSC" o); cbv zeta; frame_bind.
Qed.

(** After a [_transform] that returned, [self.tdata] is an array of its own,
    so the in-place addition of [detrend] does not reach [self.data]. *)
Lemma detrend_same_inputs order keep_mean : preserves same_inputs (detrend P order keep_mean).
Proof.
  intros o. unfold detrend, bind at 1, self.
  destruct (in_chain "Detrend" o); [apply same_inputs_refl |].
  destruct (_transform_cases (new (Detrender P order)) "Detrend" o)
    as [(s & X & E & _) | (e & E)].
  - erewrite bind_Ok by exact E.
    destruct keep_mean; unfold assign, ret, iadd_tdata; simpl; frame_step.
  - erewrite bind_Raise by exact E. apply same_inputs_refl.
Qed.

Lemma update_sampling_rate_same_inputs : preserves same_inputs update_sampling_rate.
Proof. unfold update_sampling_rate. frame_bind. Qed.

Lemma trial_average_same_inputs b : preserves same_inputs (trial_average P b).
Proof.
  unfold trial_average. apply preserves_bind; [exact same_inputs_trans | frame_bind |].
  intros o. apply preserves_bind; [exact same_inputs_trans | frame_bind |].
  intros s. apply preserves_bind; [exact same_inputs_trans | destruct b; frame_bind |].
  intros _. apply preserves_bind; [exact same_inputs_trans | frame_bind |].
  intros _. apply update_sampling_rate_same_inputs.
Qed.

Lemma interp_same_inputs t : preserves same_inputs (interp P t).
Proof.
  unfold interp. apply preserves_bind; [exact same_inputs_trans | frame_bind |].
  intros o. apply preserves_bind; [exact same_inputs_trans | frame_bind |].
  intros s. apply preserves_bind; [exact same_inputs_trans | frame_bind |].
  intros _. apply update_sampling_rate_same_inputs.
Qed.

Lemma fft_same_inputs : preserves same_inputs (fft P).
Proof.
  unfold fft. apply preserves_bind; [exact same_inputs_trans | frame_bind |].
  intros o. apply preserves_bind; [exact same_inputs_trans | frame_bind |].
  intros s. apply preserves_bind; [exact same_inputs_trans | frame_bind |].
  intros _. apply update_sampling_rate_same_inputs.
Qed.

Lemma preprocess_same_inputs : preserves same_inputs (preprocess P).
Proof.
  unfold preprocess.
  apply preserves_bind; [exact same_inputs_trans | apply reset_same_inputs | intros _].
  apply preserves_bind; [exact same_inputs_trans | apply interp_same_inputs | intros _].
  apply preserves_bind; [exact same_inputs_trans | apply psc_same_inputs | intros _].
  apply preserves_bind; [exact same_inputs_trans | apply average_same_inputs | intros _].
  apply preserves_bind; [exact same_inputs_trans | apply trial_average_same_inputs | intros _].
  frame_bind.
Qed.

Lemma perform_same_inputs c : preserves same_inputs (perform P c).
Proof.
  destruct c; simpl.
  - apply reset_same_inputs.
  - unfold clear_labels. frame_bind.
  - apply average_same_inputs.
  - apply psc_same_inputs.
  - apply detrend_same_inputs.
  - apply trial_average_same_inputs.
  - apply interp_same_inputs.
  - apply fft_same_inputs.
  - apply preserves_bind; [exact same_inputs_trans | apply preprocess_same_inputs |].
    intros _. apply ret_same_inputs.
Qed.

Lemma after_all_same_inputs cs : forall o, same_inputs o (after_all P cs o).
Proof.
  induction cs as [| c cs IH]; intros o; simpl.
  - apply same_inputs_refl.
  - eapply same_inputs_trans; [apply (perform_same_inputs c o) | apply IH].
Qed.

Lemma history_same_inputs cs :
  forall o, Forall (same_inputs o) (history P cs o).
Proof.
  induction cs as [| c cs IH]; intros o; simpl; constructor.
  - apply (perform_same_inputs c o).
  - eapply Forall_impl; [| apply IH].
    intros o' H. eapply same_inputs_trans; [apply (perform_same_inputs c o) | exact H].
Qed.
End Frame.

Lemma post_init_fields fuel tr0 period0 data0 so labels0 dt o0 :
  post_init fuel tr0 period0 data0 so labels0 dt = Returns o0 ->
  exists off n,
    get_offset fuel so period0 dt = Returns off /\
    get_ntrials off period0 tr0 (Z.of_nat (shape0 data0)) = Ok n /\
    o0 = mkOscillation tr0 period0 data0 so labels0 dt DataArray [] tr0
                       (arange_times (shape0 data0) tr0) off n None None [EmptyString].
Proof.
  unfold post_init. intros H.
  destruct (get_offset fuel so period0 dt) as [off | e |] eqn:Eo; try discriminate.
  destruct (get_ntrials off period0 tr0 (Z.of_nat (shape0 data0))) as [n | e] eqn:En;
    try discriminate.
  exists off, n. injection H as <-. auto.
Qed.



(** C4: after any sequence of public operations on a constructed object,
    [reset()] binds [tdata] to [data] again, whose contents are those given at
    construction, recomputes the same [grid] and [sampling_rate], and leaves
    an empty [transformation_chain]. *)
Theorem reset_restores_construction (P : Preprocessing) fuel tr0 period0 data0 so
    labels0 dt o0 (cs : list call) :
  post_init fuel tr0 period0 data0 so labels0 dt = Returns o0 ->
  tdata (after P Reset (after_all P cs o0)) = tdata o0 /\
  tdata_of (after P Reset (after_all P cs o0)) = tdata_of o0 /\
  grid (after P Reset (after_all P cs o0)) = grid o0 /\
  sampling_rate (after P Reset (after_all P cs o0)) = sampling_rate o0 /\
  transformation_chain (after P Reset (after_all P cs o0)) = [].
Proof.
  intros H. destruct (post_init_fields _ _ _ _ _ _ _ _ H) as (off & n & _ & _ & ->).
  pose proof (after_all_same_inputs P cs
                (mkOscillation tr0 period0 data0 so labels0 dt DataArray [] tr0
                   (arange_times (shape0 data0) tr0) off n None None [EmptyString]))
    as (Htr & _ & Hdata & _).
  set (o := after_all P cs _) in *. simpl in Htr, Hdata.
  unfold after, perform, reset, bind, assign. simpl.
  unfold tdata_of. simpl. rewrite Hdata, Htr. repeat split.
Qed.

Lemma reset_restores_construction_witness :
  tdata (after Model.preprocessing Reset
           (after_all Model.preprocessing
              [Detrend 0 true; Psc (Fin 0) PInf; TrialAverage false] Model.sample))
  = tdata Model.sample /\
  tdata_of (after Model.preprocessing Reset
              (after_all Model.preprocessing
                 [Detrend 0 true; Psc (Fin 0) PInf; TrialAverage false] Model.sample))
  = tdata_of Model.sample /\
  grid (after Model.preprocessing Reset
          (after_all Model.preprocessing
             [Detrend 0 true; Psc (Fin 0) PInf; TrialAverage false] Model.sample))
  = grid Model.sample /\
  sampling_rate (after Model.preprocessing Reset
                   (after_all Model.preprocessing
                      [Detrend 0 true; Psc (Fin 0) PInf; TrialAverage false] Model.sample))
  = sampling_rate Model.sample /\
  transformation_chain
    (after Model.preprocessing Reset
       (after_all Model.preprocessing
          [Detrend 0 true; Psc (Fin 0) PInf; TrialAverage false] Model.sample))
  = [].
Proof.
  apply (reset_restores_construction Model.preprocessing
           1 1 (Some 2) Model.sample_data 0 None false).
  reflexivity.
Defined.

(** *** Guards against re-application *)

Lemma in_chain_appended id o (f : Oscillation -> Oscillation) :
  in_chain id (set_transformation_chain (transformation_chain o ++ [id]) (f o)) = true.
Proof.
  unfold in_chain. simpl. rewrite existsb_app. simpl.
  rewrite String.eqb_refl. apply orb_true_iff. right. reflexivity.
Qed.

Section Guards.
Variable P : Preprocessing.

(** [psc] either returns with "PSC" in the chain or raises with the object
    as it was. *)
Lemma psc_outcome b e o :
  (exists o', psc P b e o = (Ok tt, o') /\ in_chain "PSC" o' = true) \/
  (exists ex, psc P b e o = (Raise ex, o)).
Proof.
  unfold psc, bind, self, lift, ret. cbv beta.
  destruct (in_chain "PSC" o) eqn:Ein; [left; exists o; auto |].
  destruct (psc_baseline b e o) as [base | ex]; [| right; exists ex; reflexivity].
  destruct (fit_on (new (PSCScaler P)) base) as [t | ex];
    [| right; exists ex; reflexivity].
  destruct (_transform_cases t "PSC" o) as [(s & X & E & _) | (ex & E)]; rewrite E.
  - left. eexists. split; [reflexivity |].
    apply (in_chain_appended "PSC" o (set_tdata (Owned X))).
  - right. exists ex. reflexivity.
Qed.

Lemma detrend_outcome order keep_mean o :
  (exists o', detrend P order keep_mean o = (Ok tt, o') /\ in_chain "Detrend" o' = true) \/
  (exists ex, detrend P order keep_mean o = (Raise ex, o)).
Proof.
  unfold detrend, bind, self, ret. cbv beta zeta.
  destruct (in_chain "Detrend" o) eqn:Ein; [left; exists o; auto |].
  destruct (_transform_cases (new (Detrender P order)) "Detrend" o)
    as [(s & X & E & _) | (ex & E)]; rewrite E.
  - left. destruct keep_mean; eexists; (split; [reflexivity |]).
    + unfold iadd_tdata. simpl.
      apply (in_chain_appended "Detrend" o
               (fun o => set_tdata (Owned (add_rowwise X (mean0 (tdata_of o)))) o)).
    + apply (in_chain_appended "Detrend" o (set_tdata (Owned X))).
  - right. exists ex. reflexivity.
Qed.

Lemma psc_guard b e o : in_chain "PSC" o = true -> psc P b e o = (Ok tt, o).
Proof. intros H. unfold psc, bind, self. now rewrite H. Qed.

Lemma detrend_guard order keep_mean o :
  in_chain "Detrend" o = true -> detrend P order keep_mean o = (Ok tt, o).
Proof. intros H. unfold detrend, bind, self. now rewrite H. Qed.
End Guards.

(** C5: once "PSC" (resp. "Detrend") is in the transformation chain, [psc]
    (resp. [detrend]) returns without raising and leaves the whole object,
    hence [tdata], [grid], [sampling_rate] and the chain, as it was; a call
    that returned has put its name in the chain, so a second call changes
    nothing; and the object after two calls in a row is the object after
    one. *)
Theorem psc_detrend_reapplied_noop (P : Preprocessing) (o o1 : Oscillation)
    (b e b' e' : pyfloat) (order order' : Z) (keep keep' : bool) :
  (in_chain "PSC" o = true -> psc P b e o = (Ok tt, o)) /\
  (in_chain "Detrend" o = true -> detrend P order keep o = (Ok tt, o)) /\
  (psc P b e o = (Ok tt, o1) -> psc P b' e' o1 = (Ok tt, o1)) /\
  (detrend P order keep o = (Ok tt, o1) -> detrend P order' keep' o1 = (Ok tt, o1)) /\
  after P (Psc b e) (after P (Psc b e) o) = after P (Psc b e) o /\
  after P (Detrend order keep) (after P (Detrend order keep) o)
  = after P (Detrend order keep) o.
Proof.
  split; [apply psc_guard |]. split; [apply detrend_guard |].
  split; [| split; [| split]].
  - intros H. apply psc_guard.
    destruct (psc_outcome P b e o) as [(o' & E & Hin) | (ex & E)]; congruence.
  - intros H. apply detrend_guard.
    destruct (detrend_outcome P order keep o) as [(o' & E & Hin) | (ex & E)]; congruence.
  - unfold after. simpl.
    destruct (psc_outcome P b e o) as [(o' & E & Hin) | (ex & E)]; rewrite E; simpl.
    + now rewrite (psc_guard P b e o' Hin).
    + now rewrite E.
  - unfold after. simpl.
    destruct (detrend_outcome P order keep o) as [(o' & E & Hin) | (ex & E)];
      rewrite E; simpl.
    + now rewrite (detrend_guard P order keep o' Hin).
    + now rewrite E.
Qed.

Lemma psc_detrend_reapplied_noop_witness :
  in_chain "PSC"
    (after_all Model.preprocessing [Psc (Fin 0) PInf; Detrend 0 true] Model.sample) = true /\
  psc Model.preprocessing (Fin 1) (Fin 2)
    (after_all Model.preprocessing [Psc (Fin 0) PInf; Detrend 0 true] Model.sample)
  = (Ok tt, after_all Model.preprocessing [Psc (Fin 0) PInf; Detrend 0 true] Model.sample) /\
  in_chain "Detrend"
    (after_all Model.preprocessing [Psc (Fin 0) PInf; Detrend 0 true] Model.sample) = true /\
  detrend Model.preprocessing 3 false
    (after_all Model.preprocessing [Psc (Fin 0) PInf; Detrend 0 true] Model.sample)
  = (Ok tt, after_all Model.preprocessing [Psc (Fin 0) PInf; Detrend 0 true] Model.sample).
Proof.
  pose proof (psc_detrend_reapplied_noop Model.preprocessing
                (after_all Model.preprocessing [Psc (Fin 0) PInf; Detrend 0 true]
                           Model.sample)
                Model.sample (Fin 1) (Fin 2) PInf PInf 3 0 false false)
    as (H1 & H2 & _).
  split; [vm_compute; reflexivity |].
  split; [apply H1; vm_compute; reflexivity |].
  split; [vm_compute; reflexivity |].
  apply H2; vm_compute; reflexivity.
Defined.

(** *** The baseline window of [psc] *)

Lemma slice_index_of_nat {A} (l : list A) : slice_index (Z.of_nat (length l)) (length l) = length l.
Proof.
  unfold slice_index. destruct (Z.ltb_spec (Z.of_nat (length l)) 0); [lia |].
  rewrite Z.min_id. apply Nat2Z.id.
Qed.

Lemma slice_whole {A} (l : list A) : slice 0 (Z.of_nat (length l)) l = l.
Proof.
  unfold slice. rewrite slice_index_of_nat.
  change (slice_index 0 (length l)) with (Z.to_nat (Z.min 0 (Z.of_nat (length l)))).
  replace (Z.to_nat (Z.min 0 (Z.of_nat (length l)))) with O by lia.
  simpl. rewrite Nat.sub_0_r. apply firstn_all.
Qed.

Lemma slice_zero_length {A} (a : Z) (l : list A) :
  slice a (Z.min a (Z.of_nat (length l))) l = [].
Proof.
  unfold slice.
  replace (slice_index (Z.min a (Z.of_nat (length l))) (length l))
    with (slice_index a (length l)).
  - now rewrite Nat.sub_diag.
  - unfold slice_index.
    destruct (Z.ltb_spec a 0) as [Ea | Ea].
    + replace (Z.min a (Z.of_nat (length l))) with a by lia.
      destruct (Z.ltb_spec a 0); [reflexivity | lia].
    + destruct (Z.ltb_spec (Z.min a (Z.of_nat (length l))) 0); [lia |].
      f_equal. lia.
Qed.

Lemma float_div_finite (q y : Q) :
  ~ y == 0 -> float_div (Fin q) y = Ok (binary64 (q / y)).
Proof.
  intros Hy. unfold float_div. destruct (Qeq_bool y 0) eqn:E; [| reflexivity].
  apply Qeq_bool_iff in E. contradiction.
Qed.

Lemma float_div_infinite (x : pyfloat) (y : Q) :
  ~ y == 0 -> x = PInf \/ x = NInf ->
  exists r, float_div x y = Ok r /\ (r = PInf \/ r = NInf).
Proof.
  intros Hy Hx. unfold float_div. destruct (Qeq_bool y 0) eqn:E.
  - apply Qeq_bool_iff in E. contradiction.
  - destruct Hx as [-> | ->]; destruct (Qlt_bool 0 y); eauto.
Qed.

(** [end_vol] as the [try] of [psc] leaves it: the quotient truncated and
    clipped to the row count, the row count itself when the quotient is
    infinite. *)
Definition clipped_end_vol (end_quotient : pyfloat) (rows : nat) : Z :=
  match end_quotient with
  | Fin q => Z.min (Qtrunc q) (Z.of_nat rows)
  | _ => Z.of_nat rows
  end.

(** C8 (as amended): with a sampling rate other than zero and a finite
    [baseline_begin] whose quotient by the sampling rate is finite, [psc]
    fits its scaler on the rows [begin_vol, end_vol) of [tdata]: [begin_vol]
    is the double [baseline_begin / sampling_rate] truncated, [end_vol] is
    the double [baseline_end / sampling_rate] truncated and clipped to the row
    count.  Only when that quotient is infinite (an infinite [baseline_end],
    or an overflow) does [end_vol] fall back to the row count, which with
    [begin_vol = 0] makes the baseline the entire series.  A zero-length
    window is used as it is: the baseline is empty.  A [baseline_end] that is
    NaN raises [ValueError], which the [try] does not catch. *)
Theorem psc_baseline_window (P : Preprocessing) (o : Oscillation) (b : Q) (e : pyfloat)
    (begin_quotient : Q) :
  ~ sampling_rate o == 0 ->
  binary64 (b / sampling_rate o) = Fin begin_quotient ->
  (forall end_quotient,
      e <> NaN -> float_div e (sampling_rate o) = Ok end_quotient ->
      psc_baseline (Fin b) e o
      = Ok (slice (Qtrunc begin_quotient)
                  (clipped_end_vol end_quotient (shape0 (tdata_of o)))
                  (tdata_of o))) /\
  (e = PInf \/ e = NInf -> Qtrunc begin_quotient = 0%Z ->
   psc_baseline (Fin b) e o = Ok (tdata_of o)) /\
  (forall q end_quotient,
      e = Fin q -> binary64 (q / sampling_rate o) = Fin end_quotient ->
      Qtrunc end_quotient = Qtrunc begin_quotient ->
      psc_baseline (Fin b) e o = Ok []) /\
  (e = NaN -> psc_baseline (Fin b) e o = Raise ValueError) /\
  (in_chain "PSC" o = false ->
   psc P (Fin b) e o
   = match psc_baseline (Fin b) e o with
     | Ok baseline =>
         match fit (PSCScaler P) baseline with
         | Ok s => (_transform (Transformer (PSCScaler P) (Some s)) "PSC" ;; ret tt) o
         | Raise ex => (Raise ex, o)
         end
     | Raise ex => (Raise ex, o)
     end).
Proof.
  intros Hsr Hb.
  assert (Hbegin : psc_begin_vol (Fin b) o = Ok (Qtrunc begin_quotient)).
  { unfold psc_begin_vol. rewrite float_div_finite by exact Hsr. cbn [rbind].
    rewrite Hb. reflexivity. }
  assert (Hmain : forall end_quotient,
             e <> NaN -> float_div e (sampling_rate o) = Ok end_quotient ->
             psc_baseline (Fin b) e o
             = Ok (slice (Qtrunc begin_quotient)
                         (clipped_end_vol end_quotient (shape0 (tdata_of o)))
                         (tdata_of o))).
  { intros end_quotient He Hq. unfold psc_baseline. rewrite Hbegin. cbn [rbind].
    unfold psc_end_vol. rewrite Hq. cbn [rbind].
    destruct end_quotient as [q | | |]; try reflexivity.
    exfalso. unfold float_div in Hq.
    destruct (Qeq_bool (sampling_rate o) 0); [discriminate |].
    destruct e as [q | | |]; try congruence.
    - injection Hq as Hq. unfold binary64 in Hq.
      destruct (Qlt_bool max_double (round64 (q / sampling_rate o))); [discriminate |].
      destruct (Qlt_bool (round64 (q / sampling_rate o)) (- max_double)); discriminate.
    - destruct (Qlt_bool 0 (sampling_rate o)); discriminate.
    - destruct (Qlt_bool 0 (sampling_rate o)); discriminate. }
  split; [exact Hmain |]. split; [| split; [| split]].
  - intros He H0.
    destruct (float_div_infinite e (sampling_rate o) Hsr He) as (r & Er & Hr).
    rewrite (Hmain r) by (destruct He; congruence). rewrite H0.
    destruct Hr as [-> | ->]; unfold clipped_end_vol, shape0; now rewrite slice_whole.
  - intros q end_quotient -> Hq Heq.
    rewrite (Hmain (Fin end_quotient)).
    + unfold clipped_end_vol. rewrite Heq. unfold shape0. now rewrite slice_zero_length.
    + discriminate.
    + rewrite float_div_finite by exact Hsr. now rewrite Hq.
  - intros ->. unfold psc_baseline. rewrite Hbegin. cbn [rbind].
    unfold psc_end_vol, float_div.
    destruct (Qeq_bool (sampling_rate o) 0) eqn:E; [| reflexivity].
    apply Qeq_bool_iff in E. contradiction.
  - intros Hin. unfold psc, bind, self, lift, ret. cbv beta. rewrite Hin.
    destruct (psc_baseline (Fin b) e o) as [baseline | ex]; [| reflexivity].
    unfold fit_on, new. simpl.
    destruct (fit (PSCScaler P) baseline); reflexivity.
Qed.

(** A recording sampled every 0.1 s: the four samples of [Model.sample]
    with the double nearest to 1/10 as sampling rate. *)
Definition tenth : Q := round64 (1 # 10).
Definition sampled_at_tenths : Oscillation := set_sampling_rate tenth Model.sample.

Lemma psc_baseline_window_witness :
  psc_baseline (Fin 0) PInf Model.sample = Ok (tdata_of Model.sample) /\
  psc_baseline (Fin 1) (Fin 3) Model.sample = Ok [[3; 4]; [5; 6]] /\
  psc_baseline (Fin (round64 (3 # 10))) PInf sampled_at_tenths = Ok [[5; 6]; [7; 8]].
Proof.
  assert (Hsr : ~ sampling_rate Model.sample == 0) by discriminate.
  assert (Hsr' : ~ sampling_rate sampled_at_tenths == 0) by discriminate.
  pose proof (psc_baseline_window Model.preprocessing Model.sample 0 PInf 0 Hsr eq_refl)
    as (_ & H & _).
  pose proof (psc_baseline_window Model.preprocessing Model.sample 1 (Fin 3) 1 Hsr eq_refl)
    as (H' & _).
  pose proof (psc_baseline_window Model.preprocessing sampled_at_tenths
                (round64 (3 # 10)) PInf
                (6755399441055743 # 2251799813685248) Hsr' eq_refl)
    as (H'' & _).
  split; [apply H; [left |]; reflexivity |].
  split; [rewrite (H' (Fin 3)); [reflexivity | discriminate | reflexivity] |].
  rewrite (H'' PInf); [reflexivity | discriminate | reflexivity].
Defined.

(** C8, counterexample: on the four-sample recording the zero-length window
    [psc(1, 1)] gives the scaler an empty baseline, not the entire series. *)
Lemma psc_zero_length_baseline_is_empty :
  psc_baseline (Fin 1) (Fin 1) Model.sample = Ok [] /\
  tdata_of Model.sample <> [].
Proof. split; [reflexivity | discriminate]. Qed.

(** At a sampling rate of 0.1 the quotient 0.3 / 0.1 is the double
    2.9999999999999996, so [psc(0.3)] starts its baseline at row 2; the
    quotient 0.5 / 0.1 is 5. *)
Example psc_begin_vol_rounds_then_truncates :
  psc_begin_vol (Fin (round64 (3 # 10))) sampled_at_tenths = Ok 2%Z /\
  psc_begin_vol (Fin (round64 (5 # 10))) sampled_at_tenths = Ok 5%Z.
Proof. split; reflexivity. Qed.

(** With a sampling rate of zero (a Python float, as after construction
    with [tr = 0]) the division that computes [begin_vol] stands outside the
    [try] and its error reaches the caller. *)
Example psc_zero_sampling_rate :
  psc Model.preprocessing (Fin 0) PInf (set_sampling_rate 0 Model.sample)
  = (Raise ZeroDivisionError, set_sampling_rate 0 Model.sample).
Proof. reflexivity. Qed.

(** *** Grid and data stay synchronized *)

(** What the invariant asks of the transformers (spec, section 4.2): the
    channel-wise transforms keep the number of rows, folding into trials does
    not add rows, and the resampler and the spectral transform return as many
    rows as their grid has points. *)
Definition keeps_rows {S} (e : estimator S) : Prop :=
  forall s X Y, transform e s X = Ok Y -> shape0 Y = shape0 X.

Record well_shaped (P : Preprocessing) : Prop := {
  ws_averager : keeps_rows (FeatureAverager P);
  ws_column : forall ts, keeps_rows (ColumnTransformer P ts);
  ws_psc : keeps_rows (PSCScaler P);
  ws_detrender : forall order, keeps_rows (Detrender P order);
  ws_trial : forall n b s X Y,
      transform (TrialAveragingTransformer P n b) s X = Ok Y ->
      (shape0 Y <= shape0 X)%nat;
  ws_grid : forall p sin sout start X s Y,
      fit (PeriodicGridTransformer P p sin sout start) X = Ok s ->
      transform (PeriodicGridTransformer P p sin sout start) s X = Ok Y ->
      shape0 Y = length (target_grid_ P s);
  ws_fft : forall sr X s Y,
      fit (FFTTransformer P sr) X = Ok s ->
      transform (FFTTransformer P sr) s X = Ok Y ->
      shape0 Y = length (freqs_ P s)
}.

(** The invariant: the grid has one point per row of [tdata], and
    [sampling_rate] is the difference of its first two points, as doubles
    subtract. *)
Definition grid_synchronized (o : Oscillation) : Prop :=
  length (grid o) = shape0 (tdata_of o) /\
  ((2 <= length (grid o))%nat ->
   sampling_rate o == round64 (nth 1 (grid o) 0 - nth 0 (grid o) 0)).

Lemma update_sampling_rate_cases o :
  ((length (grid o) < 2)%nat /\ update_sampling_rate o = (Raise IndexError, o)) \/
  ((2 <= length (grid o))%nat /\
   update_sampling_rate o
   = (Ok tt, set_sampling_rate (round64 (nth 1 (grid o) 0 - nth 0 (grid o) 0)) o)).
Proof.
  unfold update_sampling_rate, bind, self, lift, assign, getitem. cbv beta.
  destruct (grid o) as [| g0 [| g1 g]]; cbn [nth_error nth length].
  - left. split; [lia | reflexivity].
  - left. split; [lia | reflexivity].
  - right. split; [lia | reflexivity].
Qed.

Lemma update_sampling_rate_synchronized o :
  length (grid o) = shape0 (tdata_of o) ->
  grid_synchronized (snd (update_sampling_rate o)).
Proof.
  intros Hlen.
  destruct (update_sampling_rate_cases o) as [[Hshort E] | [Hlong E]]; rewrite E;
    cbn [snd].
  - split; [exact Hlen |]. intros Hi. lia.
  - split; [exact Hlen |]. intros _. reflexivity.
Qed.

Lemma nth_map_lt {A B} (f : A -> B) (l : list A) (i : nat) (d : B) (d' : A) :
  (i < length l)%nat -> nth i (map f l) d = f (nth i l d').
Proof.
  revert i. induction l as [| a l IH]; intros [| i] Hi; simpl in *; try lia.
  - reflexivity.
  - apply IH. lia.
Qed.

Lemma length_arange_times n step : length (arange_times n step) = n.
Proof. unfold arange_times. now rewrite length_map, length_seq. Qed.

Lemma nth_arange_times n step i :
  (i < n)%nat ->
  nth i (arange_times n step) 0 = round64 (inject_Z (Z.of_nat i) * step).
Proof.
  intros Hi. unfold arange_times.
  rewrite (nth_map_lt _ _ _ _ O) by (now rewrite length_seq).
  now rewrite seq_nth.
Qed.

(** The first two points of [np.arange(n) * step] are 0 and [step], whose
    difference is [step] again. *)
Lemma arange_times_first_spacing n step :
  is_double step -> (2 <= n)%nat ->
  step == round64 (nth 1 (arange_times n step) 0 - nth 0 (arange_times n step) 0).
Proof.
  intros Hstep Hn. rewrite !nth_arange_times by lia.
  change (inject_Z (Z.of_nat 0)) with 0. change (inject_Z (Z.of_nat 1)) with 1.
  rewrite (round64_zero (0 * step)) by ring.
  rewrite (round64_comp (1 * step) step) by ring.
  rewrite (round64_comp (round64 step - 0) (round64 step)) by ring.
  pose proof (round64_is_double step) as Hi. unfold is_double in Hi, Hstep. lra.
Qed.

Lemma inject_Z_succ (i : nat) : inject_Z (Z.of_nat (S i)) == inject_Z (Z.of_nat i) + 1.
Proof. rewrite Nat2Z.inj_succ. unfold Z.succ. rewrite inject_Z_plus. reflexivity. Qed.

Lemma slice_to_rows {A} (n : nat) (l : list A) :
  slice_to (Z.of_nat n) l = firstn n l.
Proof.
  unfold slice_to, slice_index.
  destruct (Z.ltb_spec (Z.of_nat n) 0); [lia |].
  destruct (Nat.le_gt_cases n (length l)) as [Hle | Hgt].
  - f_equal. lia.
  - replace (Z.to_nat (Z.min (Z.of_nat n) (Z.of_nat (length l)))) with (length l) by lia.
    rewrite firstn_all. symmetry. apply firstn_all2. lia.
Qed.

Definition keeps {A} (c : M A) : Prop :=
  preserves (fun o o' => grid_synchronized o -> grid_synchronized o') c.

Lemma keeps_bind {A B} (c : M A) (k : A -> M B) :
  keeps c -> (forall a, keeps (k a)) -> keeps (bind c k).
Proof. intros Hc Hk. apply preserves_bind; [auto | exact Hc | exact Hk]. Qed.

Lemma keeps_ret {A} (a : A) : keeps (ret a).
Proof. intros o H. exact H. Qed.

Lemma keeps_self : keeps self.
Proof. intros o H. exact H. Qed.

Lemma _transform_keeps {S} (t : transformer S) (id : string) :
  keeps_rows (est t) -> keeps (_transform t id).
Proof.
  intros Hrows o [Hlen Hsp].
  destruct (_transform_cases t id o) as [(s & X & E & HX & _) | (e & E)]; rewrite E; simpl.
  - split; simpl; [| exact Hsp].
    unfold tdata_of. simpl. rewrite Hlen. symmetry. apply (Hrows s _ _ HX).
  - split; assumption.
Qed.

(** [reset] recomputes a synchronized grid when [tr] is a double. *)
Lemma reset_synchronizes o : is_double (tr o) -> grid_synchronized (snd (reset o)).
Proof.
  intros Htr. unfold reset, bind, assign. cbn [snd]. split.
  - cbn [grid set_grid set_emin_emax]. rewrite length_arange_times. reflexivity.
  - cbn [grid set_grid set_emin_emax sampling_rate set_sampling_rate].
    rewrite length_arange_times. intros Hn.
    cbn [data set_transformation_chain set_tdata tr].
    apply arange_times_first_spacing; assumption.
Qed.

Section Synchronized.
Variable P : Preprocessing.
Hypothesis HP : well_shaped P.

Lemma average_keeps : keeps (average P).
Proof.
  unfold average. apply keeps_bind; [apply keeps_self |]. intros o.
  destruct (labels o); cbv zeta.
  - apply keeps_bind; [intros o' H; exact H |]. intros _.
    apply keeps_bind; [| intros _; apply keeps_ret].
    apply _transform_keeps. apply (ws_column P HP).
  - apply keeps_bind; [intros o' H; exact H |]. intros _.
    apply keeps_bind; [| intros _; apply keeps_ret].
    apply _transform_keeps. apply (ws_averager P HP).
Qed.

Lemma psc_keeps b e : keeps (psc P b e).
Proof.
  intros o H. unfold psc, bind, self, lift, ret. cbv beta.
  destruct (in_chain "PSC" o); [exact H |].
  destruct (psc_baseline b e o) as [base | ex]; [| exact H].
  unfold fit_on, new. simpl.
  destruct (fit (PSCScaler P) base) as [s | ex]; simpl; [| exact H].
  pose proof (_transform_keeps (Transformer (PSCScaler P) (Some s)) "PSC"
                (ws_psc P HP) o H) as H'.
  destruct (_transform (Transformer (PSCScaler P) (Some s)) "PSC" o) as [[r | ex] o'];
    exact H'.
Qed.

Lemma detrend_keeps order keep_mean : keeps (detrend P order keep_mean).
Proof.
  intros o H. unfold detrend, bind, self, ret. cbv beta zeta.
  destruct (in_chain "Detrend" o); [exact H |].
  destruct H as [Hlen Hsp].
  destruct (_transform_cases (new (Detrender P order)) "Detrend" o)
    as [(s & X & E & HX & _) | (ex & E)]; rewrite E; [| split; assumption].
  pose proof (ws_detrender P HP order s _ _ HX) as Hrows.
  destruct keep_mean; simpl; (split; simpl; [| exact Hsp]).
  - unfold iadd_tdata, add_rowwise. simpl. unfold tdata_of at 1. simpl.
    unfold shape0 at 1. rewrite length_map. fold (shape0 X). now rewrite Hrows.
  - unfold tdata_of at 1. simpl. now rewrite Hrows.
Qed.

Lemma trial_average_keeps bootstrap : keeps (trial_average P bootstrap).
Proof.
  intros o [Hlen Hsp]. unfold trial_average, bind at 1 2, self. cbv beta zeta.
  destruct (_transform_cases (new (TrialAveragingTransformer P (n_trials o) bootstrap))
                             "Trial Average" o)
    as [(s & X & E & HX & _) | (ex & E)]; rewrite E; [| split; assumption].
  pose proof (ws_trial P HP _ _ s _ _ HX) as Hrows.
  set (o1 := set_transformation_chain _ _).
  assert (Hgo :
    forall o2, grid o2 = grid o -> tdata_of o2 = X ->
    grid_synchronized
      (snd ((assign (fun o => set_grid (slice_to (Z.of_nat (shape0 (tdata_of o))) (grid o)) o)
             ;; update_sampling_rate) o2))).
  { intros o2 Hg Ht. unfold bind at 1, assign.
    apply update_sampling_rate_synchronized; simpl.
    change (tdata_of (set_grid ?g o2)) with (tdata_of o2).
    rewrite Ht, Hg, slice_to_rows, length_firstn. lia. }
  destruct bootstrap; unfold bind at 1, assign, ret; apply Hgo; reflexivity.
Qed.

Lemma interp_keeps target_sampling_out : keeps (interp P target_sampling_out).
Proof.
  intros o [Hlen Hsp]. unfold interp, bind at 1 2, self. cbv beta zeta.
  destruct (_transform_cases
              (new (PeriodicGridTransformer P (period o) (tr o) target_sampling_out
                                            (offset o)))
              "Crop and Interpolate" o)
    as [(s & X & E & HX & Hfit) | (ex & E)]; rewrite E; [| split; assumption].
  destruct Hfit as [Hfit | [_ Hfit]]; [discriminate Hfit |].
  pose proof (ws_grid P HP _ _ _ _ _ _ _ Hfit HX) as Hrows.
  unfold bind at 1, assign.
  apply update_sampling_rate_synchronized; simpl.
  rewrite length_map. unfold tdata_of. simpl. now rewrite Hrows.
Qed.

Lemma fft_keeps : keeps (fft P).
Proof.
  intros o [Hlen Hsp]. unfold fft, bind at 1 2, self. cbv beta zeta.
  destruct (_transform_cases (new (FFTTransformer P (sampling_rate o))) "FFT" o)
    as [(s & X & E & HX & Hfit) | (ex & E)]; rewrite E; [| split; assumption].
  destruct Hfit as [Hfit | [_ Hfit]]; [discriminate Hfit |].
  pose proof (ws_fft P HP _ _ _ _ Hfit HX) as Hrows.
  unfold bind at 1, assign.
  apply update_sampling_rate_synchronized; simpl.
  unfold tdata_of. simpl. now rewrite Hrows.
Qed.

(** The recipe after its [reset]. *)
Lemma recipe_keeps :
  keeps (interp P (1 # 10) ;; psc P (Fin 0) PInf ;; average P ;; trial_average P true ;;
         o <- self ;; ret (squeeze (tdata_of o))).
Proof.
  apply keeps_bind; [apply interp_keeps | intros _].
  apply keeps_bind; [apply psc_keeps | intros _].
  apply keeps_bind; [apply average_keeps | intros _].
  apply keeps_bind; [apply trial_average_keeps | intros _].
  apply keeps_bind; [apply keeps_self | intros ?; apply keeps_ret].
Qed.

Lemma perform_synchronized c o :
  is_double (tr o) -> grid_synchronized o -> grid_synchronized (after P c o).
Proof.
  intros Htr H. unfold after. destruct c; cbn [perform].
  - apply reset_synchronizes. exact Htr.
  - exact H.
  - apply average_keeps. exact H.
  - apply psc_keeps. exact H.
  - apply detrend_keeps. exact H.
  - apply trial_average_keeps. exact H.
  - apply interp_keeps. exact H.
  - apply fft_keeps. exact H.
  - change ((preprocess P ;; ret tt) o)
      with (((interp P (1 # 10) ;; psc P (Fin 0) PInf ;; average P ;;
              trial_average P true ;; o <- self ;; ret (squeeze (tdata_of o))) ;; ret tt)
              (snd (reset o))).
    apply (keeps_bind _ (fun _ => ret tt) recipe_keeps (fun _ => keeps_ret tt)).
    apply reset_synchronizes. exact Htr.
Qed.

Lemma history_synchronized cs :
  forall o, is_double (tr o) -> grid_synchronized o ->
            Forall grid_synchronized (history P cs o).
Proof.
  induction cs as [| c cs IH]; intros o Htr H; simpl; constructor.
  - apply (perform_synchronized c o Htr H).
  - apply IH.
    + destruct (perform_same_inputs P c o) as (E & _). unfold after. now rewrite E.
    + apply (perform_synchronized c o Htr H).
Qed.
End Synchronized.

(** The transformers modelled from the specification have the shapes the
    invariant asks for. *)
Lemma model_well_shaped : well_shaped Model.preprocessing.
Proof.
  constructor; simpl.
  - intros s X Y H. injection H as <-. unfold shape0. now rewrite length_map.
  - intros ts s X Y H. unfold Model.ColumnTransformer in H. simpl in H.
    destruct (collect _) as [outs | ex]; simpl in H; [| discriminate].
    injection H as <-. unfold shape0. now rewrite length_map, length_seq.
  - intros s X Y H. injection H as <-. unfold shape0. now rewrite length_map.
  - intros order s X Y H. injection H as <-. unfold shape0. now rewrite length_map.
  - intros n b s X Y H.
    destruct (Z.ltb_spec n 1) as [Hn | Hn]; [discriminate |].
    injection H as <-. unfold Model.fold_trials, shape0.
    rewrite length_map, length_seq.
    apply Nat.Div0.div_le_upper_bound.
    replace (length X) with (1 * length X)%nat at 1 by lia.
    apply Nat.mul_le_mono_r. lia.
  - intros p sin sout start X s Y Hfit H.
    injection H as <-. unfold shape0. now rewrite length_map.
  - intros sr X s Y Hfit H.
    destruct (Qeq_bool sr 0 || Nat.eqb (length X) 0); [discriminate |].
    injection Hfit as <-. injection H as <-.
    unfold shape0. now rewrite !length_map, !length_seq.
Qed.




(** The recipe and a spectrum on the model: resampled at 0.5 s, folded into
    one trial, then three frequency bins for four samples. *)
Example history_on_model :
  map (fun o => (length (grid o), shape0 (tdata_of o), Qred (sampling_rate o)))
      (history Model.preprocessing
               [Interp (1 # 2); Psc (Fin 0) PInf; Average; TrialAverage true; Fft]
               Model.sample)
  = [(4, 4, 1 # 2); (4, 4, 1 # 2); (4, 4, 1 # 2); (4, 4, 1 # 2); (3, 3, 1 # 2)]%nat.
Proof. vm_compute. reflexivity. Qed.

(** ** Delay estimation *)

Lemma collect_map_Ok {A B} (f : A -> result B) (g : A -> B) (l : list A) :
  (forall x, In x l -> f x = Ok (g x)) -> collect (map f l) = Ok (map g l).
Proof.
  induction l as [| a l IH]; intros H; simpl; [reflexivity |].
  rewrite (H a) by (now left). simpl.
  rewrite IH by (intros x Hx; apply H; now right). reflexivity.
Qed.

(** [argmax_from] continues a scan: [seen] is what was read so far, [best] its
    maximum and [best_i] the first place it stands at. *)
Lemma argmax_from_scan (l : list Q) :
  forall (seen : list Q) (best_i : nat) (best : Q),
    (best_i < length seen)%nat ->
    nth best_i seen 0 = best ->
    (forall j, (j < length seen)%nat -> nth j seen 0 <= best) ->
    (forall j, (j < best_i)%nat -> nth j seen 0 < best) ->
    let k := argmax_from best_i best (length seen) l in
    (k < length (seen ++ l))%nat /\
    (forall j, (j < length (seen ++ l))%nat -> nth j (seen ++ l) 0 <= nth k (seen ++ l) 0) /\
    (forall j, (j < k)%nat -> nth j (seen ++ l) 0 < nth k (seen ++ l) 0).
Proof.
  induction l as [| x l IH]; intros seen best_i best Hi Hbest Hmax Hfirst; simpl.
  - rewrite app_nil_r, Hbest. auto.
  - assert (Hlen : length (seen ++ [x]) = S (length seen))
      by (rewrite length_app; simpl; lia).
    replace (seen ++ x :: l) with ((seen ++ [x]) ++ l)
      by (rewrite <- app_assoc; reflexivity).
    destruct (Qlt_bool best x) eqn:E.
    + apply Qlt_bool_iff in E.
      specialize (IH (seen ++ [x]) (length seen) x). rewrite Hlen in IH.
      apply IH.
      * lia.
      * rewrite app_nth2 by lia. now rewrite Nat.sub_diag.
      * intros j Hj. destruct (Nat.eq_dec j (length seen)) as [-> | Hne].
        -- rewrite app_nth2 by lia. rewrite Nat.sub_diag. simpl. lra.
        -- rewrite app_nth1 by lia. specialize (Hmax j ltac:(lia)). lra.
      * intros j Hj. rewrite app_nth1 by lia. specialize (Hmax j Hj). lra.
    + assert (E' : x <= best).
      { destruct (Qlt_le_dec best x) as [H | H]; [| exact H].
        apply Qlt_bool_iff in H. congruence. }
      specialize (IH (seen ++ [x]) best_i best). rewrite Hlen in IH.
      apply IH.
      * lia.
      * rewrite app_nth1 by lia. exact Hbest.
      * intros j Hj. destruct (Nat.eq_dec j (length seen)) as [-> | Hne].
        -- rewrite app_nth2 by lia. rewrite Nat.sub_diag. simpl. exact E'.
        -- rewrite app_nth1 by lia. apply Hmax. lia.
      * intros j Hj. rewrite app_nth1 by lia. apply Hfirst. exact Hj.
Qed.

(** [argmax] returns the first index of a maximum. *)
Lemma argmax_first_maximum (l : list Q) :
  l <> [] ->
  exists k, argmax l = Ok k /\ (k < length l)%nat /\
            (forall j, (j < length l)%nat -> nth j l 0 <= nth k l 0) /\
            (forall j, (j < k)%nat -> nth j l 0 < nth k l 0).
Proof.
  destruct l as [| x l]; [congruence |]. intros _.
  exists (argmax_from 0 x 1 l). split; [reflexivity |].
  apply (argmax_from_scan l [x] O x).
  - simpl. lia.
  - reflexivity.
  - intros [| j] Hj; simpl in *; [lra | lia].
  - intros j Hj. lia.
Qed.

Lemma length_range n : length (range n) = Z.to_nat n.
Proof. unfold range. now rewrite length_map, length_seq. Qed.

Lemma length_range2 a b : length (range2 a b) = Z.to_nat (b - a).
Proof. unfold range2. now rewrite length_map, length_range. Qed.

Lemma nth_range2 a b i :
  (i < Z.to_nat (b - a))%nat -> nth i (range2 a b) 0%Z = (a + Z.of_nat i)%Z.
Proof.
  intros Hi. unfold range2, range.
  rewrite (nth_map_lt _ _ _ _ 0%Z) by (now rewrite length_map, length_seq).
  rewrite (nth_map_lt _ _ _ _ O) by (now rewrite length_seq).
  now rewrite seq_nth.
Qed.

(** [range(a, b)] lists exactly the integers from [a] up to [b - 1]. *)
Lemma in_range2 a b s : In s (range2 a b) <-> (a <= s < b)%Z.
Proof.
  unfold range2, range. rewrite in_map_iff. split.
  - intros (i & <- & Hi). apply in_map_iff in Hi. destruct Hi as (n & <- & Hn).
    apply in_seq in Hn. lia.
  - intros Hs. exists (s - a)%Z. split; [lia |].
    apply in_map_iff. exists (Z.to_nat (s - a)). split; [lia |].
    apply in_seq. lia.
Qed.

Lemma length_transpose m : length (transpose m) = shape1 m.
Proof. unfold transpose. now rewrite length_map, length_seq. Qed.

Lemma transpose_row_length m r : In r (transpose m) -> length r = length m.
Proof.
  unfold transpose. rewrite in_map_iff. intros (j & <- & _).
  unfold column. apply length_map.
Qed.

Lemma shape1_transpose m : (1 <= shape1 m)%nat -> shape1 (transpose m) = length m.
Proof.
  intros H. unfold transpose.
  destruct (shape1 m) as [| n] eqn:E; [lia |]. simpl.
  unfold column. apply length_map.
Qed.

Lemma length_roll b k : length (roll b k) = length b.
Proof. unfold roll. now rewrite length_map, length_seq. Qed.

Lemma rectify_shape m :
  length (rectify m) = length m /\ shape1 (rectify m) = shape1 m.
Proof.
  unfold rectify. split; [apply length_map |].
  destruct m as [| r m]; simpl; [reflexivity | apply length_map].
Qed.

Section DelayProperties.
Variable sqrt : Q -> Q.

Lemma length_standardize c : length (standardize sqrt c) = length c.
Proof. unfold standardize. apply length_map. Qed.

Lemma scaled_signal_shape (arr : matrix) (rect_data : bool) :
  (1 <= shape0 arr)%nat -> (1 <= shape1 arr)%nat ->
  exists A,
    StandardScaler_fit_transform sqrt arr = Ok A /\
    length (transpose (if rect_data then rectify A else A)) = shape1 arr /\
    forall r, In r (transpose (if rect_data then rectify A else A)) ->
              length r = shape0 arr.
Proof.
  intros H0 H1.
  set (M := map (standardize sqrt) (transpose arr)).
  assert (HM : length M = shape1 arr)
    by (unfold M; now rewrite length_map, length_transpose).
  assert (HM1 : shape1 M = shape0 arr).
  { unfold M, transpose. destruct (shape1 arr) as [| n]; [lia |]. simpl.
    rewrite length_standardize. unfold column. apply length_map. }
  exists (transpose M). split.
  - unfold StandardScaler_fit_transform.
    destruct (shape0 arr) as [| n0]; [lia |].
    destruct (shape1 arr) as [| n1]; [lia |]. reflexivity.
  - assert (HA : length (transpose M) = shape0 arr)
      by (now rewrite length_transpose).
    assert (HA1 : shape1 (transpose M) = shape1 arr)
      by (rewrite shape1_transpose by lia; exact HM).
    destruct (rectify_shape (transpose M)) as [HR HR1].
    destruct rect_data; split.
    + rewrite length_transpose. congruence.
    + intros r Hr. apply transpose_row_length in Hr. congruence.
    + rewrite length_transpose. exact HA1.
    + intros r Hr. apply transpose_row_length in Hr. congruence.
Qed.

Lemma scaled_reference (reference : list Q) (scaleref : bool) :
  reference <> [] ->
  exists b, (if negb scaleref then Ok reference else scale sqrt reference) = Ok b /\
            length b = length reference.
Proof.
  intros H. destruct scaleref; simpl.
  - exists (standardize sqrt reference). split; [| apply length_standardize].
    destruct reference; [congruence | reflexivity].
  - exists reference. auto.
Qed.

Lemma correlate_Ok (a : matrix) (b : list Q) :
  (forall r, In r a -> length r = length b) ->
  exists v, correlate sqrt a b = Ok v /\ length v = length a.
Proof.
  intros Hrows. unfold correlate.
  set (bc := map (fun x => x - mean b) b).
  set (ac := map (fun r => map (fun x => x - mean r) r) a).
  rewrite (collect_map_Ok (fun r => dot r bc)
             (fun r => Qsum (map (fun p => fst p * snd p) (combine r bc)))).
  - simpl. eexists. split; [reflexivity |].
    rewrite length_map, length_combine, !length_map. unfold ac.
    rewrite length_map. lia.
  - intros r Hr. unfold ac in Hr. apply in_map_iff in Hr. destruct Hr as (r0 & <- & Hr0).
    unfold dot, bc. rewrite !length_map, (Hrows r0 Hr0), Nat.eqb_refl. reflexivity.
Qed.
End DelayProperties.

(** [np.argmax(corrs, 0)]: for each column the first row holding its maximum. *)
Lemma argmax0_first_maximum (corrs : matrix) :
  corrs <> [] ->
  exists best,
    argmax0 corrs = Ok best /\ length best = shape1 corrs /\
    forall j, (j < shape1 corrs)%nat ->
      (nth j best O < length corrs)%nat /\
      (forall i, (i < length corrs)%nat ->
                 nth i (column j corrs) 0 <= nth (nth j best O) (column j corrs) 0) /\
      (forall i, (i < nth j best O)%nat ->
                 nth i (column j corrs) 0 < nth (nth j best O) (column j corrs) 0).
Proof.
  intros Hne.
  set (K := fun j => match argmax (column j corrs) with Ok k => k | Raise _ => O end).
  assert (HK : forall j, argmax (column j corrs) = Ok (K j) /\
                         (K j < length corrs)%nat /\
                         (forall i, (i < length corrs)%nat ->
                                    nth i (column j corrs) 0 <= nth (K j) (column j corrs) 0) /\
                         (forall i, (i < K j)%nat ->
                                    nth i (column j corrs) 0 < nth (K j) (column j corrs) 0)).
  { intros j. destruct (argmax_first_maximum (column j corrs)) as (k & E & Hk).
    - unfold column. destruct corrs; [congruence | discriminate].
    - unfold K. rewrite E. unfold column in Hk at 1 2. rewrite length_map in Hk.
      split; [reflexivity | exact Hk]. }
  exists (map K (seq 0 (shape1 corrs))). split; [| split].
  - unfold argmax0. destruct corrs as [| c cs]; [congruence |].
    apply collect_map_Ok. intros j _. apply HK.
  - now rewrite length_map, length_seq.
  - intros j Hj.
    rewrite (nth_map_lt K _ _ _ O) by (now rewrite length_seq).
    rewrite seq_nth by exact Hj. simpl. apply HK.
Qed.

(** The second channel is the reference one sample late: its delay is one
    sampling interval, that of the first channel is zero. *)
Example find_delay_on_shifted_copy :
  find_delay Model.sqrt Model.two_channels Model.reference 2 (1 # 10)
             false false
  = Ok [- (inject_Z 0 * (1 # 10)); - (inject_Z (- 1) * (1 # 10))].
Proof. vm_compute. reflexivity. Qed.

(** ** Delay estimation on NumPy's numbers *)

Section NumPyProperties.
Import NumPy.
Variable K : Kernel.
Variable StandardScaler_fit_transform : list (list (num K)) -> result (list (list (num K))).
Hypothesis HK : lawful K.
Hypothesis Hscaler : keeps_shape K StandardScaler_fit_transform.

Lemma combine_map_map {A B C} (f : A -> B) (g : A -> C) (l : list A) :
  combine (map f l) (map g l) = map (fun x => (f x, g x)) l.
Proof. induction l as [| x l IH]; simpl; [| rewrite IH]; reflexivity. Qed.

Lemma length_centered (r : list (num K)) : length (centered K r) = length r.
Proof. unfold centered. apply length_map. Qed.

(** Rolling by [- s] is the circular shift by [- s]. *)
Lemma roll_is_shifted (b : list (num K)) (s : Z) : roll K b (- s) = shifted K b s.
Proof.
  unfold roll, shifted. apply map_ext. intros i.
  replace (Z.of_nat i - - s)%Z with (Z.of_nat i + s)%Z by lia. reflexivity.
Qed.

(** On rows as long as [b], [correlate] is the Pearson correlation of each
    row with [b]. *)
Lemma correlate_is_pearson (a : list (list (num K))) (b : list (num K)) :
  (forall r, In r a -> length r = length b) ->
  correlate K a b = Ok (map (fun r => pearson K r b) a).
Proof.
  intros Hrows. unfold correlate.
  rewrite (collect_map_Ok _ (fun r => dot K r (centered K b))).
  - cbn [rbind]. f_equal. rewrite !map_map, combine_map_map, !map_map.
    apply map_ext. intros r. cbn [fst snd].
    rewrite (dot_single K HK). reflexivity.
  - intros r Hr. apply in_map_iff in Hr. destruct Hr as (r0 & <- & Hr0).
    now rewrite !length_centered, (Hrows r0 Hr0), Nat.eqb_refl.
Qed.

Lemma length_transpose_width (m : list (list (num K))) :
  length (transpose K m) = width K m.
Proof. unfold transpose. now rewrite length_map, length_seq. Qed.

Lemma transpose_rows (m : list (list (num K))) r :
  In r (transpose K m) -> length r = length m.
Proof.
  unfold transpose. rewrite in_map_iff. intros (j & <- & _).
  unfold column. apply length_map.
Qed.

Lemma nth_transpose (m : list (list (num K))) j :
  (j < width K m)%nat -> nth j (transpose K m) [] = column K j m.
Proof.
  intros Hj. unfold transpose.
  rewrite (nth_map_lt _ _ _ _ O) by (now rewrite length_seq).
  now rewrite seq_nth.
Qed.

Lemma rectangular_width (m : list (list (num K))) rows cols :
  (1 <= rows)%nat -> rectangular K m rows cols -> width K m = cols.
Proof.
  intros Hr [Hlen Hrows]. destruct m as [| r m]; simpl in *; [lia |].
  apply Hrows. now left.
Qed.

Lemma rectify_rectangular (m : list (list (num K))) rows cols :
  rectangular K m rows cols -> rectangular K (rectify K m) rows cols.
Proof.
  intros [Hlen Hrows]. unfold rectify. split; [now rewrite length_map |].
  intros r Hr. apply in_map_iff in Hr. destruct Hr as (r0 & <- & Hr0).
  rewrite length_map. now apply Hrows.
Qed.

Lemma concat_single_columns (m : list (list (num K))) rows :
  rectangular K m rows 1 -> length (concat m) = rows.
Proof.
  intros [Hlen Hrows]. subst rows.
  induction m as [| r m IH]; simpl; [reflexivity |].
  rewrite length_app, (Hrows r) by (now left).
  rewrite IH by (intros r' Hr'; apply Hrows; now right). reflexivity.
Qed.

(** The scaled reference is as long as the reference. *)
Lemma scaled_reference_length (reference b : list (num K)) (scaleref : bool) :
  (if negb scaleref then Ok reference
   else scale K StandardScaler_fit_transform reference) = Ok b ->
  length b = length reference.
Proof.
  destruct scaleref; simpl.
  - unfold scale.
    destruct (StandardScaler_fit_transform (map (fun v => [v]) reference))
      as [m | e] eqn:E; simpl; [| discriminate].
    intros [= <-]. apply concat_single_columns.
    apply (Hscaler (map (fun v => [v]) reference)); [| exact E].
    split; [apply length_map |].
    intros r Hr. apply in_map_iff in Hr. now destruct Hr as (v & <- & _).
  - now intros [= <-].
Qed.

(** The scan of [argmax_from]: [seen] is what was read so far.  Either
    [best] is the first NaN of [seen], or [seen] holds no NaN, [best] is its
    maximum and [best_i] the first place it stands at. *)
Definition first_nan (l : list (num K)) (k : nat) : Prop :=
  isnan K (nth k l (zero K)) = true /\
  forall j, (j < k)%nat -> isnan K (nth j l (zero K)) = false.

Definition first_maximum (l : list (num K)) (k : nat) : Prop :=
  forall j, (j < length l)%nat ->
    isnan K (nth j l (zero K)) = false /\
    le K (nth j l (zero K)) (nth k l (zero K)) = true /\
    ((j < k)%nat -> le K (nth k l (zero K)) (nth j l (zero K)) = false).

Lemma numpy_argmax_from_scan (l : list (num K)) :
  forall (seen : list (num K)) (best_i : nat),
    (best_i < length seen)%nat ->
    first_nan seen best_i \/ first_maximum seen best_i ->
    let k := argmax_from K best_i (nth best_i seen (zero K)) (length seen) l in
    (k < length (seen ++ l))%nat /\
    (first_nan (seen ++ l) k \/ first_maximum (seen ++ l) k).
Proof.
  induction l as [| x l IH]; intros seen best_i Hi Hinv; cbn zeta.
  - cbn [argmax_from]. rewrite app_nil_r. auto.
  - cbn [argmax_from].
    assert (Hpre : forall j, (j < length seen)%nat ->
                             nth j (seen ++ x :: l) (zero K) = nth j seen (zero K))
      by (intros j Hj; now apply app_nth1).
    destruct (isnan K (nth best_i seen (zero K))) eqn:Enan.
    + split; [rewrite length_app; lia |]. left.
      destruct Hinv as [[_ Hbefore] | Hmax].
      * split; [now rewrite Hpre |].
        intros j Hj. rewrite Hpre by lia. now apply Hbefore.
      * destruct (Hmax best_i Hi) as [Hn _]. congruence.
    + destruct Hinv as [[Hn _] | Hmax]; [congruence |].
      assert (Hstep : seen ++ x :: l = (seen ++ [x]) ++ l)
        by (now rewrite <- app_assoc).
      assert (Hlen : S (length seen) = length (seen ++ [x]))
        by (rewrite length_app; simpl; lia).
      assert (Hx : nth (length seen) (seen ++ [x]) (zero K) = x)
        by (rewrite app_nth2 by lia; now rewrite Nat.sub_diag).
      assert (Hold : forall j, (j < length seen)%nat ->
                               nth j (seen ++ [x]) (zero K) = nth j seen (zero K))
        by (intros j Hj; now apply app_nth1).
      destruct (le K x (nth best_i seen (zero K))) eqn:Ele.
      * assert (H : first_nan (seen ++ [x]) best_i \/ first_maximum (seen ++ [x]) best_i);
          [| pose proof (IH (seen ++ [x]) best_i ltac:(lia) H) as R; cbn zeta in R;
             rewrite (Hold best_i Hi), <- Hlen, <- Hstep in R; exact R].
        right. intros j Hj. rewrite <- Hlen in Hj. rewrite (Hold best_i Hi).
        destruct (Nat.eq_dec j (length seen)) as [-> | Hne].
        -- rewrite Hx. split; [apply (le_nan K HK _ _ Ele) |]. split; [exact Ele | lia].
        -- rewrite Hold by lia. apply Hmax. lia.
      * assert (H : first_nan (seen ++ [x]) (length seen) \/
                    first_maximum (seen ++ [x]) (length seen));
          [| pose proof (IH (seen ++ [x]) (length seen) ltac:(lia) H) as R; cbn zeta in R;
             rewrite Hx, <- Hlen, <- Hstep in R; exact R].
        destruct (isnan K x) eqn:Ex.
        -- left. split; [now rewrite Hx |].
           intros j Hj. rewrite Hold by exact Hj. now apply Hmax.
        -- right. intros j Hj. rewrite <- Hlen in Hj. rewrite Hx.
           destruct (Nat.eq_dec j (length seen)) as [-> | Hne].
           ++ rewrite Hx. split; [exact Ex |]. split; [| lia].
              unfold isnan in Ex. now apply negb_false_iff in Ex.
           ++ rewrite Hold by lia.
              destruct (Hmax j ltac:(lia)) as (Hj1 & Hj2 & _).
              split; [exact Hj1 |].
              assert (Hbx : le K (nth best_i seen (zero K)) x = true).
              { destruct (le_total K HK x (nth best_i seen (zero K)) Ex Enan); congruence. }
              split; [exact (le_trans K HK _ _ _ Hj2 Hbx) |].
              intros _. destruct (le K x (nth j seen (zero K))) eqn:E; [| reflexivity].
              pose proof (le_trans K HK _ _ _ E Hj2). congruence.
Qed.

Lemma numpy_argmax_first (l : list (num K)) :
  l <> [] ->
  exists k, argmax K l = Ok k /\ (k < length l)%nat /\
            (first_nan l k \/ first_maximum l k).
Proof.
  destruct l as [| x l]; [congruence |]. intros _.
  exists (argmax_from K 0 x 1 l). split; [reflexivity |].
  apply (numpy_argmax_from_scan l [x] O); [simpl; lia |].
  destruct (isnan K x) eqn:Ex.
  - left. split; [exact Ex | intros j Hj; lia].
  - right. intros [| j] Hj; simpl in *; [| lia].
    split; [exact Ex |]. split; [| lia].
    unfold isnan in Ex. now apply negb_false_iff in Ex.
Qed.

Lemma numpy_argmax0_first (corrs : list (list (num K))) :
  corrs <> [] ->
  exists best,
    argmax0 K corrs = Ok best /\ length best = width K corrs /\
    forall j, (j < width K corrs)%nat ->
      (nth j best O < length corrs)%nat /\
      (first_nan (column K j corrs) (nth j best O) \/
       first_maximum (column K j corrs) (nth j best O)).
Proof.
  intros Hne.
  set (B := fun j => match argmax K (column K j corrs) with Ok k => k | Raise _ => O end).
  assert (HB : forall j, argmax K (column K j corrs) = Ok (B j) /\
                         (B j < length corrs)%nat /\
                         (first_nan (column K j corrs) (B j) \/
                          first_maximum (column K j corrs) (B j))).
  { intros j. destruct (numpy_argmax_first (column K j corrs)) as (k & E & Hk & Hs).
    - unfold column. destruct corrs; [congruence | discriminate].
    - unfold B. rewrite E. unfold column in Hk. rewrite length_map in Hk. auto. }
  exists (map B (seq 0 (width K corrs))). split; [| split].
  - unfold argmax0. destruct corrs as [| c cs]; [congruence |].
    apply collect_map_Ok. intros j _. apply HB.
  - now rewrite length_map, length_seq.
  - intros j Hj.
    rewrite (nth_map_lt B _ _ _ O) by (now rewrite length_seq).
    rewrite seq_nth by exact Hj. simpl. apply HB.
Qed.

End NumPyProperties.

Lemma fle_refl_cases (x : pyfloat) : fle x x = negb (match x with NaN => true | _ => false end).
Proof.
  destruct x as [a | | |]; simpl; try reflexivity.
  apply Qle_bool_iff. apply Qle_refl.
Qed.

Lemma float64_lawful : NumPy.lawful NumPy.float64.
Proof.
  split.
  - intros x y H. unfold NumPy.isnan. cbn [NumPy.le NumPy.float64] in *.
    rewrite !fle_refl_cases. destruct x, y; simpl in *; auto; discriminate.
  - intros x y Hx Hy. unfold NumPy.isnan in *. cbn [NumPy.le NumPy.float64] in *.
    rewrite fle_refl_cases in Hx, Hy.
    destruct x as [a | | |], y as [b | | |]; simpl in *; auto; try discriminate.
    destruct (Qlt_le_dec a b) as [H | H].
    + left. apply Qle_bool_iff. now apply Qlt_le_weak.
    + right. now apply Qle_bool_iff.
  - intros x y z. cbn [NumPy.le NumPy.float64].
    destruct x as [a | | |], y as [b | | |], z as [c | | |]; simpl; auto; try discriminate.
    rewrite !Qle_bool_iff. apply Qle_trans.
  - reflexivity.
Qed.

Lemma float64_scaler_keeps_shape : NumPy.keeps_shape NumPy.float64 Model.float64_scaler.
Proof.
  intros X Y rows cols [Hlen Hrows]. unfold Model.float64_scaler.
  destruct X as [| r X]; [intros H; discriminate H |].
  assert (Hr : length r = cols) by (apply Hrows; now left).
  set (X' := r :: X) in *.
  assert (Ew : NumPy.width NumPy.float64 X' = cols) by exact Hr.
  change (length X') with (S (length X)). rewrite Ew.
  destruct cols as [| w]; [intros H; discriminate H |].
  intros HY.
  assert (EY : Y = NumPy.transpose NumPy.float64
                     (map Model.float64_standardize (NumPy.transpose NumPy.float64 X')))
    by congruence.
  subst Y. clear HY.
  set (M := map Model.float64_standardize (NumPy.transpose NumPy.float64 X')).
  assert (HM : length M = S w).
  { unfold M. rewrite length_map.
    exact (eq_trans (length_transpose_width NumPy.float64 X') Ew). }
  assert (HMw : NumPy.width NumPy.float64 M = rows).
  { unfold M, NumPy.transpose. rewrite Ew. simpl.
    unfold Model.float64_standardize. rewrite !length_map.
    unfold NumPy.column. rewrite length_map. exact Hlen. }
  split.
  - exact (eq_trans (length_transpose_width NumPy.float64 M) HMw).
  - intros r' Hr'. exact (eq_trans (transpose_rows NumPy.float64 M r' Hr') HM).
Qed.

(** C6 (as amended): on numbers whose [<=] is a total preorder away from
    NaN, with [maxshift >= 1], a signal of [rows >= 1] samples of
    [cols >= 1] channels and a reference of [rows] samples that the scaler
    accepts, [find_delay] returns one delay per channel; the shifts it
    considers are exactly the integers of [[-maxshift, maxshift)]; the delay
    of channel [j] is [-(s * tr)] for a shift [s] of that range.  When the
    Pearson correlation of the scaled (optionally rectified) channel with the
    (optionally scaled) reference circularly shifted by [- s'] is a number at
    every shift [s'], the one at [s] is the largest and no earlier shift
    reaches it (first maximum in ascending order).  When it is NaN at some
    shift, [s] is the first shift at which it is.  (For a single channel
    NumPy returns the one delay as a scalar.) *)
Theorem find_delay_first_best_shift (K : NumPy.Kernel)
    (StandardScaler_fit_transform :
       list (list (NumPy.num K)) -> result (list (list (NumPy.num K))))
    (arr : list (list (NumPy.num K))) (reference : list (NumPy.num K))
    (maxshift : Z) (tr : NumPy.num K) (scaleref rect_data : bool)
    (rows cols : nat) (a_scaled : list (list (NumPy.num K)))
    (b_scaled : list (NumPy.num K)) :
  NumPy.lawful K -> NumPy.keeps_shape K StandardScaler_fit_transform ->
  (1 <= maxshift)%Z -> (1 <= rows)%nat -> (1 <= cols)%nat ->
  NumPy.rectangular K arr rows cols -> length reference = rows ->
  StandardScaler_fit_transform arr = Ok a_scaled ->
  (if negb scaleref then Ok reference
   else NumPy.scale K StandardScaler_fit_transform reference) = Ok b_scaled ->
  let signal := if rect_data then NumPy.rectify K a_scaled else a_scaled in
  let correlation :=
    fun (s : Z) (j : nat) =>
      NumPy.pearson K (NumPy.channel K j signal) (NumPy.shifted K b_scaled s) in
  (forall s, In s (range2 (- maxshift) maxshift) <-> (- maxshift <= s < maxshift)%Z) /\
  exists delays,
    NumPy.find_delay K StandardScaler_fit_transform arr reference maxshift tr
                     scaleref rect_data = Ok delays /\
    length delays = cols /\
    forall j, (j < cols)%nat ->
      exists s,
        (- maxshift <= s < maxshift)%Z /\
        nth j delays (NumPy.zero K)
        = NumPy.neg K (NumPy.mul K (NumPy.of_int K s) tr) /\
        ((forall s', (- maxshift <= s' < maxshift)%Z ->
                     NumPy.isnan K (correlation s' j) = false) ->
         (forall s', (- maxshift <= s' < maxshift)%Z ->
                     NumPy.le K (correlation s' j) (correlation s j) = true) /\
         (forall s', (- maxshift <= s' < s)%Z ->
                     NumPy.le K (correlation s j) (correlation s' j) = false)) /\
        ((exists s', (- maxshift <= s' < maxshift)%Z /\
                     NumPy.isnan K (correlation s' j) = true) ->
         NumPy.isnan K (correlation s j) = true /\
         (forall s', (- maxshift <= s' < s)%Z ->
                     NumPy.isnan K (correlation s' j) = false)).
Proof.
  intros HK Hscaler Hm Hr Hc Harr Href EA Eb signal correlation.
  split; [intros s; apply in_range2 |].
  assert (HA : NumPy.rectangular K signal rows cols).
  { pose proof (Hscaler _ _ _ _ Harr EA) as HA.
    unfold signal. destruct rect_data; [now apply rectify_rectangular | exact HA]. }
  assert (Hw : NumPy.width K signal = cols) by (now apply (rectangular_width K _ rows)).
  assert (Hb : length b_scaled = rows)
    by (rewrite (scaled_reference_length K _ Hscaler _ _ _ Eb); exact Href).
  set (G := fun s => map (fun r => NumPy.pearson K r (NumPy.shifted K b_scaled s))
                         (NumPy.transpose K signal)).
  assert (HG : forall s, NumPy.correlate K (NumPy.transpose K signal)
                                         (NumPy.roll K b_scaled (- s)) = Ok (G s)).
  { intros s. rewrite roll_is_shifted. apply (correlate_is_pearson K HK).
    intros r Hr'. rewrite (transpose_rows K _ _ Hr'). unfold NumPy.shifted.
    rewrite length_map, length_seq. destruct HA as [HA _]. congruence. }
  assert (HGlen : forall s, length (G s) = cols).
  { intros s. unfold G. now rewrite length_map, length_transpose_width. }
  assert (HGnth : forall s j, (j < cols)%nat ->
                              nth j (G s) (NumPy.zero K) = correlation s j).
  { intros s j Hj. unfold G.
    rewrite (nth_map_lt _ _ _ _ []) by (rewrite length_transpose_width; lia).
    rewrite nth_transpose by lia. reflexivity. }
  set (shifts := range2 (- maxshift) maxshift).
  assert (Hshifts : length shifts = Z.to_nat (2 * maxshift)).
  { unfold shifts. rewrite length_range2. f_equal. lia. }
  set (corrs := map G shifts).
  assert (Hcorrs : length corrs = Z.to_nat (2 * maxshift))
    by (unfold corrs; now rewrite length_map).
  assert (Hne : corrs <> []).
  { intros E. rewrite E in Hcorrs. cbn [length] in Hcorrs. lia. }
  assert (Hwidth : NumPy.width K corrs = cols).
  { unfold corrs. destruct shifts as [| s0 rest]; [cbn [length] in Hshifts; lia |].
    simpl. apply HGlen. }
  destruct (numpy_argmax0_first K HK corrs Hne) as (best & Ebest & Hbest & Hspec).
  eexists. split; [| split].
  - unfold NumPy.find_delay. rewrite EA. cbn [rbind]. fold signal. rewrite Eb. cbn [rbind].
    rewrite (collect_map_Ok _ G) by (intros s _; apply HG). cbn [rbind].
    fold shifts. fold corrs. rewrite Ebest. cbn [rbind]. reflexivity.
  - rewrite !length_map. congruence.
  - intros j Hj.
    destruct (Hspec j ltac:(lia)) as (Hk & Hs).
    set (k := nth j best O) in *.
    assert (Hcol : forall i, (i < length corrs)%nat ->
                             nth i (NumPy.column K j corrs) (NumPy.zero K)
                             = correlation (- maxshift + Z.of_nat i)%Z j).
    { intros i Hi. unfold NumPy.column, corrs. rewrite map_map.
      rewrite (nth_map_lt _ _ _ _ 0%Z) by (unfold corrs in Hi; now rewrite length_map in Hi).
      unfold shifts. rewrite nth_range2 by lia. now apply HGnth. }
    assert (Hclen : length (NumPy.column K j corrs) = length corrs)
      by (unfold NumPy.column; apply length_map).
    assert (Hat : forall s', (- maxshift <= s' < maxshift)%Z ->
                             correlation s' j
                             = nth (Z.to_nat (s' + maxshift)) (NumPy.column K j corrs)
                                   (NumPy.zero K)).
    { intros s' Hs'. rewrite Hcol by lia. f_equal. lia. }
    exists (- maxshift + Z.of_nat k)%Z. split; [lia | split; [| split]].
    + rewrite (nth_map_lt _ _ _ _ 0%Z) by (rewrite length_map; lia).
      rewrite (nth_map_lt _ _ _ _ O) by lia.
      fold k. unfold shifts. rewrite nth_range2 by lia. reflexivity.
    + intros Hnum. rewrite <- (Hcol k Hk).
      destruct Hs as [[Hn _] | Hmax].
      * rewrite (Hcol k Hk) in Hn. rewrite Hnum in Hn by lia. discriminate.
      * split; intros s' Hs'; rewrite Hat by lia;
          apply (Hmax (Z.to_nat (s' + maxshift))); lia.
    + intros (s0 & Hs0 & Hn0). rewrite <- (Hcol k Hk).
      destruct Hs as [[Hn Hbefore] | Hmax].
      * split; [exact Hn |]. intros s' Hs'. rewrite Hat by lia. apply Hbefore. lia.
      * rewrite Hat in Hn0 by lia.
        destruct (Hmax (Z.to_nat (s0 + maxshift)) ltac:(lia)) as [Hx _]. congruence.
Qed.

Lemma find_delay_first_best_shift_witness :
  (forall s, In s (range2 (- 2) 2) <-> (- 2 <= s < 2)%Z) /\
  exists delays,
    NumPy.find_delay NumPy.float64 Model.float64_scaler Model.three_channels
                     Model.reference_trace 2 (binary64 (1 # 10)) true false
    = Ok delays /\
    length delays = 3%nat /\
    forall j, (j < 3)%nat ->
      exists s,
        (- 2 <= s < 2)%Z /\
        nth j delays (Fin 0) = fopp (fmul (binary64 (inject_Z s)) (binary64 (1 # 10))) /\
        ((forall s', (- 2 <= s' < 2)%Z ->
            NumPy.isnan NumPy.float64
              (NumPy.pearson NumPy.float64
                 (NumPy.channel NumPy.float64 j Model.scaled_channels)
                 (NumPy.shifted NumPy.float64 Model.scaled_reference_trace s')) = false) ->
         (forall s', (- 2 <= s' < 2)%Z ->
            fle (NumPy.pearson NumPy.float64
                   (NumPy.channel NumPy.float64 j Model.scaled_channels)
                   (NumPy.shifted NumPy.float64 Model.scaled_reference_trace s'))
                (NumPy.pearson NumPy.float64
                   (NumPy.channel NumPy.float64 j Model.scaled_channels)
                   (NumPy.shifted NumPy.float64 Model.scaled_reference_trace s)) = true) /\
         (forall s', (- 2 <= s' < s)%Z ->
            fle (NumPy.pearson NumPy.float64
                   (NumPy.channel NumPy.float64 j Model.scaled_channels)
                   (NumPy.shifted NumPy.float64 Model.scaled_reference_trace s))
                (NumPy.pearson NumPy.float64
                   (NumPy.channel NumPy.float64 j Model.scaled_channels)
                   (NumPy.shifted NumPy.float64 Model.scaled_reference_trace s')) = false)) /\
        ((exists s', (- 2 <= s' < 2)%Z /\
            NumPy.isnan NumPy.float64
              (NumPy.pearson NumPy.float64
                 (NumPy.channel NumPy.float64 j Model.scaled_channels)
                 (NumPy.shifted NumPy.float64 Model.scaled_reference_trace s')) = true) ->
         NumPy.isnan NumPy.float64
           (NumPy.pearson NumPy.float64
              (NumPy.channel NumPy.float64 j Model.scaled_channels)
              (NumPy.shifted NumPy.float64 Model.scaled_reference_trace s)) = true /\
         (forall s', (- 2 <= s' < s)%Z ->
            NumPy.isnan NumPy.float64
              (NumPy.pearson NumPy.float64
                 (NumPy.channel NumPy.float64 j Model.scaled_channels)
                 (NumPy.shifted NumPy.float64 Model.scaled_reference_trace s')) = false)).
Proof.
  apply (find_delay_first_best_shift NumPy.float64 Model.float64_scaler
           Model.three_channels Model.reference_trace 2 (binary64 (1 # 10)) true false
           6 3 Model.scaled_channels Model.scaled_reference_trace
           float64_lawful float64_scaler_keeps_shape).
  - lia.
  - lia.
  - lia.
  - split; [reflexivity |].
    intros r Hr. simpl in Hr. repeat destruct Hr as [<- | Hr]; try reflexivity.
    contradiction.
  - reflexivity.
  - vm_compute. reflexivity.
  - vm_compute. reflexivity.
Defined.

(** C6, counterexample: of the three channels the first is the reference,
    the second the reference one sample late, the third constant.  The
    correlation of the constant channel is NaN at every shift, so no shift
    maximizes it; its delay, 0.2 s, comes from the first shift,
    [- maxshift]. *)
Lemma find_delay_constant_channel :
  NumPy.find_delay NumPy.float64 Model.float64_scaler Model.three_channels
                   Model.reference_trace 2 (binary64 (1 # 10)) true false
  = Ok [Fin 0; Fin (round64 (1 # 10)); Fin (round64 (2 # 10))] /\
  map (fun s => NumPy.pearson NumPy.float64
                  (NumPy.channel NumPy.float64 2 Model.scaled_channels)
                  (NumPy.shifted NumPy.float64 Model.scaled_reference_trace s))
      (range2 (- 2) 2)
  = [NaN; NaN; NaN; NaN] /\
  fopp (fmul (binary64 (inject_Z (- 2))) (binary64 (1 # 10))) = Fin (round64 (2 # 10)).
Proof. vm_compute. repeat split. Qed.

(** ** Quadrature demodulation *)

Lemma Qsum_app (a b : list Q) : Qsum (a ++ b) == Qsum a + Qsum b.
Proof.
  induction a as [| x a IH]; simpl; [ring |]. rewrite IH. ring.
Qed.

Lemma length_cumsum_from acc l : length (cumsum_from acc l) = length l.
Proof. revert acc. induction l as [| x l IH]; intros acc; simpl; [| rewrite IH]; reflexivity. Qed.

(** Entry [i] of the cumulative sum is the sum of the first [i + 1] entries. *)
Lemma nth_cumsum_from (l : list Q) :
  forall acc i, (i < length l)%nat ->
                nth i (cumsum_from acc l) 0 == acc + Qsum (firstn (S i) l).
Proof.
  induction l as [| x l IH]; intros acc i Hi; [simpl in Hi; lia |].
  destruct i as [| i].
  - simpl. ring.
  - change (nth (S i) (cumsum_from acc (x :: l)) 0)
      with (nth i (cumsum_from (acc + x) l) 0).
    rewrite IH by (simpl in Hi; lia).
    change (firstn (S (S i)) (x :: l)) with (x :: firstn (S i) l).
    simpl Qsum. ring.
Qed.

Lemma Qsum_firstn_split (l : list Q) (k n : nat) :
  Qsum (firstn (k + n) l) == Qsum (firstn k l) + Qsum (firstn n (skipn k l)).
Proof.
  revert l. induction k as [| k IH]; intros l.
  - simpl. ring.
  - destruct l as [| x l]; simpl.
    + rewrite firstn_nil. simpl. ring.
    + rewrite IH. ring.
Qed.

Lemma nth_vsub (a b : list Q) (i : nat) :
  length a = length b -> (i < length a)%nat ->
  nth i (vsub a b) 0 = nth i a 0 - nth i b 0.
Proof.
  intros Hlen Hi. unfold vsub.
  rewrite (nth_map_lt _ _ _ _ (0, 0)) by (rewrite length_combine; lia).
  rewrite combine_nth by exact Hlen. reflexivity.
Qed.

Lemma length_vsub (a b : list Q) : length (vsub a b) = Nat.min (length a) (length b).
Proof. unfold vsub. now rewrite length_map, length_combine. Qed.

Lemma slice_index_pos (w len : nat) : slice_index (Z.of_nat w) len = Nat.min w len.
Proof. unfold slice_index. destruct (Z.ltb_spec (Z.of_nat w) 0); lia. Qed.

Lemma slice_index_neg (w len : nat) :
  (1 <= w)%nat -> slice_index (- Z.of_nat w) len = (len - w)%nat.
Proof. intros Hw. unfold slice_index. destruct (Z.ltb_spec (- Z.of_nat w) 0); lia. Qed.

(** [l[w:-w]] drops [w] entries from each end. *)
Lemma slice_trim {A} (w : nat) (l : list A) (d : A) :
  (1 <= w)%nat ->
  length (slice (Z.of_nat w) (- Z.of_nat w) l) = (length l - 2 * w)%nat /\
  forall k, (k < length l - 2 * w)%nat ->
            nth k (slice (Z.of_nat w) (- Z.of_nat w) l) d = nth (w + k) l d.
Proof.
  intros Hw. unfold slice. rewrite slice_index_pos, slice_index_neg by exact Hw. split.
  - rewrite length_firstn, length_skipn. lia.
  - intros k Hk. rewrite nth_firstn.
    destruct (Nat.ltb_spec k (length l - w - Nat.min w (length l))); [| lia].
    rewrite nth_skipn. f_equal. lia.
Qed.

(** Entry [k] of [moving_average(a, n)] is the mean of the [n] entries of [a]
    from [k] on. *)
Lemma moving_average_window (a : list Q) (n : Z) :
  (1 <= n <= Z.of_nat (length a))%Z ->
  exists out,
    moving_average a n = Ok out /\
    length out = (length a - Z.to_nat n + 1)%nat /\
    forall k, (k < length out)%nat ->
              nth k out 0 == Qsum (firstn (Z.to_nat n) (skipn k a)) / inject_Z n.
Proof.
  intros Hn. set (w := Z.to_nat n).
  assert (Hw : n = Z.of_nat w) by (unfold w; lia).
  assert (Hw1 : (1 <= w <= length a)%nat) by lia.
  assert (Hret : length (cumsum a) = length a) by apply length_cumsum_from.
  unfold moving_average.
  set (ret := cumsum a) in *.
  assert (Hhi : slice_from n ret = skipn w ret).
  { unfold slice_from. rewrite Hw, slice_index_pos, Hret. f_equal. lia. }
  assert (Hlo : slice_to (- n) ret = firstn (length a - w) ret).
  { unfold slice_to. rewrite Hw, slice_index_neg, Hret by lia. reflexivity. }
  assert (Hidx : slice_index n (length ret) = w).
  { rewrite Hw, slice_index_pos, Hret. lia. }
  rewrite Hhi, Hlo, Hidx.
  assert (Lhi : length (skipn w ret) = (length a - w)%nat)
    by (rewrite length_skipn; lia).
  assert (Llo : length (firstn (length a - w) ret) = (length a - w)%nat)
    by (rewrite length_firstn; lia).
  rewrite Lhi, Llo, Nat.eqb_refl.
  set (ret' := firstn w ret ++ vsub (skipn w ret) (firstn (length a - w) ret)).
  assert (Lret' : length ret' = length a).
  { unfold ret'. rewrite length_app, length_firstn, length_vsub. lia. }
  assert (Hfrom : slice_from (n - 1) ret' = skipn (w - 1) ret').
  { unfold slice_from. replace (n - 1)%Z with (Z.of_nat (w - 1)) by lia.
    rewrite slice_index_pos, Lret'. f_equal. lia. }
  rewrite Hfrom.
  eexists. split; [reflexivity |].
  assert (Lout : length (map (fun x => x / inject_Z n) (skipn (w - 1) ret'))
                 = (length a - w + 1)%nat).
  { rewrite length_map, length_skipn. lia. }
  split; [exact Lout |].
  intros k Hk. rewrite Lout in Hk.
  rewrite (nth_map_lt _ _ _ _ 0) by (rewrite length_skipn; lia).
  rewrite nth_skipn.
  assert (Hval : nth (w - 1 + k) ret' 0 == Qsum (firstn w (skipn k a))).
  { unfold ret'. destruct k as [| k].
    - rewrite app_nth1 by (rewrite length_firstn; lia).
      rewrite nth_firstn.
      destruct (Nat.ltb_spec (w - 1 + 0) w); [| lia].
      unfold ret, cumsum. rewrite nth_cumsum_from by lia.
      replace (S (w - 1 + 0)) with w by lia. simpl skipn. ring.
    - rewrite app_nth2 by (rewrite length_firstn; lia).
      rewrite length_firstn.
      replace (w - 1 + S k - Nat.min w (length ret))%nat with k by lia.
      rewrite nth_vsub by lia.
      rewrite nth_skipn, nth_firstn.
      destruct (Nat.ltb_spec k (length a - w)); [| lia].
      unfold ret, cumsum. rewrite !nth_cumsum_from by lia.
      replace (S (w + k)) with (S k + w)%nat by lia.
      rewrite Qsum_firstn_split. ring. }
  now rewrite Hval.
Qed.

(** What [moving_average(x, window)[window:-window]] holds. *)
Lemma averaged_and_trimmed (x : list Q) (window : Z) :
  (1 <= window <= Z.of_nat (length x))%Z ->
  exists average,
    moving_average x window = Ok average /\
    length (slice window (- window) average)
    = (length x + 1 - 3 * Z.to_nat window)%nat /\
    forall k, (k < length (slice window (- window) average))%nat ->
              nth k (slice window (- window) average) 0
              == Qsum (firstn (Z.to_nat window) (skipn (Z.to_nat window + k) x))
                 / inject_Z window.
Proof.
  intros Hw.
  destruct (moving_average_window x window Hw) as (average & E & Hlen & Hval).
  exists average. split; [exact E |].
  destruct (slice_trim (Z.to_nat window) average 0) as [Hl Hn]; [lia |].
  rewrite Z2Nat.id in Hl, Hn by lia.
  split.
  - rewrite Hl, Hlen. lia.
  - intros k Hk. rewrite Hl in Hk. rewrite Hn by exact Hk.
    apply Hval. lia.
Qed.

(** C7 (as amended): [make_traces] first multiplies the raw signal
    elementwise by the sine and cosine references, then passes each product
    through the zero-phase low-pass filter (order 4, cutoff [frequency / 2],
    sampling frequency [1 / tr]), then takes the moving average over [window]
    samples of each filtered product and drops [window] samples from each
    end: entry [k] of a trace is the mean of the [window] filtered samples
    from [window + k] on. *)
Theorem make_traces_multiply_then_filter (sin cos : Q -> Q) (pi : Q) (sos : Type)
    (butter : Z -> Q -> Q -> result sos) (sosfiltfilt : sos -> list Q -> result (list Q))
    (signals : list Q) (frequency tr offset : Q) (window : Z)
    (coefficients : sos) (filtered_s filtered_c : list Q) :
  ~ tr == 0 -> (1 <= window)%Z ->
  butter 4%Z (frequency / 2) (1 / tr) = Ok coefficients ->
  sosfiltfilt coefficients
    (vmul signals (reference_wave pi sin (length signals) frequency tr offset))
  = Ok filtered_s ->
  sosfiltfilt coefficients
    (vmul signals (reference_wave pi cos (length signals) frequency tr offset))
  = Ok filtered_c ->
  (window <= Z.of_nat (length filtered_s))%Z ->
  (window <= Z.of_nat (length filtered_c))%Z ->
  exists trace_s trace_c,
    make_traces sin cos pi butter sosfiltfilt signals frequency tr offset window
    = Ok (trace_s, trace_c) /\
    length trace_s = (length filtered_s + 1 - 3 * Z.to_nat window)%nat /\
    length trace_c = (length filtered_c + 1 - 3 * Z.to_nat window)%nat /\
    (forall k, (k < length trace_s)%nat ->
               nth k trace_s 0
               == Qsum (firstn (Z.to_nat window) (skipn (Z.to_nat window + k) filtered_s))
                  / inject_Z window) /\
    (forall k, (k < length trace_c)%nat ->
               nth k trace_c 0
               == Qsum (firstn (Z.to_nat window) (skipn (Z.to_nat window + k) filtered_c))
                  / inject_Z window).
Proof.
  intros Htr Hw Hbutter Hs Hc Hls Hlc.
  destruct (averaged_and_trimmed filtered_s window) as (avg_s & Es & Ls & Vs); [lia |].
  destruct (averaged_and_trimmed filtered_c window) as (avg_c & Ec & Lc & Vc); [lia |].
  exists (slice window (- window) avg_s), (slice window (- window) avg_c).
  split; [| auto].
  unfold make_traces, reciprocal.
  destruct (Qeq_bool tr 0) eqn:E; [apply Qeq_bool_iff in E; contradiction |].
  cbn [rbind]. rewrite Hbutter. cbn [rbind].
  rewrite Hs. cbn [rbind]. rewrite Es. cbn [rbind].
  rewrite Hc. cbn [rbind]. rewrite Ec. reflexivity.
Qed.

Lemma make_traces_multiply_then_filter_witness :
  exists trace_s trace_c,
    make_traces Model.sin Model.cos Model.pi Model.butter Model.sosfiltfilt
                Model.signal Model.frequency 1 0 1
    = Ok (trace_s, trace_c) /\
    length trace_s = (length (Model.filtered Model.sin) + 1 - 3 * Z.to_nat 1)%nat /\
    length trace_c = (length (Model.filtered Model.cos) + 1 - 3 * Z.to_nat 1)%nat /\
    (forall k, (k < length trace_s)%nat ->
               nth k trace_s 0
               == Qsum (firstn (Z.to_nat 1)
                               (skipn (Z.to_nat 1 + k) (Model.filtered Model.sin)))
                  / inject_Z 1) /\
    (forall k, (k < length trace_c)%nat ->
               nth k trace_c 0
               == Qsum (firstn (Z.to_nat 1)
                               (skipn (Z.to_nat 1 + k) (Model.filtered Model.cos)))
                  / inject_Z 1).
Proof.
  apply (make_traces_multiply_then_filter Model.sin Model.cos Model.pi Q
           Model.butter Model.sosfiltfilt Model.signal Model.frequency 1 0 1
           (Model.frequency / 2)).
  - discriminate.
  - lia.
  - reflexivity.
  - reflexivity.
  - reflexivity.
  - simpl. lia.
  - simpl. lia.
Defined.

(** C7, counterexample: with the stand-in low-pass filter, filtering the
    signal before multiplying by the references gives another sine trace
    than [make_traces], which filters the products. *)
Lemma make_traces_filters_the_products :
  exists trace_s trace_c trace_s' trace_c',
    make_traces Model.sin Model.cos Model.pi Model.butter Model.sosfiltfilt
                Model.signal Model.frequency 1 0 1
    = Ok (trace_s, trace_c) /\
    make_traces_filter_first Model.sin Model.cos Model.pi Model.butter Model.sosfiltfilt
                             Model.signal Model.frequency 1 0 1
    = Ok (trace_s', trace_c') /\
    Qeq_bool (nth 0 trace_s 0) (nth 0 trace_s' 0) = false /\
    Qeq_bool (nth 0 trace_c 0) (nth 0 trace_c' 0) = false.
Proof.
  eexists _, _, _, _.
  split; [vm_compute; reflexivity |].
  split; [vm_compute; reflexivity |].
  split; vm_compute; reflexivity.
Qed.


(** * Further operations of [interfaces.py] *)

From Stdlib Require Import Qabs Qminmax.

(** [np.argmin] of a vector: the first index of the minimum. *)
Fixpoint argmin_from (best_i : nat) (best : Q) (i : nat) (l : list Q) : nat :=
  match l with
  | [] => best_i
  | x :: l' =>
      if Qlt_bool x best
      then argmin_from i x (S i) l'
      else argmin_from best_i best (S i) l'
  end.

Definition argmin (l : list Q) : result nat :=
  match l with
  | [] => Raise ValueError
  | x :: l' => Ok (argmin_from 0 x 1 l')
  end.

(** [m.argmin(0)]: per column. *)
Definition argmin0 (m : matrix) : result (list nat) :=
  match m with
  | [] => Raise ValueError
  | _ => collect (map (fun j => argmin (column j m)) (seq 0 (shape1 m)))
  end.

(** [g[idx]] for an array of indices. *)
Definition take (g : list Q) (idx : list nat) : result (list Q) :=
  collect (map (getitem g) idx).

(** The [phase] property: [self.grid[self.tdata.argmin(0)]]. *)
Definition phase (o : Oscillation) : result (list Q) :=
  let? idx := argmin0 (tdata_of o) in
  take (grid o) idx.

(** The [transformed_data] property. *)
Definition transformed_data (o : Oscillation) : matrix := tdata_of o.

(** The smallest and the largest entry of a non-empty vector. *)
Definition minimum (l : list Q) : Q :=
  match l with
  | [] => 0
  | x :: l' => fold_left Qmin l' x
  end.
Definition maximum (l : list Q) : Q :=
  match l with
  | [] => 0
  | x :: l' => fold_left Qmax l' x
  end.

(** scikit-learn's [MinMaxScaler().fit]: [data_min_] and [data_max_], one per
    column; it refuses an array with no sample or no feature. *)
Definition MinMaxScaler_fit (X : matrix) : result (list Q * list Q) :=
  match shape0 X, shape1 X with
  | O, _ | _, O => Raise ValueError
  | _, _ => Ok (map (fun j => minimum (column j X)) (seq 0 (shape1 X)),
                map (fun j => maximum (column j X)) (seq 0 (shape1 X)))
  end.

(** The [amplitude] property; [xmin] and [xmax] are computed and not used. *)
Definition amplitude (o : Oscillation) : result (list Q) :=
  let? min_max := MinMaxScaler_fit (tdata_of o) in
  let ymin := fst min_max in
  let ymax := snd min_max in
  let? imin := argmin0 (tdata_of o) in
  let? xmin := take (grid o) imin in
  let? imax := argmax0 (tdata_of o) in
  let? xmax := take (grid o) imax in
  Ok (vsub ymax ymin).

(** [int(5 / grid_tr)]; the grid is a NumPy array, so a zero spacing gives an
    infinite quotient, which [int] refuses. *)
Definition five_seconds_of (grid_tr : Q) : result Z :=
  if Qeq_bool grid_tr 0 then Raise OverflowError else Ok (Qtrunc (5 / grid_tr)).

(** [get_crosscorr(reference, scaleref, rect_data)]. *)
Definition get_crosscorr (sqrt : Q -> Q) (reference : option (list Q))
    (scaleref rect_data : bool) (o : Oscillation) : result (list Q) :=
  let reference :=
    match reference with
    | None => map mean (tdata_of o)
    | Some r => r
    end in
  let? g1 := getitem (grid o) 1 in
  let? g0 := getitem (grid o) 0 in
  let grid_tr := g1 - g0 in
  let? maxshift := five_seconds_of grid_tr in
  find_delay sqrt (tdata_of o) reference maxshift grid_tr scaleref rect_data.

(** [np.sum(np.where(trace > 0, trace, 0))] and the same for [trace < 0]. *)
Definition positive_sum (trace : list Q) : Q :=
  Qsum (map (fun x => if Qlt_bool 0 x then x else 0) trace).
Definition negative_sum (trace : list Q) : Q :=
  Qsum (map (fun x => if Qlt_bool x 0 then x else 0) trace).

(** [ratio(trace)]; [None] is the NaN of 0/0, which an all-zero trace gives. *)
Definition ratio (trace : list Q) : option Q :=
  let aplus := positive_sum trace in
  let aminus := negative_sum trace in
  if Qeq_bool (aplus - aminus) 0 then None
  else Some (Qabs ((aplus + aminus) / (aplus - aminus))).

Section Confidence.
(** [np.hypot]. *)
Variable hypot : Q -> Q -> Q.

(** [confidence_index(trace_s, trace_c)]; [None] stands for a result that is
    no finite number (a NaN ratio, or a division by a zero [amp ** 2]). *)
Definition confidence_index (trace_s trace_c : list Q) : option Q :=
  match ratio trace_s, ratio trace_c with
  | Some ratio_s, Some ratio_c =>
      let A := Qsum trace_s in
      let B := Qsum trace_c in
      let amp := hypot A B in
      if Qeq_bool (amp * amp) 0 then None
      else Some ((A * A * ratio_s + B * B * ratio_c) / (amp * amp))
  | _, _ => None
  end.
End Confidence.

(** The name a transform call leaves in the chain. *)
Definition chain_name (c : call) : option string :=
  match c with
  | Average => Some "Label Average"%string
  | Psc _ _ => Some "PSC"%string
  | Detrend _ _ => Some "Detrend"%string
  | TrialAverage _ => Some "Trial Average"%string
  | Interp _ => Some "Crop and Interpolate"%string
  | Fft => Some "FFT"%string
  | Reset | ClearLabels | Preprocess => None
  end.

(** ** Construction *)

(** X1: [get_ntrials] raises [IndexError] when there is no volume, whatever
    the other arguments, and [TypeError] for an absent period.  For a zero
    period it raises [ZeroDivisionError] when its arguments are Python
    numbers; when one of them is a NumPy scalar it raises nothing and
    returns an infinity or NaN. *)
Theorem get_ntrials_errors (numpy : bool) (start_offset tr : pyfloat)
    (period : option pyfloat) (nvols : Z) :
  ((nvols <= 0)%Z ->
   Double.get_ntrials numpy start_offset period tr nvols = Raise IndexError) /\
  ((1 <= nvols)%Z ->
   Double.get_ntrials numpy start_offset None tr nvols = Raise TypeError) /\
  ((1 <= nvols)%Z ->
   forall p, p == 0 ->
     Double.get_ntrials false start_offset (Some (Fin p)) tr nvols = Raise ZeroDivisionError /\
     exists q, Double.get_ntrials true start_offset (Some (Fin p)) tr nvols = Ok q /\
               (q = PInf \/ q = NInf \/ q = NaN)).
Proof.
  split; [| split].
  - intros Hn. unfold Double.get_ntrials, range.
    replace (Z.to_nat nvols) with O by lia. reflexivity.
  - intros Hn. rewrite get_ntrials_last by exact Hn. reflexivity.
  - intros Hn p Hp. rewrite !get_ntrials_last by exact Hn.
    unfold Double.divmod_quot. apply Qeq_bool_iff in Hp. rewrite Hp.
    split; [reflexivity |].
    destruct (fsub _ start_offset) as [a | | |]; eexists; (split; [reflexivity |]); auto.
    destruct (Qlt_bool 0 a); [auto |]. destruct (Qlt_bool a 0); auto.
Qed.

Lemma get_ntrials_errors_witness :
  Double.get_ntrials false (Fin 0) (Some (Fin 0)) (Fin 1) 0 = Raise IndexError /\
  Double.get_ntrials false (Fin 0) None (Fin 1) 3 = Raise TypeError /\
  Double.get_ntrials false (Fin 0) (Some (Fin 0)) (Fin 1) 3 = Raise ZeroDivisionError /\
  Double.get_ntrials true (Fin 0) (Some (Fin 0)) (Fin 1) 3 = Ok PInf.
Proof.
  pose proof (get_ntrials_errors false (Fin 0) (Fin 1) (Some (Fin 0)) 0) as (H1 & _).
  pose proof (get_ntrials_errors false (Fin 0) (Fin 1) None 3) as (_ & H2 & H3).
  split; [apply H1; lia |]. split; [apply H2; lia |].
  split; [apply (H3 ltac:(lia) 0); reflexivity | reflexivity].
Defined.

(** X2: an [Oscillation] cannot be constructed without a period:
    [__post_init__] gets [stimulus_offset] back from [get_offset] and then
    fails in [get_ntrials], with [IndexError] for data without rows and with
    [TypeError] (from [divmod] by [None]) otherwise. *)
Theorem post_init_without_period (fuel : nat) (tr0 : Q) (data0 : matrix) (so : Q)
    (labels0 : option (list string)) (dt : bool) :
  post_init fuel tr0 None data0 so labels0 dt
  = Raises (match data0 with [] => IndexError | _ :: _ => TypeError end).
Proof.
  unfold post_init. simpl get_offset. cbv iota.
  destruct data0 as [| r rows].
  - reflexivity.
  - unfold get_ntrials.
    rewrite (last_item_map_range (fun x => inject_Z x * tr0))
      by (unfold shape0; simpl length; lia).
    reflexivity.
Qed.

(** ** What [reset] leaves *)

(** X3: after any sequence of public operations on a constructed object,
    [reset()] gives back the object as constructed in every attribute but
    [labels] and [ids], which stay as the operations left them. *)
Theorem reset_keeps_labels_and_ids (P : Preprocessing) fuel tr0 period0 data0 so
    labels0 dt o0 (cs : list call) :
  post_init fuel tr0 period0 data0 so labels0 dt = Returns o0 ->
  after P Reset (after_all P cs o0)
  = set_ids (ids (after_all P cs o0)) (set_labels (labels (after_all P cs o0)) o0).
Proof.
  intros H. destruct (post_init_fields _ _ _ _ _ _ _ _ H) as (off & n & _ & _ & ->).
  pose proof (after_all_same_inputs P cs
                (mkOscillation tr0 period0 data0 so labels0 dt DataArray [] tr0
                   (arange_times (shape0 data0) tr0) off n None None [EmptyString]))
    as (H1 & H2 & H3 & H4 & H5 & H6 & H7).
  destruct (after_all P cs _) as [a1 a2 a3 a4 a5 a6 a7 a8 a9 a10 a11 a12 a13 a14 a15].
  simpl in *. subst. reflexivity.
Qed.

Lemma reset_keeps_labels_and_ids_witness :
  after Model.preprocessing Reset
        (after_all Model.preprocessing [ClearLabels; Average; Fft] Model.sample)
  = set_ids (ids (after_all Model.preprocessing [ClearLabels; Average; Fft] Model.sample))
      (set_labels
         (labels (after_all Model.preprocessing [ClearLabels; Average; Fft] Model.sample))
         Model.sample).
Proof.
  apply (reset_keeps_labels_and_ids Model.preprocessing
           1 1 (Some 2) Model.sample_data 0 None false).
  reflexivity.
Defined.

(** ** How calls end *)

(** A call of [_transform] followed by the assignment of a new grid and the
    reading of its spacing, as [trial_average], [interp] and [fft] do: it
    ends in one of three ways. *)
Definition left_half_done (id : string) (o o' : Oscillation) : Prop :=
  transformation_chain o' = transformation_chain o ++ [id] /\
  (exists X, tdata o' = Owned X) /\
  (length (grid o') < 2)%nat /\
  sampling_rate o' = sampling_rate o.

Definition done (id : string) (o o' : Oscillation) : Prop :=
  transformation_chain o' = transformation_chain o ++ [id] /\
  (exists X, tdata o' = Owned X) /\
  (2 <= length (grid o'))%nat /\
  sampling_rate o' = round64 (nth 1 (grid o') 0 - nth 0 (grid o') 0).

Definition ends_in_three_ways (id : string) (m : M unit) (o : Oscillation) : Prop :=
  (exists e, m o = (Raise e, o)) \/
  (exists o', m o = (Raise IndexError, o') /\ left_half_done id o o') \/
  (exists o', m o = (Ok tt, o') /\ done id o o').

Lemma regrid_ends {S} (t : transformer S) (id : string)
    (regrid : S -> Oscillation -> Oscillation) (o : Oscillation) :
  (forall s o1, transformation_chain (regrid s o1) = transformation_chain o1 /\
                tdata (regrid s o1) = tdata o1 /\
                sampling_rate (regrid s o1) = sampling_rate o1) ->
  ends_in_three_ways id
    (s <- _transform t id ;; assign (regrid s) ;; update_sampling_rate) o.
Proof.
  intros Hregrid.
  assert (Heq : (s <- _transform t id ;; assign (regrid s) ;; update_sampling_rate) o
                = match _transform t id o with
                  | (Ok s, o1) => update_sampling_rate (regrid s o1)
                  | (Raise e, o1) => (Raise e, o1)
                  end).
  { unfold bind, assign. destruct (_transform t id o) as [[s | e] o1]; reflexivity. }
  unfold ends_in_three_ways. rewrite Heq. clear Heq.
  destruct (_transform_cases t id o) as [(s & X & E & _) | (e & E)]; rewrite E.
  - right.
    set (o1 := set_transformation_chain (transformation_chain o ++ [id])
                 (set_tdata (Owned X) o)).
    destruct (Hregrid s o1) as (Hc & Ht & Hs).
    destruct (update_sampling_rate_cases (regrid s o1)) as [[Hlen E'] | [Hlen E']];
      rewrite E'.
    + left. eexists. split; [reflexivity |].
      repeat split; [rewrite Hc; reflexivity | exists X; rewrite Ht; reflexivity
                    | exact Hlen | rewrite Hs; reflexivity].
    + right. eexists. split; [reflexivity |].
      repeat split; [simpl; rewrite Hc; reflexivity
                    | exists X; simpl; rewrite Ht; reflexivity
                    | exact Hlen].
  - left. exists e. reflexivity.
Qed.

Section Endings.
Variable P : Preprocessing.

Lemma trial_average_ends bootstrap o :
  ends_in_three_ways "Trial Average" (trial_average P bootstrap) o.
Proof.
  pose proof (regrid_ends
                (new (TrialAveragingTransformer P (n_trials o) bootstrap)) "Trial Average"
                (fun s o1 =>
                   let o2 := if bootstrap
                             then set_emin_emax (Some (ci_low_ P s)) (Some (ci_high_ P s)) o1
                             else o1 in
                   set_grid (slice_to (Z.of_nat (shape0 (tdata_of o2))) (grid o2)) o2) o)
    as H.
  assert (E : trial_average P bootstrap o
              = (s <- _transform (new (TrialAveragingTransformer P (n_trials o) bootstrap))
                                 "Trial Average" ;;
                 assign (fun o1 =>
                   let o2 := if bootstrap
                             then set_emin_emax (Some (ci_low_ P s)) (Some (ci_high_ P s)) o1
                             else o1 in
                   set_grid (slice_to (Z.of_nat (shape0 (tdata_of o2))) (grid o2)) o2) ;;
                 update_sampling_rate) o).
  { unfold trial_average, bind, self, assign, ret. cbv beta zeta.
    destruct (_transform _ "Trial Average" o) as [[s | e] o1]; [| reflexivity].
    destruct bootstrap; reflexivity. }
  unfold ends_in_three_ways. rewrite E. apply H.
  intros s o1. destruct bootstrap; repeat split.
Qed.

Lemma interp_ends target_sampling_out o :
  ends_in_three_ways "Crop and Interpolate" (interp P target_sampling_out) o.
Proof.
  pose proof (regrid_ends
                (new (PeriodicGridTransformer P (period o) (tr o) target_sampling_out
                                              (offset o)))
                "Crop and Interpolate"
                (fun s o1 => set_grid (map (fun x => round64 (x - offset o1)) (target_grid_ P s)) o1) o)
    as H.
  unfold ends_in_three_ways, interp, bind at 1, self. cbv beta zeta.
  apply H. intros s o1. repeat split.
Qed.

Lemma fft_ends o : ends_in_three_ways "FFT" (fft P) o.
Proof.
  pose proof (regrid_ends (new (FFTTransformer P (sampling_rate o))) "FFT"
                (fun s o1 => set_grid (freqs_ P s) o1) o) as H.
  unfold ends_in_three_ways, fft, bind at 1, self. cbv beta zeta.
  apply H. intros s o1. repeat split.
Qed.

Lemma average_ends o :
  (exists e, average P o
             = (Raise e, set_ids (match labels o with
                                  | None => [EmptyString]
                                  | Some ls => nodup string_dec ls
                                  end) o)) \/
  (exists X, average P o
             = (Ok tt, set_transformation_chain
                         (transformation_chain o ++ ["Label Average"%string])
                         (set_tdata (Owned X)
                            (set_ids (match labels o with
                                      | None => [EmptyString]
                                      | Some ls => nodup string_dec ls
                                      end) o)))).
Proof.
  unfold average, bind, self, assign, ret. cbv beta zeta.
  destruct (labels o) as [ls |].
  - match goal with
    | |- context [_transform ?t ?id ?o1] =>
        destruct (_transform_cases t id o1) as [(s & X & E & _) | (e & E)]; rewrite E
    end.
    + right. exists X. reflexivity.
    + left. exists e. reflexivity.
  - match goal with
    | |- context [_transform ?t ?id ?o1] =>
        destruct (_transform_cases t id o1) as [(s & X & E & _) | (e & E)]; rewrite E
    end.
    + right. exists X. reflexivity.
    + left. exists e. reflexivity.
Qed.
End Endings.

Lemma bind_returned {A B} (c : M A) (k : A -> M B) o b o' :
  bind c k o = (Ok b, o') -> exists a o1, c o = (Ok a, o1) /\ k a o1 = (Ok b, o').
Proof.
  unfold bind. destruct (c o) as [[a | e] o1]; intros H; [eauto | discriminate].
Qed.

Section MoreEndings.
Variable P : Preprocessing.

Lemma psc_ends b e o :
  (exists ex, psc P b e o = (Raise ex, o)) \/
  (in_chain "PSC" o = true /\ psc P b e o = (Ok tt, o)) \/
  (in_chain "PSC" o = false /\
   exists X, psc P b e o
             = (Ok tt, set_transformation_chain (transformation_chain o ++ ["PSC"%string])
                         (set_tdata (Owned X) o))).
Proof.
  unfold psc, bind, self, lift, ret. cbv beta.
  destruct (in_chain "PSC" o) eqn:Ein; [right; left; auto |].
  destruct (psc_baseline b e o) as [base | ex]; [| left; exists ex; reflexivity].
  destruct (fit_on (new (PSCScaler P)) base) as [t | ex];
    [| left; exists ex; reflexivity].
  destruct (_transform_cases t "PSC" o) as [(s & X & E & _) | (ex & E)]; rewrite E.
  - right. right. split; [reflexivity |]. exists X. reflexivity.
  - left. exists ex. reflexivity.
Qed.

Lemma detrend_ends order keep_mean o :
  (exists ex, detrend P order keep_mean o = (Raise ex, o)) \/
  (in_chain "Detrend" o = true /\ detrend P order keep_mean o = (Ok tt, o)) \/
  (in_chain "Detrend" o = false /\
   exists X, detrend P order keep_mean o
             = (Ok tt, set_transformation_chain
                         (transformation_chain o ++ ["Detrend"%string])
                         (set_tdata (Owned X) o))).
Proof.
  unfold detrend, bind, self, ret. cbv beta zeta.
  destruct (in_chain "Detrend" o) eqn:Ein; [right; left; auto |].
  destruct (_transform_cases (new (Detrender P order)) "Detrend" o)
    as [(s & X & E & _) | (ex & E)]; rewrite E.
  - right. right. split; [reflexivity |].
    destruct keep_mean.
    + exists (add_rowwise X (mean0 (tdata_of o))). reflexivity.
    + exists X. reflexivity.
  - left. exists ex. reflexivity.
Qed.

Lemma trial_average_bounds o r o' :
  trial_average P true o = (r, o') ->
  o' = o \/ exists s, emin o' = Some (ci_low_ P s) /\ emax o' = Some (ci_high_ P s).
Proof.
  unfold trial_average, bind at 1 2, self. cbv beta zeta.
  destruct (_transform_cases (new (TrialAveragingTransformer P (n_trials o) true))
                             "Trial Average" o)
    as [(s & X & E & _) | (ex & E)]; rewrite E.
  - unfold bind at 1 2, assign.
    match goal with
    | |- update_sampling_rate ?o2 = _ -> _ =>
        destruct (update_sampling_rate_cases o2) as [[_ E'] | [_ E']]; rewrite E'
    end; intros H; injection H as _ <-; right; exists s; split; reflexivity.
  - intros H. injection H as _ <-. left. reflexivity.
Qed.
End MoreEndings.

(** X4: a transform call leaves the chain as it was or with its own name
    appended, whether it returns or raises; and when it returns, its name is
    in the chain. *)
Theorem transform_call_appends_its_name (P : Preprocessing) (c : call) (id : string)
    (o : Oscillation) :
  chain_name c = Some id ->
  (transformation_chain (after P c o) = transformation_chain o \/
   transformation_chain (after P c o) = transformation_chain o ++ [id]) /\
  (forall o', perform P c o = (Ok tt, o') -> in_chain id o' = true).
Proof.
  intros Hname. unfold after.
  destruct c; simpl in Hname; try discriminate; injection Hname as <-; simpl perform.
  - destruct (average_ends P o) as [(e & E) | (X & E)]; rewrite E; simpl; split; auto.
    + intros o' H. discriminate H.
    + intros o' H. injection H as <-. unfold in_chain. simpl.
      rewrite existsb_app. simpl. apply orb_true_r.
  - destruct (psc_ends P baseline_begin baseline_end o)
      as [(e & E) | [(Hin & E) | (Hin & X & E)]]; rewrite E; simpl; split; auto.
    + intros o' H. discriminate H.
    + intros o' H. injection H as <-. exact Hin.
    + intros o' H. injection H as <-.
      apply (in_chain_appended "PSC" o (set_tdata (Owned X))).
  - destruct (detrend_ends P order keep_mean o)
      as [(e & E) | [(Hin & E) | (Hin & X & E)]]; rewrite E; simpl; split; auto.
    + intros o' H. discriminate H.
    + intros o' H. injection H as <-. exact Hin.
    + intros o' H. injection H as <-.
      apply (in_chain_appended "Detrend" o (set_tdata (Owned X))).
  - destruct (trial_average_ends P bootstrap o)
      as [(e & E) | [(o1 & E & Hc & _) | (o1 & E & Hc & _)]]; rewrite E; simpl; split; auto.
    + intros o' H. discriminate H.
    + intros o' H. discriminate H.
    + intros o' H. injection H as <-. unfold in_chain. rewrite Hc, existsb_app. simpl.
      apply orb_true_r.
  - destruct (interp_ends P target_sampling_out o)
      as [(e & E) | [(o1 & E & Hc & _) | (o1 & E & Hc & _)]]; rewrite E; simpl; split; auto.
    + intros o' H. discriminate H.
    + intros o' H. discriminate H.
    + intros o' H. injection H as <-. unfold in_chain. rewrite Hc, existsb_app. simpl.
      apply orb_true_r.
  - destruct (fft_ends P o)
      as [(e & E) | [(o1 & E & Hc & _) | (o1 & E & Hc & _)]]; rewrite E; simpl; split; auto.
    + intros o' H. discriminate H.
    + intros o' H. discriminate H.
    + intros o' H. injection H as <-. unfold in_chain. rewrite Hc, existsb_app. simpl.
      apply orb_true_r.
Qed.

Lemma transform_call_appends_its_name_witness :
  (transformation_chain (after Model.preprocessing (Interp (1 # 2)) Model.sample)
   = transformation_chain Model.sample \/
   transformation_chain (after Model.preprocessing (Interp (1 # 2)) Model.sample)
   = transformation_chain Model.sample ++ ["Crop and Interpolate"%string]) /\
  (forall o', perform Model.preprocessing (Interp (1 # 2)) Model.sample = (Ok tt, o') ->
              in_chain "Crop and Interpolate" o' = true).
Proof.
  apply (transform_call_appends_its_name Model.preprocessing (Interp (1 # 2))
           "Crop and Interpolate" Model.sample).
  reflexivity.
Defined.

(** Squeezing a single column of two rows or more leaves that column. *)
Lemma squeeze_single_column (m : matrix) :
  (2 <= shape0 m)%nat -> shape1 m = 1%nat -> squeeze m = Array1 (column 0 m).
Proof.
  intros H0 H1. destruct m as [| r [| r' m]]; simpl in H0; try lia.
  unfold squeeze. rewrite H1. simpl.
  destruct r as [| x [| y r]]; reflexivity.
Qed.

(** X5: when [preprocess()] returns, the chain holds exactly the four steps
    of the recipe in order, whatever it held before; the value returned is
    [tdata] squeezed, a vector when the averaging left a single column over
    two rows or more; the bootstrap bounds are set; and the grid has at
    least two points, [sampling_rate] being the (rounded) distance between
    the first two. *)
Theorem preprocess_returns_the_recipe (P : Preprocessing) (o o' : Oscillation)
    (X : ndarray) :
  preprocess P o = (Ok X, o') ->
  transformation_chain o'
  = ["Crop and Interpolate"; "PSC"; "Label Average"; "Trial Average"]%string /\
  X = squeeze (tdata_of o') /\
  ((2 <= shape0 (tdata_of o'))%nat -> shape1 (tdata_of o') = 1%nat ->
   X = Array1 (column 0 (tdata_of o'))) /\
  (exists s, emin o' = Some (ci_low_ P s) /\ emax o' = Some (ci_high_ P s)) /\
  (2 <= length (grid o'))%nat /\
  sampling_rate o' = round64 (nth 1 (grid o') 0 - nth 0 (grid o') 0).
Proof.
  unfold preprocess. intros H.
  apply bind_returned in H. destruct H as ([] & o1 & H1 & H).
  apply bind_returned in H. destruct H as ([] & o2 & H2 & H).
  apply bind_returned in H. destruct H as ([] & o3 & H3 & H).
  apply bind_returned in H. destruct H as ([] & o4 & H4 & H).
  apply bind_returned in H. destruct H as ([] & o5 & H5 & H).
  unfold bind, self, ret in H. injection H as <- <-.
  assert (C1 : transformation_chain o1 = []).
  { unfold reset, bind, assign in H1. injection H1 as <-. reflexivity. }
  assert (C2 : transformation_chain o2 = ["Crop and Interpolate"%string]).
  { destruct (interp_ends P (1 # 10) o1)
      as [(e & E) | [(o' & E & _) | (o' & E & Hc & _)]]; rewrite E in H2;
      try discriminate.
    injection H2 as <-. rewrite Hc, C1. reflexivity. }
  assert (C3 : transformation_chain o3 = ["Crop and Interpolate"; "PSC"]%string).
  { destruct (psc_ends P (Fin 0) PInf o2)
      as [(e & E) | [(Hin & E) | (Hin & Y & E)]]; rewrite E in H3; try discriminate.
    - unfold in_chain in Hin. rewrite C2 in Hin. discriminate Hin.
    - injection H3 as <-. simpl. rewrite C2. reflexivity. }
  assert (C4 : transformation_chain o4
               = ["Crop and Interpolate"; "PSC"; "Label Average"]%string).
  { destruct (average_ends P o3) as [(e & E) | (Y & E)]; rewrite E in H4;
      try discriminate.
    injection H4 as <-. simpl. rewrite C3. reflexivity. }
  destruct (trial_average_ends P true o4)
    as [(e & E) | [(o' & E & _) | (o' & E & Hc & _ & Hlen & Hsr)]];
    rewrite E in H5; try discriminate.
  injection H5 as <-.
  split; [rewrite Hc, C4; reflexivity |].
  split; [reflexivity |].
  split; [apply squeeze_single_column |].
  split; [| split; assumption].
  destruct (trial_average_bounds P o4 (Ok tt) o' E) as [-> | Hs]; [| exact Hs].
  rewrite C4 in Hc. exfalso.
  apply (f_equal (@length string)) in Hc. simpl in Hc. lia.
Qed.

Lemma preprocess_returns_the_recipe_witness :
  transformation_chain (snd (preprocess Model.preprocessing Model.sample))
  = ["Crop and Interpolate"; "PSC"; "Label Average"; "Trial Average"]%string /\
  squeeze (tdata_of (snd (preprocess Model.preprocessing Model.sample)))
  = squeeze (tdata_of (snd (preprocess Model.preprocessing Model.sample))) /\
  ((2 <= shape0 (tdata_of (snd (preprocess Model.preprocessing Model.sample))))%nat ->
   shape1 (tdata_of (snd (preprocess Model.preprocessing Model.sample))) = 1%nat ->
   squeeze (tdata_of (snd (preprocess Model.preprocessing Model.sample)))
   = Array1 (column 0 (tdata_of (snd (preprocess Model.preprocessing Model.sample))))) /\
  (exists s, emin (snd (preprocess Model.preprocessing Model.sample))
             = Some (ci_low_ Model.preprocessing s) /\
             emax (snd (preprocess Model.preprocessing Model.sample))
             = Some (ci_high_ Model.preprocessing s)) /\
  (2 <= length (grid (snd (preprocess Model.preprocessing Model.sample))))%nat /\
  sampling_rate (snd (preprocess Model.preprocessing Model.sample))
  = round64 (nth 1 (grid (snd (preprocess Model.preprocessing Model.sample))) 0
             - nth 0 (grid (snd (preprocess Model.preprocessing Model.sample))) 0).
Proof.
  apply (preprocess_returns_the_recipe Model.preprocessing Model.sample
           (snd (preprocess Model.preprocessing Model.sample))
           (squeeze (tdata_of (snd (preprocess Model.preprocessing Model.sample))))).
  vm_compute. reflexivity.
Defined.

(** On the model the recipe returns a vector of twenty values, one per point
    of the interpolated trial. *)
Example preprocess_returns_a_vector :
  exists v o', preprocess Model.preprocessing Model.sample = (Ok (Array1 v), o') /\
               length v = 20%nat /\ shape1 (tdata_of o') = 1%nat.
Proof. eexists. eexists. split; [vm_compute; reflexivity | split; reflexivity]. Qed.

(** A recording of four samples whose period of one second gives three
    trials: folding leaves a single row. *)
Definition three_trials : Oscillation :=
  mkOscillation 1 (Some 1) Model.sample_data 0 None false DataArray [] 1
                (arange_times 4 1) 0 3 None None [EmptyString].

(** X6: what a call that raised leaves behind.  [psc] and [detrend] leave the
    object untouched; [average] has already replaced [ids]; [trial_average],
    [interp] and [fft] either leave it untouched (the transformer raised) or
    raise [IndexError] on a grid of fewer than two points, and then the data
    are already transformed and the name is in the chain, while
    [sampling_rate] is the old one. *)
Theorem what_a_failed_call_leaves (P : Preprocessing) (o o' : Oscillation) (e : exn) :
  (forall b e0, psc P b e0 o = (Raise e, o') -> o' = o) /\
  (forall order keep, detrend P order keep o = (Raise e, o') -> o' = o) /\
  (average P o = (Raise e, o') ->
   o' = set_ids (match labels o with
                 | None => [EmptyString]
                 | Some ls => nodup string_dec ls
                 end) o) /\
  (forall b, trial_average P b o = (Raise e, o') ->
             o' = o \/ e = IndexError /\ left_half_done "Trial Average" o o') /\
  (forall t, interp P t o = (Raise e, o') ->
             o' = o \/ e = IndexError /\ left_half_done "Crop and Interpolate" o o') /\
  (fft P o = (Raise e, o') -> o' = o \/ e = IndexError /\ left_half_done "FFT" o o').
Proof.
  split; [| split; [| split; [| split; [| split]]]].
  - intros b e0 H.
    destruct (psc_ends P b e0 o) as [(ex & E) | [(_ & E) | (_ & X & E)]];
      rewrite E in H; congruence.
  - intros order keep H.
    destruct (detrend_ends P order keep o) as [(ex & E) | [(_ & E) | (_ & X & E)]];
      rewrite E in H; congruence.
  - intros H. destruct (average_ends P o) as [(ex & E) | (X & E)];
      rewrite E in H; congruence.
  - intros b H.
    destruct (trial_average_ends P b o) as [(ex & E) | [(o1 & E & Hh) | (o1 & E & _)]];
      rewrite E in H; try discriminate; injection H as <- <-; auto.
  - intros t H.
    destruct (interp_ends P t o) as [(ex & E) | [(o1 & E & Hh) | (o1 & E & _)]];
      rewrite E in H; try discriminate; injection H as <- <-; auto.
  - intros H.
    destruct (fft_ends P o) as [(ex & E) | [(o1 & E & Hh) | (o1 & E & _)]];
      rewrite E in H; try discriminate; injection H as <- <-; auto.
Qed.

Lemma what_a_failed_call_leaves_witness :
  trial_average Model.preprocessing false three_trials
  = (Raise IndexError, snd (trial_average Model.preprocessing false three_trials)) /\
  (snd (trial_average Model.preprocessing false three_trials) = three_trials \/
   IndexError = IndexError /\
   left_half_done "Trial Average" three_trials
                  (snd (trial_average Model.preprocessing false three_trials))).
Proof.
  pose proof (what_a_failed_call_leaves Model.preprocessing three_trials
                (snd (trial_average Model.preprocessing false three_trials)) IndexError)
    as (_ & _ & _ & H & _).
  split; [vm_compute; reflexivity |].
  apply (H false). vm_compute. reflexivity.
Defined.

(** After the failed call the single folded row is in [tdata] and the name
    in the chain. *)
Example trial_average_left_half_done :
  shape0 (tdata_of (snd (trial_average Model.preprocessing false three_trials))) = 1%nat /\
  transformation_chain (snd (trial_average Model.preprocessing false three_trials))
  = ["Trial Average"%string] /\
  length (grid (snd (trial_average Model.preprocessing false three_trials))) = 1%nat.
Proof. vm_compute. repeat split. Qed.

(** X7: the [try] of [psc] does not cover [baseline_begin]: with a sampling
    rate of zero or an infinite [baseline_begin], a first [psc] raises,
    whatever [baseline_end] is, and leaves the object untouched. *)
Theorem psc_begin_error_escapes (P : Preprocessing) (o : Oscillation)
    (baseline_begin baseline_end : pyfloat) :
  in_chain "PSC" o = false ->
  sampling_rate o == 0 \/ baseline_begin = PInf \/ baseline_begin = NInf ->
  exists ex, psc P baseline_begin baseline_end o = (Raise ex, o).
Proof.
  intros Hin Hcause. unfold psc, bind, self, lift. cbv beta. rewrite Hin.
  unfold psc_baseline, psc_begin_vol, float_div.
  destruct (Qeq_bool (sampling_rate o) 0) eqn:E.
  - exists ZeroDivisionError. reflexivity.
  - destruct Hcause as [H0 | [-> | ->]].
    + apply Qeq_bool_iff in H0. congruence.
    + exists OverflowError. destruct (Qlt_bool 0 (sampling_rate o)); reflexivity.
    + exists OverflowError. destruct (Qlt_bool 0 (sampling_rate o)); reflexivity.
Qed.

Lemma psc_begin_error_escapes_witness :
  exists ex, psc Model.preprocessing PInf (Fin 3) Model.sample
             = (Raise ex, Model.sample).
Proof.
  apply (psc_begin_error_escapes Model.preprocessing Model.sample PInf (Fin 3)).
  - reflexivity.
  - right. left. reflexivity.
Defined.

(** ** Label groups of [average] *)

Lemma where_eq_from (ls : list string) (id : string) :
  forall start i,
    In i (map fst (filter (fun p => String.eqb (snd p) id)
                          (combine (seq start (length ls)) ls)))
    <-> (start <= i)%nat /\ nth_error ls (i - start) = Some id.
Proof.
  induction ls as [| l ls IH]; intros start i; simpl.
  - split; [tauto |]. intros [_ H]. destruct (i - start)%nat; discriminate.
  - destruct (String.eqb_spec l id) as [-> | Hne]; simpl; rewrite IH.
    + split.
      * intros [<- | [Hle H]].
        -- split; [lia |]. now rewrite Nat.sub_diag.
        -- split; [lia |]. replace (i - start)%nat with (S (i - S start)) by lia.
           exact H.
      * intros [Hle H]. destruct (Nat.eq_dec start i) as [-> | Hne]; [now left |].
        right. split; [lia |].
        replace (i - start)%nat with (S (i - S start)) in H by lia. exact H.
    + split.
      * intros [Hle H]. split; [lia |].
        replace (i - start)%nat with (S (i - S start)) by lia. exact H.
      * intros [Hle H]. destruct (Nat.eq_dec start i) as [-> | Hne'].
        -- rewrite Nat.sub_diag in H. simpl in H. congruence.
        -- split; [lia |].
           replace (i - start)%nat with (S (i - S start)) in H by lia. exact H.
Qed.

(** X8: the column groups [average] hands to the [ColumnTransformer]
    partition the channels: there is one group per distinct label, and a
    channel index is in the group of a label exactly when the channel bears
    that label, so every channel is averaged into one column and only one. *)
Theorem label_groups_partition_channels (ls : list string) :
  NoDup (nodup string_dec ls) /\
  (forall id, In id (nodup string_dec ls) <-> In id ls) /\
  (forall i id, In i (where_eq ls id) <-> nth_error ls i = Some id) /\
  (forall i id id', In i (where_eq ls id) -> In i (where_eq ls id') -> id = id') /\
  (forall i, (i < length ls)%nat ->
             exists id, In id (nodup string_dec ls) /\ In i (where_eq ls id)).
Proof.
  assert (Hw : forall i id, In i (where_eq ls id) <-> nth_error ls i = Some id).
  { intros i id. unfold where_eq. rewrite where_eq_from.
    rewrite Nat.sub_0_r. split; [tauto | split; [lia | assumption]]. }
  split; [apply NoDup_nodup |]. split; [intros id; apply nodup_In |].
  split; [exact Hw |]. split.
  - intros i id id' H H'. apply Hw in H, H'. congruence.
  - intros i Hi. destruct (nth_error ls i) as [id |] eqn:E.
    + exists id. split; [| now apply Hw].
      apply nodup_In. eapply nth_error_In. exact E.
    + apply nth_error_None in E. lia.
Qed.

Lemma label_groups_partition_channels_witness :
  In 2%nat (where_eq ["a"; "b"; "a"]%string "a"%string) /\
  (exists id, In id (nodup string_dec ["a"; "b"; "a"]%string) /\
              In 1%nat (where_eq ["a"; "b"; "a"]%string id)).
Proof.
  pose proof (label_groups_partition_channels ["a"; "b"; "a"]%string)
    as (_ & _ & H3 & _ & H5).
  split; [apply H3; reflexivity | apply H5; simpl; lia].
Defined.

(** ** The moving average *)

(** X9: [moving_average(a, n)] returns the means of all windows of [n]
    consecutive entries when [1 <= n <= len(a)]; an empty array when [n]
    exceeds the length; and raises [ValueError] for [n = 0] on a non-empty
    array. *)
Theorem moving_average_by_window_length (a : list Q) (n : Z) :
  ((1 <= n <= Z.of_nat (length a))%Z ->
   exists out,
     moving_average a n = Ok out /\
     length out = (length a - Z.to_nat n + 1)%nat /\
     forall k, (k < length out)%nat ->
               nth k out 0 == Qsum (firstn (Z.to_nat n) (skipn k a)) / inject_Z n) /\
  ((Z.of_nat (length a) < n)%Z -> moving_average a n = Ok []) /\
  (n = 0%Z -> a <> [] -> moving_average a n = Raise ValueError).
Proof.
  split; [apply moving_average_window |].
  assert (Hret : length (cumsum a) = length a) by apply length_cumsum_from.
  split.
  - intros Hn. unfold moving_average.
    assert (Hi : slice_index n (length (cumsum a)) = length a).
    { unfold slice_index. destruct (Z.ltb_spec n 0); lia. }
    assert (Hm : slice_index (- n) (length (cumsum a)) = O).
    { unfold slice_index. destruct (Z.ltb_spec (- n) 0); lia. }
    assert (Hs : skipn (length a) (cumsum a) = [])
      by (rewrite <- Hret; apply skipn_all).
    assert (Hf : firstn (length a) (cumsum a) = cumsum a)
      by (rewrite <- Hret; apply firstn_all).
    assert (Hj : slice_index (n - 1) (length (cumsum a)) = length a).
    { unfold slice_index. destruct (Z.ltb_spec (n - 1) 0); lia. }
    unfold slice_from, slice_to. rewrite Hi, Hm, Hs, Hf. simpl.
    rewrite app_nil_r, Hj, Hs. reflexivity.
  - intros -> Ha. unfold moving_average, slice_from, slice_to.
    change (- 0)%Z with 0%Z.
    change (slice_index 0 (length (cumsum a)))
      with (Z.to_nat (Z.min 0 (Z.of_nat (length (cumsum a))))).
    replace (Z.to_nat (Z.min 0 (Z.of_nat (length (cumsum a))))) with O by lia.
    simpl skipn. simpl firstn. rewrite Hret.
    destruct a as [| x a]; [congruence | reflexivity].
Qed.

Lemma moving_average_by_window_length_witness :
  (exists out,
     moving_average [1; 2; 3; 6] 2 = Ok out /\
     length out = (length [1; 2; 3; 6]%Q - Z.to_nat 2 + 1)%nat /\
     forall k, (k < length out)%nat ->
               nth k out 0
               == Qsum (firstn (Z.to_nat 2) (skipn k [1; 2; 3; 6])) / inject_Z 2) /\
  moving_average [1; 2; 3; 6] 5 = Ok [] /\
  moving_average [1; 2; 3; 6] 0 = Raise ValueError.
Proof.
  pose proof (moving_average_by_window_length [1; 2; 3; 6] 2) as (H1 & _).
  pose proof (moving_average_by_window_length [1; 2; 3; 6] 5) as (_ & H2 & _).
  pose proof (moving_average_by_window_length [1; 2; 3; 6] 0) as (_ & _ & H3).
  split; [apply H1; simpl; lia |].
  split; [apply H2; simpl; lia |].
  apply H3; [reflexivity | discriminate].
Defined.

(** ** The confidence index *)

Lemma positive_sum_nonneg trace : 0 <= positive_sum trace.
Proof.
  unfold positive_sum. induction trace as [| x t IH]; simpl; [lra |].
  destruct (Qlt_bool 0 x) eqn:E; [apply Qlt_bool_iff in E |]; lra.
Qed.

Lemma negative_sum_nonpos trace : negative_sum trace <= 0.
Proof.
  unfold negative_sum. induction trace as [| x t IH]; simpl; [lra |].
  destruct (Qlt_bool x 0) eqn:E; [apply Qlt_bool_iff in E |]; lra.
Qed.

Lemma Qlt_bool_false a b : Qlt_bool a b = false -> b <= a.
Proof.
  intros E. destruct (Qlt_le_dec a b) as [H | H]; [| exact H].
  apply Qlt_bool_iff in H. congruence.
Qed.

Lemma positive_plus_negative trace :
  positive_sum trace + negative_sum trace == Qsum trace.
Proof.
  unfold positive_sum, negative_sum. induction trace as [| x t IH]; simpl; [lra |].
  destruct (Qlt_bool 0 x) eqn:E1; destruct (Qlt_bool x 0) eqn:E2;
    try apply Qlt_bool_iff in E1; try apply Qlt_bool_iff in E2;
    try apply Qlt_bool_false in E1; try apply Qlt_bool_false in E2; lra.
Qed.

Lemma positive_minus_negative trace :
  positive_sum trace - negative_sum trace == Qsum (map Qabs trace).
Proof.
  unfold positive_sum, negative_sum. induction trace as [| x t IH]; simpl; [lra |].
  destruct (Qlt_bool 0 x) eqn:E1; destruct (Qlt_bool x 0) eqn:E2;
    try apply Qlt_bool_iff in E1; try apply Qlt_bool_iff in E2;
    try apply Qlt_bool_false in E1; try apply Qlt_bool_false in E2.
  - lra.
  - rewrite (Qabs_pos x) by lra. lra.
  - rewrite (Qabs_neg x) by lra. lra.
  - rewrite (Qabs_pos x) by lra. lra.
Qed.

Lemma Qsum_abs_zero trace :
  Qsum (map Qabs trace) == 0 <-> Forall (fun x => x == 0) trace.
Proof.
  assert (Hnn : forall t, 0 <= Qsum (map Qabs t)).
  { induction t as [| x t IH]; simpl; [lra |]. pose proof (Qabs_nonneg x). lra. }
  induction trace as [| x t IH]; simpl.
  - split; [constructor | reflexivity].
  - pose proof (Qabs_nonneg x) as Hx. pose proof (Hnn t) as Ht. split.
    + intros H. assert (Hx0 : Qabs x == 0) by lra.
      constructor.
      * revert Hx0. apply Qabs_case; intros; lra.
      * apply IH. lra.
    + intros H. inversion H as [| ? ? H0 Hrest]; subst.
      apply IH in Hrest. rewrite H0. simpl Qabs.
      change (Qabs 0) with 0. lra.
Qed.

Lemma ratio_value trace r :
  ratio trace = Some r ->
  0 < positive_sum trace - negative_sum trace /\
  r * (positive_sum trace - negative_sum trace)
  == Qabs (positive_sum trace + negative_sum trace).
Proof.
  unfold ratio.
  pose proof (positive_sum_nonneg trace) as Hp.
  pose proof (negative_sum_nonpos trace) as Hm.
  set (p := positive_sum trace) in *. set (m := negative_sum trace) in *.
  destruct (Qeq_bool (p - m) 0) eqn:E; [discriminate |].
  intros H.
  assert (Hr : Qabs ((p + m) / (p - m)) = r) by congruence.
  rewrite <- Hr. clear H Hr.
  assert (Hd : ~ p - m == 0).
  { intros H0. apply Qeq_bool_iff in H0. congruence. }
  assert (Hpos : 0 < p - m) by lra.
  split; [exact Hpos |].
  unfold Qdiv. rewrite Qabs_Qmult, Qabs_Qinv, (Qabs_pos (p - m)) by lra.
  field. exact Hd.
Qed.

(** X10: [ratio(trace)] is NaN exactly for a trace of zeros; otherwise it is
    [|sum(trace)| / sum(|trace|)], lies between 0 and 1, and equals 1 exactly
    when the trace has no positive part or no negative part. *)
Theorem ratio_is_net_over_total (trace : list Q) :
  (ratio trace = None <-> Forall (fun x => x == 0) trace) /\
  (forall r, ratio trace = Some r ->
             r == Qabs (Qsum trace) / Qsum (map Qabs trace) /\
             0 <= r <= 1 /\
             (r == 1 <-> positive_sum trace == 0 \/ negative_sum trace == 0)).
Proof.
  pose proof (positive_sum_nonneg trace) as Hp.
  pose proof (negative_sum_nonpos trace) as Hm.
  pose proof (positive_plus_negative trace) as Hsum.
  pose proof (positive_minus_negative trace) as Habs.
  split.
  - rewrite <- Qsum_abs_zero, <- Habs. unfold ratio.
    destruct (Qeq_bool (positive_sum trace - negative_sum trace) 0) eqn:E.
    + apply Qeq_bool_iff in E. split; [intros _; exact E | reflexivity].
    + split; [discriminate |]. intros H. apply Qeq_bool_iff in H. congruence.
  - intros r Hr. destruct (ratio_value trace r Hr) as [Hd Hv].
    set (p := positive_sum trace) in *. set (m := negative_sum trace) in *.
    assert (Hbound : Qabs (p + m) <= p - m).
    { apply Qabs_Qle_condition. lra. }
    pose proof (Qabs_nonneg (p + m)) as Hnn.
    assert (Hr' : r == Qabs (p + m) / (p - m)).
    { rewrite <- Hv. field. lra. }
    split; [| split; [split |]].
    + rewrite Hr', Hsum, Habs. reflexivity.
    + rewrite Hr'. apply Qle_shift_div_l; lra.
    + rewrite Hr'. apply Qle_shift_div_r; lra.
    + split.
      * intros H1. rewrite H1 in Hv.
        revert Hv. apply Qabs_case; intros Hs Hv; [right | left]; lra.
      * intros H0. rewrite Hr'.
        assert (E : Qabs (p + m) == p - m).
        { destruct H0 as [H0 | H0].
          - rewrite Qabs_neg by lra. lra.
          - rewrite Qabs_pos by lra. lra. }
        rewrite E. field. lra.
Qed.

Lemma ratio_is_net_over_total_witness :
  exists r,
    ratio [3; - (1)] = Some r /\
    r == Qabs (Qsum [3; - (1)]) / Qsum (map Qabs [3; - (1)]) /\
    0 <= r <= 1 /\
    (r == 1 <-> positive_sum [3; - (1)] == 0 \/ negative_sum [3; - (1)] == 0).
Proof.
  eexists. split; [reflexivity |].
  apply (proj2 (ratio_is_net_over_total [3; - (1)])). reflexivity.
Defined.

Lemma ratio_of_nonzero_trace trace :
  ~ Forall (fun x => x == 0) trace ->
  exists r, ratio trace = Some r /\ 0 <= r <= 1.
Proof.
  intros Hnz.
  pose proof (positive_sum_nonneg trace) as Hp.
  pose proof (negative_sum_nonpos trace) as Hm.
  destruct (ratio trace) as [r |] eqn:Er.
  - exists r. split; [reflexivity |].
    destruct (ratio_value trace r Er) as [Hd Hv].
    assert (Hbound : Qabs (positive_sum trace + negative_sum trace)
                     <= positive_sum trace - negative_sum trace).
    { apply Qabs_Qle_condition. lra. }
    pose proof (Qabs_nonneg (positive_sum trace + negative_sum trace)) as Hnn.
    assert (Hr' : r == Qabs (positive_sum trace + negative_sum trace)
                       / (positive_sum trace - negative_sum trace)).
    { rewrite <- Hv. field. lra. }
    rewrite Hr'. split; [apply Qle_shift_div_l | apply Qle_shift_div_r]; lra.
  - exfalso. apply Hnz. apply Qsum_abs_zero.
    rewrite <- positive_minus_negative. unfold ratio in Er.
    destruct (Qeq_bool (positive_sum trace - negative_sum trace) 0) eqn:E;
      [| discriminate].
    apply Qeq_bool_iff in E. exact E.
Qed.

Lemma weighted_sum_between (a b x y lo hi : Q) :
  0 <= a -> 0 <= b ->
  lo <= x <= hi -> lo <= y <= hi ->
  lo * (a + b) <= a * x + b * y <= hi * (a + b).
Proof.
  intros Ha Hb [Hx1 Hx2] [Hy1 Hy2].
  assert (H1 : 0 <= a * (x - lo)) by (apply Qmult_le_0_compat; lra).
  assert (H2 : 0 <= b * (y - lo)) by (apply Qmult_le_0_compat; lra).
  assert (H3 : 0 <= a * (hi - x)) by (apply Qmult_le_0_compat; lra).
  assert (H4 : 0 <= b * (hi - y)) by (apply Qmult_le_0_compat; lra).
  split; lra.
Qed.

(** X11: when the square of [np.hypot] on the two sums is within a relative
    [eps] of the sum of their squares, neither trace is all zeros and the
    sums are not both zero, [confidence_index] is a number [c]: times the
    squared amplitude it is the sum of the two ratios weighted by the squared
    sums; it lies between the smaller ratio over [1 + eps] and the larger
    over [1 - eps], and between 0 and [1 / (1 - eps)].  With [eps = 0] it is
    the weighted mean of the ratios, between them and between 0 and 1. *)
Theorem confidence_index_is_weighted_ratio (hypot : Q -> Q -> Q)
    (trace_s trace_c : list Q) (eps : Q) :
  0 <= eps < 1 ->
  (1 - eps) * (Qsum trace_s * Qsum trace_s + Qsum trace_c * Qsum trace_c)
  <= hypot (Qsum trace_s) (Qsum trace_c) * hypot (Qsum trace_s) (Qsum trace_c)
  <= (1 + eps) * (Qsum trace_s * Qsum trace_s + Qsum trace_c * Qsum trace_c) ->
  ~ Forall (fun x => x == 0) trace_s ->
  ~ Forall (fun x => x == 0) trace_c ->
  ~ (Qsum trace_s == 0 /\ Qsum trace_c == 0) ->
  exists c ratio_s ratio_c,
    confidence_index hypot trace_s trace_c = Some c /\
    ratio trace_s = Some ratio_s /\ ratio trace_c = Some ratio_c /\
    c * (hypot (Qsum trace_s) (Qsum trace_c) * hypot (Qsum trace_s) (Qsum trace_c))
    == Qsum trace_s * Qsum trace_s * ratio_s + Qsum trace_c * Qsum trace_c * ratio_c /\
    Qmin ratio_s ratio_c / (1 + eps) <= c <= Qmax ratio_s ratio_c / (1 - eps) /\
    0 <= c <= 1 / (1 - eps).
Proof.
  intros Heps Hhyp Hs Hc Hnz.
  destruct (ratio_of_nonzero_trace trace_s Hs) as (rs & Ers & Hrs).
  destruct (ratio_of_nonzero_trace trace_c Hc) as (rc & Erc & Hrc).
  set (A := Qsum trace_s) in *. set (B := Qsum trace_c) in *.
  set (h2 := hypot A B * hypot A B) in *.
  assert (HA : 0 <= A * A) by (rewrite <- (Qmult_0_l 0); nra).
  assert (HB : 0 <= B * B) by (rewrite <- (Qmult_0_l 0); nra).
  assert (Hpos : 0 < A * A + B * B).
  { destruct (Qeq_dec A 0) as [EA | NA].
    - destruct (Qeq_dec B 0) as [EB | NB]; [exfalso; apply Hnz; split; assumption |].
      assert (0 < B * B) by nra. lra.
    - assert (0 < A * A) by nra. lra. }
  set (S2 := A * A + B * B) in *.
  assert (Hh2 : 0 < h2).
  { apply Qlt_le_trans with ((1 - eps) * S2); [| apply Hhyp].
    apply Qmult_lt_0_compat; lra. }
  set (N := A * A * rs + B * B * rc).
  pose proof (Q.le_min_l rs rc) as Hm1. pose proof (Q.le_min_r rs rc) as Hm2.
  pose proof (Q.le_max_l rs rc) as HM1. pose proof (Q.le_max_r rs rc) as HM2.
  assert (Hmin0 : 0 <= Qmin rs rc) by (apply Q.min_glb; lra).
  assert (HN : Qmin rs rc * S2 <= N <= Qmax rs rc * S2).
  { apply (weighted_sum_between (A * A) (B * B) rs rc); try assumption; split; assumption. }
  assert (HN1 : 0 * S2 <= N <= 1 * S2).
  { apply (weighted_sum_between (A * A) (B * B) rs rc); assumption. }
  exists (N / h2), rs, rc.
  split; [| split; [exact Ers | split; [exact Erc | split; [| split]]]].
  - unfold confidence_index. rewrite Ers, Erc. fold A. fold B. fold h2.
    destruct (Qeq_bool h2 0) eqn:E; [| reflexivity].
    apply Qeq_bool_iff in E. lra.
  - unfold N. field. lra.
  - assert (L : Qmin rs rc * h2 <= Qmin rs rc * ((1 + eps) * S2))
      by (apply Qmult_le_l_weak || (rewrite !(Qmult_comm (Qmin rs rc)); apply Qmult_le_compat_r); [apply Hhyp | exact Hmin0]).
    assert (U : Qmax rs rc * ((1 - eps) * S2) <= Qmax rs rc * h2).
    { rewrite !(Qmult_comm (Qmax rs rc)). apply Qmult_le_compat_r; [apply Hhyp | lra]. }
    assert (L' : (1 + eps) * (Qmin rs rc * S2) <= (1 + eps) * N).
    { rewrite !(Qmult_comm (1 + eps)). apply Qmult_le_compat_r; [apply HN | lra]. }
    assert (U' : (1 - eps) * N <= (1 - eps) * (Qmax rs rc * S2)).
    { rewrite !(Qmult_comm (1 - eps)). apply Qmult_le_compat_r; [apply HN | lra]. }
    split.
    + apply Qle_shift_div_r; [lra |]. 
      setoid_replace (N / h2 * (1 + eps)) with (((1 + eps) * N) / h2) by (field; lra).
      apply Qle_shift_div_l; [exact Hh2 |]. lra.
    + apply Qle_shift_div_l; [lra |].
      setoid_replace (N / h2 * (1 - eps)) with (((1 - eps) * N) / h2) by (field; lra).
      apply Qle_shift_div_r; [exact Hh2 |]. lra.
  - split.
    + apply Qle_shift_div_l; [exact Hh2 |]. lra.
    + apply Qle_shift_div_l; [lra |].
      setoid_replace (N / h2 * (1 - eps)) with (((1 - eps) * N) / h2) by (field; lra).
      apply Qle_shift_div_r; [exact Hh2 |].
      assert (U' : (1 - eps) * N <= (1 - eps) * (1 * S2)).
      { rewrite !(Qmult_comm (1 - eps)). apply Qmult_le_compat_r; [apply HN1 | lra]. }
      lra.
Qed.

(** [np.hypot] to six decimal places. *)
Definition hypot6 (a b : Q) : Q := Model.sqrt (a * a + b * b).

Lemma confidence_index_is_weighted_ratio_witness :
  exists c ratio_s ratio_c,
    confidence_index hypot6 [3; - (2)] [1] = Some c /\
    ratio [3; - (2)] = Some ratio_s /\ ratio [1] = Some ratio_c /\
    c * (hypot6 (Qsum [3; - (2)]) (Qsum [1]) * hypot6 (Qsum [3; - (2)]) (Qsum [1]))
    == Qsum [3; - (2)] * Qsum [3; - (2)] * ratio_s + Qsum [1] * Qsum [1] * ratio_c /\
    Qmin ratio_s ratio_c / (1 + (1 # 1000000)) <= c
    <= Qmax ratio_s ratio_c / (1 - (1 # 1000000)) /\
    0 <= c <= 1 / (1 - (1 # 1000000)).
Proof.
  apply (confidence_index_is_weighted_ratio hypot6 [3; - (2)] [1] (1 # 1000000)).
  - split; [discriminate | reflexivity].
  - split; vm_compute; discriminate.
  - intros H. inversion H as [| ? ? H0 _]. discriminate H0.
  - intros H. inversion H as [| ? ? H0 _]. discriminate H0.
  - intros [H _]. discriminate H.
Defined.

(** ** Phase and amplitude *)

Lemma argmin_from_scan (l : list Q) :
  forall (seen : list Q) (best_i : nat) (best : Q),
    (best_i < length seen)%nat ->
    nth best_i seen 0 = best ->
    (forall j, (j < length seen)%nat -> best <= nth j seen 0) ->
    (forall j, (j < best_i)%nat -> best < nth j seen 0) ->
    let k := argmin_from best_i best (length seen) l in
    (k < length (seen ++ l))%nat /\
    (forall j, (j < length (seen ++ l))%nat -> nth k (seen ++ l) 0 <= nth j (seen ++ l) 0) /\
    (forall j, (j < k)%nat -> nth k (seen ++ l) 0 < nth j (seen ++ l) 0).
Proof.
  induction l as [| x l IH]; intros seen best_i best Hi Hbest Hmin Hfirst; simpl.
  - rewrite app_nil_r, Hbest. auto.
  - assert (Hlen : length (seen ++ [x]) = S (length seen))
      by (rewrite length_app; simpl; lia).
    replace (seen ++ x :: l) with ((seen ++ [x]) ++ l)
      by (rewrite <- app_assoc; reflexivity).
    destruct (Qlt_bool x best) eqn:E.
    + apply Qlt_bool_iff in E.
      specialize (IH (seen ++ [x]) (length seen) x). rewrite Hlen in IH.
      apply IH.
      * lia.
      * rewrite app_nth2 by lia. now rewrite Nat.sub_diag.
      * intros j Hj. destruct (Nat.eq_dec j (length seen)) as [-> | Hne].
        -- rewrite app_nth2 by lia. rewrite Nat.sub_diag. simpl. lra.
        -- rewrite app_nth1 by lia. specialize (Hmin j ltac:(lia)). lra.
      * intros j Hj. rewrite app_nth1 by lia. specialize (Hmin j Hj). lra.
    + apply Qlt_bool_false in E.
      specialize (IH (seen ++ [x]) best_i best). rewrite Hlen in IH.
      apply IH.
      * lia.
      * rewrite app_nth1 by lia. exact Hbest.
      * intros j Hj. destruct (Nat.eq_dec j (length seen)) as [-> | Hne].
        -- rewrite app_nth2 by lia. rewrite Nat.sub_diag. simpl. exact E.
        -- rewrite app_nth1 by lia. apply Hmin. lia.
      * intros j Hj. rewrite app_nth1 by lia. apply Hfirst. exact Hj.
Qed.

Lemma argmin_first_minimum (l : list Q) :
  l <> [] ->
  exists k, argmin l = Ok k /\ (k < length l)%nat /\
            (forall j, (j < length l)%nat -> nth k l 0 <= nth j l 0) /\
            (forall j, (j < k)%nat -> nth k l 0 < nth j l 0).
Proof.
  destruct l as [| x l]; [congruence |]. intros _.
  exists (argmin_from 0 x 1 l). split; [reflexivity |].
  apply (argmin_from_scan l [x] O x).
  - simpl. lia.
  - reflexivity.
  - intros [| j] Hj; simpl in *; [lra | lia].
  - intros j Hj. lia.
Qed.

Lemma argmin0_first_minimum (m : matrix) :
  m <> [] ->
  exists best,
    argmin0 m = Ok best /\ length best = shape1 m /\
    forall j, (j < shape1 m)%nat ->
      (nth j best O < length m)%nat /\
      (forall i, (i < length m)%nat ->
                 nth (nth j best O) (column j m) 0 <= nth i (column j m) 0) /\
      (forall i, (i < nth j best O)%nat ->
                 nth (nth j best O) (column j m) 0 < nth i (column j m) 0).
Proof.
  intros Hne.
  set (K := fun j => match argmin (column j m) with Ok k => k | Raise _ => O end).
  assert (HK : forall j, argmin (column j m) = Ok (K j) /\
                         (K j < length m)%nat /\
                         (forall i, (i < length m)%nat ->
                                    nth (K j) (column j m) 0 <= nth i (column j m) 0) /\
                         (forall i, (i < K j)%nat ->
                                    nth (K j) (column j m) 0 < nth i (column j m) 0)).
  { intros j. destruct (argmin_first_minimum (column j m)) as (k & E & Hk).
    - unfold column. destruct m; [congruence | discriminate].
    - unfold K. rewrite E. unfold column in Hk at 1 2. rewrite length_map in Hk.
      split; [reflexivity | exact Hk]. }
  exists (map K (seq 0 (shape1 m))). split; [| split].
  - unfold argmin0. destruct m as [| c cs]; [congruence |].
    apply collect_map_Ok. intros j _. apply HK.
  - now rewrite length_map, length_seq.
  - intros j Hj.
    rewrite (nth_map_lt K _ _ _ O) by (now rewrite length_seq).
    rewrite seq_nth by exact Hj. simpl. apply HK.
Qed.

(** Indexing a grid with indices that are all in range. *)
Lemma take_in_range (g : list Q) (idx : list nat) :
  (forall i, In i idx -> (i < length g)%nat) ->
  take g idx = Ok (map (fun i => nth i g 0) idx).
Proof.
  intros H. unfold take. apply collect_map_Ok. intros i Hi.
  unfold getitem. rewrite (nth_error_nth' g 0) by (apply H; exact Hi). reflexivity.
Qed.

Lemma in_range_of_nth (idx : list nat) (n bound : nat) :
  length idx = n ->
  (forall j, (j < n)%nat -> (nth j idx O < bound)%nat) ->
  forall i, In i idx -> (i < bound)%nat.
Proof.
  intros Hlen H i Hi. destruct (In_nth idx i O Hi) as (j & Hj & <-).
  apply H. lia.
Qed.

(** X12: on an object whose grid is as long as its data have rows, and with
    at least one row, [phase] returns one value per channel: the grid value
    at the first row where the channel is smallest.  Without rows it raises
    [ValueError]. *)
Theorem phase_is_grid_at_first_minimum (o : Oscillation) :
  (tdata_of o = [] -> phase o = Raise ValueError) /\
  (length (grid o) = shape0 (tdata_of o) -> (1 <= shape0 (tdata_of o))%nat ->
   exists ph,
     phase o = Ok ph /\ length ph = shape1 (tdata_of o) /\
     forall j, (j < shape1 (tdata_of o))%nat ->
       exists k, (k < shape0 (tdata_of o))%nat /\
                 nth j ph 0 = nth k (grid o) 0 /\
                 (forall i, (i < shape0 (tdata_of o))%nat ->
                            nth k (column j (tdata_of o)) 0
                            <= nth i (column j (tdata_of o)) 0) /\
                 (forall i, (i < k)%nat ->
                            nth k (column j (tdata_of o)) 0
                            < nth i (column j (tdata_of o)) 0)).
Proof.
  split.
  - intros H. unfold phase. rewrite H. reflexivity.
  - intros Hlen Hrows. unfold shape0 in *.
    destruct (argmin0_first_minimum (tdata_of o)) as (best & E & Hb & Hspec).
    { intros H. rewrite H in Hrows. simpl in Hrows. lia. }
    exists (map (fun i => nth i (grid o) 0) best). split; [| split].
    + unfold phase. rewrite E. cbn [rbind]. apply take_in_range.
      apply (in_range_of_nth best (shape1 (tdata_of o))); [exact Hb |].
      intros j Hj. rewrite Hlen. apply Hspec. exact Hj.
    + rewrite length_map. exact Hb.
    + intros j Hj. destruct (Hspec j Hj) as (Hk & Hmin & Hfirst).
      exists (nth j best O). split; [exact Hk | split; [| split; assumption]].
      apply (nth_map_lt (fun i => nth i (grid o) 0)). lia.
Qed.

Lemma phase_is_grid_at_first_minimum_witness :
  exists ph,
    phase Model.sample = Ok ph /\ length ph = shape1 (tdata_of Model.sample) /\
    forall j, (j < shape1 (tdata_of Model.sample))%nat ->
      exists k, (k < shape0 (tdata_of Model.sample))%nat /\
                nth j ph 0 = nth k (grid Model.sample) 0 /\
                (forall i, (i < shape0 (tdata_of Model.sample))%nat ->
                           nth k (column j (tdata_of Model.sample)) 0
                           <= nth i (column j (tdata_of Model.sample)) 0) /\
                (forall i, (i < k)%nat ->
                           nth k (column j (tdata_of Model.sample)) 0
                           < nth i (column j (tdata_of Model.sample)) 0).
Proof.
  apply (proj2 (phase_is_grid_at_first_minimum Model.sample)).
  - reflexivity.
  - simpl. lia.
Defined.

Lemma fold_min_below (l : list Q) :
  forall x, fold_left Qmin l x <= x /\ forall y, In y l -> fold_left Qmin l x <= y.
Proof.
  induction l as [| a l IH]; intros x; simpl.
  - split; [lra | tauto].
  - destruct (IH (Qmin x a)) as [H1 H2].
    pose proof (Q.le_min_l x a). pose proof (Q.le_min_r x a).
    split; [lra |]. intros y [<- | Hy]; [lra | apply H2; exact Hy].
Qed.

Lemma fold_min_attained (l : list Q) :
  forall x, fold_left Qmin l x == x \/ exists y, In y l /\ fold_left Qmin l x == y.
Proof.
  induction l as [| a l IH]; intros x; simpl.
  - left. reflexivity.
  - destruct (IH (Qmin x a)) as [H | (y & Hy & H)].
    + destruct (Q.min_dec x a) as [E | E].
      * left. rewrite H. exact E.
      * right. exists a. split; [now left |]. rewrite H. exact E.
    + right. exists y. split; [now right | exact H].
Qed.

Lemma fold_max_above (l : list Q) :
  forall x, x <= fold_left Qmax l x /\ forall y, In y l -> y <= fold_left Qmax l x.
Proof.
  induction l as [| a l IH]; intros x; simpl.
  - split; [lra | tauto].
  - destruct (IH (Qmax x a)) as [H1 H2].
    pose proof (Q.le_max_l x a). pose proof (Q.le_max_r x a).
    split; [lra |]. intros y [<- | Hy]; [lra | apply H2; exact Hy].
Qed.

Lemma fold_max_attained (l : list Q) :
  forall x, fold_left Qmax l x == x \/ exists y, In y l /\ fold_left Qmax l x == y.
Proof.
  induction l as [| a l IH]; intros x; simpl.
  - left. reflexivity.
  - destruct (IH (Qmax x a)) as [H | (y & Hy & H)].
    + destruct (Q.max_dec x a) as [E | E].
      * left. rewrite H. exact E.
      * right. exists a. split; [now left |]. rewrite H. exact E.
    + right. exists y. split; [now right | exact H].
Qed.

Lemma minimum_spec (l : list Q) :
  l <> [] ->
  (forall i, (i < length l)%nat -> minimum l <= nth i l 0) /\
  exists i, (i < length l)%nat /\ minimum l == nth i l 0.
Proof.
  destruct l as [| x l]; [congruence |]. intros _. simpl minimum.
  destruct (fold_min_below l x) as [H1 H2]. split.
  - intros [| i] Hi; simpl in *; [exact H1 |]. apply H2. apply nth_In. lia.
  - destruct (fold_min_attained l x) as [H | (y & Hy & H)].
    + exists O. simpl. split; [lia | exact H].
    + destruct (In_nth l y 0 Hy) as (i & Hi & E).
      exists (S i). simpl. split; [lia |]. rewrite E. exact H.
Qed.

Lemma maximum_spec (l : list Q) :
  l <> [] ->
  (forall i, (i < length l)%nat -> nth i l 0 <= maximum l) /\
  exists i, (i < length l)%nat /\ maximum l == nth i l 0.
Proof.
  destruct l as [| x l]; [congruence |]. intros _. simpl maximum.
  destruct (fold_max_above l x) as [H1 H2]. split.
  - intros [| i] Hi; simpl in *; [exact H1 |]. apply H2. apply nth_In. lia.
  - destruct (fold_max_attained l x) as [H | (y & Hy & H)].
    + exists O. simpl. split; [lia | exact H].
    + destruct (In_nth l y 0 Hy) as (i & Hi & E).
      exists (S i). simpl. split; [lia |]. rewrite E. exact H.
Qed.

(** X13: on an object whose grid is as long as its data have rows, with at
    least one row and one channel, [amplitude] returns one value per channel:
    the peak-to-peak range, which no difference between two samples of the
    channel exceeds and which two of its samples attain. *)
Theorem amplitude_is_peak_to_peak (o : Oscillation) :
  length (grid o) = shape0 (tdata_of o) ->
  (1 <= shape0 (tdata_of o))%nat -> (1 <= shape1 (tdata_of o))%nat ->
  exists amps,
    amplitude o = Ok amps /\ length amps = shape1 (tdata_of o) /\
    forall j, (j < shape1 (tdata_of o))%nat ->
      (forall i i', (i < shape0 (tdata_of o))%nat -> (i' < shape0 (tdata_of o))%nat ->
                    nth i (column j (tdata_of o)) 0 - nth i' (column j (tdata_of o)) 0
                    <= nth j amps 0) /\
      (exists i i', (i < shape0 (tdata_of o))%nat /\ (i' < shape0 (tdata_of o))%nat /\
                    nth j amps 0
                    == nth i (column j (tdata_of o)) 0
                       - nth i' (column j (tdata_of o)) 0).
Proof.
  intros Hlen Hrows Hcols. unfold shape0 in *.
  set (X := tdata_of o) in *.
  assert (Hne : X <> []).
  { intros H. rewrite H in Hrows. simpl in Hrows. lia. }
  destruct (argmin0_first_minimum X Hne) as (imin & Emin & Hbmin & Hsmin).
  destruct (argmax0_first_maximum X Hne) as (imax & Emax & Hbmax & Hsmax).
  set (mins := map (fun j => minimum (column j X)) (seq 0 (shape1 X))).
  set (maxs := map (fun j => maximum (column j X)) (seq 0 (shape1 X))).
  assert (Efit : MinMaxScaler_fit X = Ok (mins, maxs)).
  { unfold MinMaxScaler_fit, shape0.
    destruct (length X) as [| n0]; [lia |].
    destruct (shape1 X) as [| n1] eqn:E1; [lia |]. reflexivity. }
  assert (Lmins : length mins = shape1 X)
    by (unfold mins; now rewrite length_map, length_seq).
  assert (Lmaxs : length maxs = shape1 X)
    by (unfold maxs; now rewrite length_map, length_seq).
  exists (vsub maxs mins). split; [| split].
  - unfold amplitude. fold X. rewrite Efit. cbn [rbind fst snd].
    rewrite Emin. cbn [rbind].
    rewrite (take_in_range (grid o) imin); cbn [rbind].
    + rewrite Emax. cbn [rbind].
      rewrite (take_in_range (grid o) imax); [reflexivity |].
      apply (in_range_of_nth imax (shape1 X)); [exact Hbmax |].
      intros j Hj. rewrite Hlen. apply Hsmax. exact Hj.
    + apply (in_range_of_nth imin (shape1 X)); [exact Hbmin |].
      intros j Hj. rewrite Hlen. apply Hsmin. exact Hj.
  - rewrite length_vsub. lia.
  - intros j Hj.
    assert (Hcol : length (column j X) = length X) by (unfold column; apply length_map).
    assert (Hcne : column j X <> []).
    { intros H. rewrite H in Hcol. simpl in Hcol. lia. }
    destruct (minimum_spec (column j X) Hcne) as [Hmin (i0 & Hi0 & Emin0)].
    destruct (maximum_spec (column j X) Hcne) as [Hmax (i1 & Hi1 & Emax1)].
    assert (Eamp : nth j (vsub maxs mins) 0
                   = maximum (column j X) - minimum (column j X)).
    { rewrite nth_vsub by lia. unfold maxs, mins.
      rewrite !(nth_map_lt _ _ _ 0 O) by (rewrite length_seq; exact Hj).
      rewrite !seq_nth by exact Hj. reflexivity. }
    rewrite Eamp. split.
    + intros i i' Hi Hi'.
      specialize (Hmax i ltac:(lia)). specialize (Hmin i' ltac:(lia)). lra.
    + exists i1, i0. split; [lia | split; [lia |]]. rewrite Emax1, Emin0. reflexivity.
Qed.

Lemma amplitude_is_peak_to_peak_witness :
  exists amps,
    amplitude Model.sample = Ok amps /\ length amps = shape1 (tdata_of Model.sample) /\
    forall j, (j < shape1 (tdata_of Model.sample))%nat ->
      (forall i i', (i < shape0 (tdata_of Model.sample))%nat ->
                    (i' < shape0 (tdata_of Model.sample))%nat ->
                    nth i (column j (tdata_of Model.sample)) 0
                    - nth i' (column j (tdata_of Model.sample)) 0
                    <= nth j amps 0) /\
      (exists i i', (i < shape0 (tdata_of Model.sample))%nat /\
                    (i' < shape0 (tdata_of Model.sample))%nat /\
                    nth j amps 0
                    == nth i (column j (tdata_of Model.sample)) 0
                       - nth i' (column j (tdata_of Model.sample)) 0).
Proof.
  apply (amplitude_is_peak_to_peak Model.sample).
  - reflexivity.
  - simpl. lia.
  - simpl. lia.
Defined.

(** Both channels of the four-sample recording rise by six. *)
Example amplitude_of_sample :
  amplitude Model.sample = Ok [7 - 1; 8 - 2].
Proof. reflexivity. Qed.

(** ** Cross-correlation over five seconds *)

(** With a positive [maxshift] and arrays of matching shapes [find_delay]
    returns one delay per channel, each a shift of the range times [- tr]. *)
Lemma find_delay_returns_shifts (sqrt : Q -> Q) (arr : matrix) (reference : list Q)
    (maxshift : Z) (tr : Q) (scaleref rect_data : bool) :
  (1 <= maxshift)%Z -> (1 <= shape0 arr)%nat -> (1 <= shape1 arr)%nat ->
  length reference = shape0 arr ->
  exists delays,
    find_delay sqrt arr reference maxshift tr scaleref rect_data = Ok delays /\
    length delays = shape1 arr /\
    forall j, (j < shape1 arr)%nat ->
      exists s, (- maxshift <= s < maxshift)%Z /\ nth j delays 0 = - (inject_Z s * tr).
Proof.
  intros Hm H0 H1 Href.
  destruct (scaled_signal_shape sqrt arr rect_data H0 H1) as (A & EA & HlenT & HrowsT).
  destruct (scaled_reference sqrt reference scaleref) as (b & Eb & Hb).
  { intros ->. simpl in Href. lia. }
  set (AT := transpose (if rect_data then rectify A else A)) in *.
  set (G := fun s => match correlate sqrt AT (roll b (- s)) with
                     | Ok v => v
                     | Raise _ => []
                     end).
  assert (HG : forall s, correlate sqrt AT (roll b (- s)) = Ok (G s) /\
                         length (G s) = shape1 arr).
  { intros s. destruct (correlate_Ok sqrt AT (roll b (- s))) as (v & Ev & Hv).
    - intros r Hr. rewrite length_roll, (HrowsT r Hr). congruence.
    - unfold G. rewrite Ev. split; [reflexivity | congruence]. }
  set (shifts := range2 (- maxshift) maxshift).
  assert (Hshifts : length shifts = Z.to_nat (2 * maxshift)).
  { unfold shifts. rewrite length_range2. f_equal. lia. }
  set (corrs := map G shifts).
  assert (Hcorrs : length corrs = Z.to_nat (2 * maxshift))
    by (unfold corrs; now rewrite length_map).
  assert (Hne : corrs <> []).
  { intros E. rewrite E in Hcorrs. cbn [length] in Hcorrs. lia. }
  assert (Hwidth : shape1 corrs = shape1 arr).
  { unfold corrs. destruct shifts as [| s0 rest]; [cbn [length] in Hshifts; lia |].
    simpl. apply HG. }
  destruct (argmax0_first_maximum corrs Hne) as (best & Ebest & Hbest & Hspec).
  eexists. split; [| split].
  - unfold find_delay. rewrite EA. cbn [rbind]. rewrite Eb. cbn [rbind]. fold AT.
    rewrite (collect_map_Ok _ G) by (intros s _; apply HG). cbn [rbind].
    fold shifts. fold corrs. rewrite Ebest. cbn [rbind]. reflexivity.
  - rewrite !length_map. congruence.
  - intros j Hj. rewrite <- Hwidth in Hj.
    destruct (Hspec j Hj) as (Hk & _).
    exists (- maxshift + Z.of_nat (nth j best O))%Z. split; [lia |].
    rewrite (nth_map_lt _ _ _ _ 0%Z) by (rewrite length_map; lia).
    rewrite (nth_map_lt _ _ _ _ O) by lia.
    unfold shifts. rewrite nth_range2 by lia. reflexivity.
Qed.

Lemma find_delay_without_shifts (sqrt : Q -> Q) (arr : matrix) (reference : list Q)
    (maxshift : Z) (tr : Q) (scaleref rect_data : bool) :
  (maxshift <= 0)%Z ->
  exists e, find_delay sqrt arr reference maxshift tr scaleref rect_data = Raise e.
Proof.
  intros Hm. unfold find_delay.
  destruct (StandardScaler_fit_transform sqrt arr) as [A | e]; cbn [rbind];
    [| eexists; reflexivity].
  destruct (if negb scaleref then Ok reference else scale sqrt reference) as [b | e];
    cbn [rbind]; [| eexists; reflexivity].
  assert (E : range2 (- maxshift) maxshift = []).
  { unfold range2, range. replace (Z.to_nat (maxshift - - maxshift)) with O by lia.
    reflexivity. }
  rewrite E. simpl. eexists. reflexivity.
Qed.

Lemma five_seconds_of_spacing (dt : Q) :
  0 < dt -> dt <= 5 ->
  exists m, five_seconds_of dt = Ok m /\ (1 <= m)%Z /\ inject_Z m * dt <= 5.
Proof.
  intros Hpos Hle. unfold five_seconds_of.
  destruct (Qeq_bool dt 0) eqn:E; [apply Qeq_bool_iff in E; lra |].
  assert (Hq : 1 <= 5 / dt) by (apply Qle_shift_div_l; lra).
  exists (Qtrunc (5 / dt)). split; [reflexivity |].
  rewrite Qtrunc_nonneg by lra. split.
  - change 1%Z with (Qfloor 1). apply Qfloor_resp_le. exact Hq.
  - pose proof (Qfloor_le (5 / dt)) as Hf.
    assert (E5 : 5 == 5 / dt * dt) by (field; lra).
    rewrite E5 at 2. apply Qmult_le_compat_r; lra.
Qed.

Lemma getitem_in_range (g : list Q) (i : nat) :
  (i < length g)%nat -> getitem g i = Ok (nth i g 0).
Proof. intros H. unfold getitem. now rewrite (nth_error_nth' g 0). Qed.



(** X15: [find_delay] has no shift to try when [maxshift <= 0] and raises
    for every input; so [get_crosscorr] raises when the first two grid points
    are more than five apart or not in ascending order, and raises
    [IndexError] on a grid of fewer than two points. *)
Theorem cross_correlation_needs_a_shift (sqrt : Q -> Q) (reference : option (list Q))
    (scaleref rect_data : bool) (o : Oscillation) :
  (forall arr ref maxshift tr,
      (maxshift <= 0)%Z ->
      exists e, find_delay sqrt arr ref maxshift tr scaleref rect_data = Raise e) /\
  ((length (grid o) < 2)%nat ->
   get_crosscorr sqrt reference scaleref rect_data o = Raise IndexError) /\
  ((2 <= length (grid o))%nat ->
   nth 1 (grid o) 0 - nth 0 (grid o) 0 <= 0 \/ 5 < nth 1 (grid o) 0 - nth 0 (grid o) 0 ->
   exists e, get_crosscorr sqrt reference scaleref rect_data o = Raise e).
Proof.
  split; [intros arr ref maxshift tr; apply find_delay_without_shifts |]. split.
  - intros Hlen. unfold get_crosscorr, getitem.
    destruct (grid o) as [| g0 [| g1 g]]; simpl in *; [reflexivity | reflexivity | lia].
  - intros Hlen Hdt. unfold get_crosscorr. rewrite !getitem_in_range by lia.
    cbn [rbind]. set (dt := nth 1 (grid o) 0 - nth 0 (grid o) 0) in *.
    unfold five_seconds_of.
    destruct (Qeq_bool dt 0) eqn:E; cbn [rbind]; [eexists; reflexivity |].
    apply find_delay_without_shifts.
    assert (Hd : ~ dt == 0) by (intros H; apply Qeq_bool_iff in H; congruence).
    destruct Hdt as [Hneg | Hbig].
    + assert (Hq : 5 / dt <= 0).
      { assert (Hopp : 5 / dt == - (5 / - dt)) by (field; lra).
        assert (Hnn : 0 <= 5 / - dt) by (apply Qle_shift_div_l; lra).
        lra. }
      unfold Qtrunc. destruct (5 / dt) as [n d]. unfold Qle in Hq. simpl in *.
      assert (Hn : (n <= 0)%Z) by lia.
      rewrite <- (Z.opp_involutive n), Z.quot_opp_l by lia.
      pose proof (Z.quot_pos (- n) (Z.pos d)). lia.
    + assert (Hq0 : 0 <= 5 / dt) by (apply Qle_shift_div_l; lra).
      assert (Hq1 : 5 / dt < 1) by (apply Qlt_shift_div_r; lra).
      rewrite Qtrunc_nonneg by exact Hq0.
      assert (Hf : (Qfloor (5 / dt) < 1)%Z).
      { apply Z.lt_nge. intros H.
        assert (inject_Z 1 <= inject_Z (Qfloor (5 / dt))) by (rewrite <- Zle_Qle; exact H).
        pose proof (Qfloor_le (5 / dt)). change (inject_Z 1) with 1 in *. lra. }
      lia.
Qed.

Lemma cross_correlation_needs_a_shift_witness :
  (exists e, find_delay Model.sqrt Model.two_channels Model.reference 0 1 true false
             = Raise e) /\
  get_crosscorr Model.sqrt None true false (set_grid [0] Model.sample)
  = Raise IndexError /\
  (exists e, get_crosscorr Model.sqrt None true false (set_grid [0; 6] Model.sample)
             = Raise e).
Proof.
  pose proof (cross_correlation_needs_a_shift Model.sqrt None true false
                (set_grid [0] Model.sample)) as (H1 & H2 & _).
  pose proof (cross_correlation_needs_a_shift Model.sqrt None true false
                (set_grid [0; 6] Model.sample)) as (_ & _ & H3).
  split; [apply H1; lia |].
  split; [apply H2; simpl; lia |].
  apply H3; [simpl; lia | right; reflexivity].
Defined.

(** ** Shapes in [correlate] *)

Lemma collect_first_error {A} (l : list (result A)) (e : exn) :
  (forall r, In r l -> (exists a, r = Ok a) \/ r = Raise e) ->
  (exists r, In r l /\ r = Raise e) ->
  collect l = Raise e.
Proof.
  induction l as [| r l IH]; intros Hall (r0 & Hin & Hr0); [destruct Hin |].
  simpl. destruct (Hall r (or_introl eq_refl)) as [(a & ->) | ->]; [| reflexivity].
  cbn [rbind]. rewrite IH; [reflexivity | |].
  - intros r' Hr'. apply Hall. now right.
  - destruct Hin as [<- | Hin]; [discriminate |]. exists r0. auto.
Qed.

(** X16: [correlate(a, b)] of a 2-D [a] and a 1-D [b] returns one
    coefficient per row of [a] when every row is as long as [b], and raises
    [ValueError] (from [np.dot]) as soon as one row is not. *)
Theorem correlate_needs_matching_lengths (sqrt : Q -> Q) (a : matrix) (b : list Q) :
  (Forall (fun r => length r = length b) a ->
   exists v, correlate sqrt a b = Ok v /\ length v = length a) /\
  (Exists (fun r => length r <> length b) a -> correlate sqrt a b = Raise ValueError).
Proof.
  split.
  - intros H. apply correlate_Ok. apply Forall_forall. exact H.
  - intros H. unfold correlate.
    set (bc := map (fun x => x - mean b) b).
    rewrite (collect_first_error _ ValueError); [reflexivity | |].
    + intros r Hr. apply in_map_iff in Hr. destruct Hr as (r0 & <- & _).
      unfold dot. destruct (Nat.eqb (length r0) (length bc)); eauto.
    + apply Exists_exists in H. destruct H as (r0 & Hin & Hlen).
      exists (dot (map (fun x => x - mean r0) r0) bc). split.
      * apply in_map_iff. exists (map (fun x => x - mean r0) r0). split; [reflexivity |].
        apply in_map_iff. exists r0. auto.
      * unfold dot, bc. rewrite !length_map.
        destruct (Nat.eqb_spec (length r0) (length b)); [contradiction | reflexivity].
Qed.

Lemma correlate_needs_matching_lengths_witness :
  (exists v, correlate Model.sqrt [[1; 2; 4]; [3; 1; 0]] [1; 0; 2] = Ok v /\
             length v = length [[1; 2; 4]; [3; 1; 0]]) /\
  correlate Model.sqrt [[1; 2; 4]; [3; 1]] [1; 0; 2] = Raise ValueError.
Proof.
  pose proof (correlate_needs_matching_lengths Model.sqrt [[1; 2; 4]; [3; 1; 0]] [1; 0; 2])
    as (H1 & _).
  pose proof (correlate_needs_matching_lengths Model.sqrt [[1; 2; 4]; [3; 1]] [1; 0; 2])
    as (_ & H2).
  split.
  - apply H1. repeat constructor.
  - apply H2. apply Exists_cons_tl. apply Exists_cons_hd. discriminate.
Defined.

(** ** Traces need three windows *)

(** X17: the traces of [make_traces] are empty whenever the filtered
    products have fewer than [3 * window] samples: with the default window
    of 50, filtered products of fewer than 150 samples leave no trace. *)
Theorem make_traces_needs_three_windows (sin cos : Q -> Q) (pi : Q) (sos : Type)
    (butter : Z -> Q -> Q -> result sos) (sosfiltfilt : sos -> list Q -> result (list Q))
    (signals : list Q) (frequency tr offset : Q) (window : Z)
    (coefficients : sos) (filtered_s filtered_c : list Q) :
  ~ tr == 0 -> (1 <= window)%Z ->
  butter 4%Z (frequency / 2) (1 / tr) = Ok coefficients ->
  sosfiltfilt coefficients
    (vmul signals (reference_wave pi sin (length signals) frequency tr offset))
  = Ok filtered_s ->
  sosfiltfilt coefficients
    (vmul signals (reference_wave pi cos (length signals) frequency tr offset))
  = Ok filtered_c ->
  (Z.of_nat (length filtered_s) + 1 <= 3 * window)%Z ->
  (Z.of_nat (length filtered_c) + 1 <= 3 * window)%Z ->
  make_traces sin cos pi butter sosfiltfilt signals frequency tr offset window
  = Ok ([], []).
Proof.
  intros Htr Hw Hbutter Hs Hc Hls Hlc.
  assert (Hempty : forall x, (Z.of_nat (length x) + 1 <= 3 * window)%Z ->
                             exists average, moving_average x window = Ok average /\
                                             slice window (- window) average = []).
  { intros x Hx. destruct (Z_lt_le_dec (Z.of_nat (length x)) window) as [Hlt | Hge].
    - exists []. split; [| unfold slice; rewrite skipn_nil, firstn_nil; reflexivity].
      unfold moving_average.
      assert (Hret : length (cumsum x) = length x) by apply length_cumsum_from.
      assert (Hsk : skipn (length x) (cumsum x) = [])
        by (rewrite <- Hret; apply skipn_all).
      assert (Hfi : firstn (length x) (cumsum x) = cumsum x)
        by (rewrite <- Hret; apply firstn_all).
      assert (Hi : slice_index window (length (cumsum x)) = length x).
      { unfold slice_index. destruct (Z.ltb_spec window 0); lia. }
      assert (Hm : slice_index (- window) (length (cumsum x)) = O).
      { unfold slice_index. destruct (Z.ltb_spec (- window) 0); lia. }
      assert (Hj : slice_index (window - 1) (length (cumsum x)) = length x).
      { unfold slice_index. destruct (Z.ltb_spec (window - 1) 0); lia. }
      unfold slice_from, slice_to. rewrite Hi, Hm, Hsk, Hfi. simpl.
      rewrite app_nil_r, Hj, Hsk. reflexivity.
    - destruct (averaged_and_trimmed x window) as (average & E & Hlen & _); [lia |].
      exists average. split; [exact E |].
      apply length_zero_iff_nil. rewrite Hlen. lia. }
  destruct (Hempty filtered_s Hls) as (avg_s & Es & Ts).
  destruct (Hempty filtered_c Hlc) as (avg_c & Ec & Tc).
  unfold make_traces, reciprocal.
  destruct (Qeq_bool tr 0) eqn:E; [apply Qeq_bool_iff in E; contradiction |].
  cbn [rbind]. rewrite Hbutter. cbn [rbind].
  rewrite Hs. cbn [rbind]. rewrite Es. cbn [rbind].
  rewrite Hc. cbn [rbind]. rewrite Ec. cbn [rbind]. rewrite Ts, Tc. reflexivity.
Qed.

Lemma make_traces_needs_three_windows_witness :
  make_traces Model.sin Model.cos Model.pi Model.butter Model.sosfiltfilt
              Model.signal Model.frequency 1 0 6
  = Ok ([], []).
Proof.
  apply (make_traces_needs_three_windows Model.sin Model.cos Model.pi Q
           Model.butter Model.sosfiltfilt Model.signal Model.frequency 1 0 6
           (Model.frequency / 2) (Model.filtered Model.sin) (Model.filtered Model.cos)).
  - discriminate.
  - lia.
  - reflexivity.
  - reflexivity.
  - reflexivity.
  - replace (length (Model.filtered Model.sin)) with 16%nat by (vm_compute; reflexivity).
    lia.
  - replace (length (Model.filtered Model.cos)) with 16%nat by (vm_compute; reflexivity).
    lia.
Defined.
